(** * Animation widgets (L04-Objects/widgets.js): a shallow embedding

    The widgets of [widgets.js] are JavaScript objects whose methods close
    over private variables ([animationFrame], [times], [position], [time])
    and over DOM nodes.  Several of them are built with
    [Object.create(widget)], so that a method that is not overridden is the
    wrapped object's function run with the wrapper as [this].

    The embedding keeps that structure:
    - an object is a value of [obj]: which constructor built it, the
      identifier of that constructor call, its DOM nodes and the objects it
      closes over (the prototype for the [Object.create(widget)] ones);
    - the mutable variables live in a [store], keyed by the identifier of
      the constructor call that declared them;
    - methods are computations in a state-and-exception monad [M];
    - [tickFn o this], [isDoneFn o this] and [resetFn o this] are "the
      function found by looking the method up from [o], called with
      receiver [this]"; a call [o.tick()] is [tickFn o o].

    The store also records every method call and every answer of
    [isDone()] in [calls], which is what the statements about who is
    ticked, queried or reset, and when, are about.

    Of the DOM, the embedding keeps the nodes, their children, the text of
    a node and its offset; the fixed styling of a node and what is drawn
    on a canvas play no part in [tick], [isDone] and [reset] and are left
    out.  [RepeatHorizontal] and [RepeatHorizontalWithPadding] build their
    array with [Array.create], which the source does not define; they are
    [Horizontal] on that array and are not embedded separately.

    Two things are kept simpler than the browser has them, and the
    statements that depend on them say so.  The text of a node is the
    string assigned to [innerHTML]; the browser parses that string as
    markup, so the two agree for text without [&], [<] and [>].  And
    [times] and [time] are integers counted exactly; JavaScript numbers
    count exactly up to [2^53]. *)

From Stdlib Require Import ZArith String List Lia Bool.
From stdpp Require Import base option list gmap strings.
Import ListNotations.

Set Warnings "-register-all".

(** ** The store *)

Inductive method := Tick | IsDone | Reset.

(** [Call m owner this]: the function that is the value of property [m] of
    object [owner] starts running with receiver [this].
    [Ret this b]: an [isDone] function running with receiver [this]
    returns [b]. *)
Inductive event :=
| Call (m : method) (owner this : nat)
| Ret (this : nat) (b : bool).

Record store := Store {
  nextId : nat;                      (* allocation counter: objects and DOM nodes *)
  animationFrame : gmap nat nat;     (* var animationFrame, in AsciiAnimation *)
  times : gmap nat Z;                (* parameter times, in Repeat *)
  position : gmap nat nat;           (* var position, in Sequence *)
  time : gmap nat nat;               (* var time, in ChangingPosition *)
  innerHTML : gmap nat string;       (* node.innerHTML *)
  offset : gmap nat (Z * Z);         (* node.style.left, node.style.top, in px *)
  childNodes : gmap nat (list nat);  (* children of a DOM node, in order *)
  calls : list event                 (* method calls so far, oldest first *)
}.

Definition empty_store : store :=
  Store 1 ∅ ∅ ∅ ∅ ∅ ∅ ∅ [].

Definition set_nextId (n : nat) (s : store) : store :=
  Store n (animationFrame s) (times s) (position s) (time s)
        (innerHTML s) (offset s) (childNodes s) (calls s).
Definition set_animationFrame (m : gmap nat nat) (s : store) : store :=
  Store (nextId s) m (times s) (position s) (time s)
        (innerHTML s) (offset s) (childNodes s) (calls s).
Definition set_times (m : gmap nat Z) (s : store) : store :=
  Store (nextId s) (animationFrame s) m (position s) (time s)
        (innerHTML s) (offset s) (childNodes s) (calls s).
Definition set_position (m : gmap nat nat) (s : store) : store :=
  Store (nextId s) (animationFrame s) (times s) m (time s)
        (innerHTML s) (offset s) (childNodes s) (calls s).
Definition set_time (m : gmap nat nat) (s : store) : store :=
  Store (nextId s) (animationFrame s) (times s) (position s) m
        (innerHTML s) (offset s) (childNodes s) (calls s).
Definition set_innerHTML (m : gmap nat string) (s : store) : store :=
  Store (nextId s) (animationFrame s) (times s) (position s) (time s)
        m (offset s) (childNodes s) (calls s).
Definition set_offset (m : gmap nat (Z * Z)) (s : store) : store :=
  Store (nextId s) (animationFrame s) (times s) (position s) (time s)
        (innerHTML s) m (childNodes s) (calls s).
Definition set_childNodes (m : gmap nat (list nat)) (s : store) : store :=
  Store (nextId s) (animationFrame s) (times s) (position s) (time s)
        (innerHTML s) (offset s) m (calls s).
Definition set_calls (l : list event) (s : store) : store :=
  Store (nextId s) (animationFrame s) (times s) (position s) (time s)
        (innerHTML s) (offset s) (childNodes s) l.

(** [animationFrame], [position] and [time] start at 0 and only ever have
    1 added to them: they are natural numbers.  [times] is whatever number
    the caller of [Repeat] passed.  A variable that no constructor has
    initialised reads as 0; constructors always initialise theirs. *)
Definition readN (m : gmap nat nat) (k : nat) : nat := default 0 (m !! k).
Definition readZ (m : gmap nat Z) (k : nat) : Z := default 0%Z (m !! k).
Definition readS (m : gmap nat string) (k : nat) : string := default EmptyString (m !! k).

(** ** State and exceptions *)

Inductive error := TypeError.

Inductive result (A : Type) :=
| Ok (a : A)
| Throw (e : error).
Arguments Ok {A} a.
Arguments Throw {A} e.

Definition M (A : Type) : Type := store -> result A * store.

Definition ret {A} (a : A) : M A := fun s => (Ok a, s).
Definition throw {A} (e : error) : M A := fun s => (Throw e, s).
Definition bind {A B} (c : M A) (k : A -> M B) : M B :=
  fun s => match c s with
           | (Ok a, s') => k a s'
           | (Throw e, s') => (Throw e, s')
           end.
Definition gets {A} (f : store -> A) : M A := fun s => (Ok (f s), s).
Definition modify (f : store -> store) : M unit := fun s => (Ok tt, f s).

Declare Scope js_scope.
Delimit Scope js_scope with js.
Notation "x <- c1 ;; c2" := (bind c1 (fun x => c2))
  (at level 100, c1 at next level, right associativity) : js_scope.
Notation "c1 ;; c2" := (bind c1 (fun _ => c2))
  (at level 100, right associativity) : js_scope.
Local Open Scope js_scope.

Definition log (e : event) : M unit :=
  modify (fun s => set_calls (calls s ++ [e]) s).

(** ** Arrays *)

(** An array is a list; [a[i]] is [a !! i], [None] standing for
    [undefined], and [a.length] is [length a]. *)

(** Modelled from the spec: [Array.prototype.each] is called by the widgets
    but defined in no source file (the file defines the same loop under the
    name [foreach]); the spec has the widgets visit "every child, in list
    order", so [each] calls [f] on every element, first to last. *)
Fixpoint each {A} (f : A -> M unit) (a : list A) : M unit :=
  match a with
  | [] => ret tt
  | x :: a' => f x ;; each f a'
  end.

(** [Array.prototype.reduce] as the file defines it:
    [for (i...) acc = f(this[i], acc); return acc]. *)
Fixpoint reduce {A B} (f : A -> B -> M B) (acc : B) (a : list A) : M B :=
  match a with
  | [] => ret acc
  | x :: a' => acc' <- f x acc ;; reduce f acc' a'
  end.

(** [while (cond) body], for a loop that runs its body at most [fuel]
    times. *)
Fixpoint while (fuel : nat) (cond : M bool) (body : M unit) : M unit :=
  match fuel with
  | O => ret tt
  | S k => b <- cond ;; if b then body ;; while k cond body else ret tt
  end.

(** ** The DOM *)

Definition createElement : M nat :=
  fun s => (Ok (nextId s),
            set_childNodes (<[nextId s := []]> (childNodes s))
              (set_nextId (S (nextId s)) s)).

(** [parent.appendChild(child)]: the child leaves its former parent. *)
Definition appendChild (parent child : nat) : M unit :=
  modify (fun s =>
    let detached := filter (fun n => n ≠ child) <$> childNodes s in
    set_childNodes
      (<[parent := default [] (detached !! parent) ++ [child]]> detached) s).

(** ** Objects *)

(** The identifier of the object [Widget]. *)
Definition Widget : nat := 0.

Definition newId : M nat :=
  fun s => (Ok (nextId s), set_nextId (S (nextId s)) s).

Inductive obj : Type :=
| ObjStatic (that el : nat)
| ObjAsciiAnimation (that span pre : nat) (sprites : list (list string))
| ObjRepeatIndefinitely (that : nat) (widget : obj)
| ObjRepeat (that : nat) (widget : obj)
| ObjHorizontal (that span : nat) (widgets : list obj)
| ObjWithPadding (that span : nat) (widget : obj) (width : string)
| ObjSequence (that span : nat) (widgets : list obj)
| ObjChangingPosition (that span : nat) (parent : obj)
                      (maxTime : Z) (atTime : nat -> Z * Z).

Definition oid (o : obj) : nat :=
  match o with
  | ObjStatic that _ | ObjAsciiAnimation that _ _ _
  | ObjRepeatIndefinitely that _ | ObjRepeat that _
  | ObjHorizontal that _ _ | ObjWithPadding that _ _ _
  | ObjSequence that _ _ | ObjChangingPosition that _ _ _ _ => that
  end.

(** [o.getElement()]: found on [o] itself, or on its prototype for
    [RepeatIndefinitely] and [Repeat]. *)
Fixpoint getElement (o : obj) : nat :=
  match o with
  | ObjStatic _ el => el
  | ObjAsciiAnimation _ span _ _ => span
  | ObjRepeatIndefinitely _ widget => getElement widget
  | ObjRepeat _ widget => getElement widget
  | ObjHorizontal _ span _ => span
  | ObjWithPadding _ span _ _ => span
  | ObjSequence _ span _ => span
  | ObjChangingPosition _ span _ _ _ => span
  end.

Definition newline : string := String (Ascii.ascii_of_nat 10) EmptyString.

(** [useSprite(i)] of [AsciiAnimation]. *)
Definition useSprite (pre : nat) (sprites : list (list string)) (i : nat) : M unit :=
  modify (fun s => set_innerHTML (<[pre := EmptyString]> (innerHTML s)) s) ;;
  match sprites !! i with
  | None => throw TypeError
  | Some lines =>
      each (fun line =>
              modify (fun s =>
                set_innerHTML
                  (<[pre := (readS (innerHTML s) pre +:+ line +:+ newline)%string]>
                     (innerHTML s)) s))
           lines
  end.

(** [moveIt()] of [ChangingPosition]. *)
Definition moveIt (that span : nat) (atTime : nat -> Z * Z) : M unit :=
  modify (fun s =>
    set_offset (<[span := atTime (readN (time s) that)]> (offset s)) s).

(** *** reset *)

Fixpoint resetFn (o this : obj) {struct o} : M unit :=
  match o with
  | ObjStatic _ _ =>
      log (Call Reset Widget (oid this))
  | ObjAsciiAnimation that _ _ _ =>
      log (Call Reset that (oid this)) ;;
      modify (fun s => set_animationFrame (<[that := 0]> (animationFrame s)) s)
  | ObjRepeatIndefinitely _ widget => resetFn widget this
  | ObjRepeat _ widget => resetFn widget this
  | ObjHorizontal that _ widgets =>
      log (Call Reset that (oid this)) ;;
      each (fun widget => resetFn widget widget) widgets
  | ObjWithPadding _ _ widget _ => resetFn widget this
  | ObjSequence that _ widgets =>
      log (Call Reset that (oid this)) ;;
      each (fun widget => resetFn widget widget) widgets ;;
      modify (fun s => set_position (<[that := 0]> (position s)) s)
  | ObjChangingPosition _ _ parent _ _ => resetFn parent this
  end.

Definition reset (o : obj) : M unit := resetFn o o.

(** *** isDone *)

Definition answer (this : obj) (b : bool) : M bool :=
  log (Ret (oid this) b) ;; ret b.

Fixpoint isDoneFn (o this : obj) {struct o} : M bool :=
  match o with
  | ObjStatic _ _ =>
      log (Call IsDone Widget (oid this)) ;;
      answer this true
  | ObjAsciiAnimation that _ _ sprites =>
      log (Call IsDone that (oid this)) ;;
      frame <- gets (fun s => readN (animationFrame s) that) ;;
      answer this (length sprites <=? frame)
  | ObjRepeatIndefinitely that widget =>
      log (Call IsDone that (oid this)) ;;
      d <- isDoneFn widget widget ;;
      (if d then resetFn widget widget else ret tt) ;;
      answer this false
  | ObjRepeat that widget =>
      log (Call IsDone that (oid this)) ;;
      n <- gets (fun s => readZ (times s) that) ;;
      if (n <=? 0)%Z then answer this true
      else
        d <- isDoneFn widget widget ;;
        (if d then
           modify (fun s =>
             set_times (<[that := (readZ (times s) that - 1)%Z]> (times s)) s) ;;
           resetFn widget widget
         else ret tt) ;;
        answer this false
  | ObjHorizontal that _ widgets =>
      log (Call IsDone that (oid this)) ;;
      b <- reduce (fun widget b => d <- isDoneFn widget widget ;; ret (d && b))
                  true widgets ;;
      answer this b
  | ObjWithPadding _ _ widget _ => isDoneFn widget this
  | ObjSequence that _ widgets =>
      (* each turn of the loop adds 1 to [position], and the loop ends when
         [position] reaches [widgets.length]: at most [length widgets] turns *)
      log (Call IsDone that (oid this)) ;;
      let isDones := map (fun widget => isDoneFn widget widget) widgets in
      while (length widgets)
        (p <- gets (fun s => readN (position s) that) ;;
         if p <? length widgets then
           match isDones !! p with
           | Some widget_isDone => widget_isDone
           | None => throw TypeError
           end
         else ret false)
        (modify (fun s =>
           set_position (<[that := readN (position s) that + 1]> (position s)) s)) ;;
      p <- gets (fun s => readN (position s) that) ;;
      answer this (length widgets <=? p)
  | ObjChangingPosition that _ _ maxTime _ =>
      log (Call IsDone that (oid this)) ;;
      t <- gets (fun s => readN (time s) that) ;;
      answer this (maxTime <=? Z.of_nat t)%Z
  end.

Definition isDone (o : obj) : M bool := isDoneFn o o.

(** *** tick *)

Fixpoint tickFn (o this : obj) {struct o} : M unit :=
  match o with
  | ObjStatic _ _ =>
      log (Call Tick Widget (oid this))
  | ObjAsciiAnimation that _ pre sprites =>
      log (Call Tick that (oid this)) ;;
      modify (fun s =>
        set_animationFrame
          (<[that := readN (animationFrame s) that + 1]> (animationFrame s)) s) ;;
      frame <- gets (fun s => readN (animationFrame s) that) ;;
      if frame <? length sprites then useSprite pre sprites frame else ret tt
  | ObjRepeatIndefinitely _ widget => tickFn widget this
  | ObjRepeat _ widget => tickFn widget this
  | ObjHorizontal that _ widgets =>
      log (Call Tick that (oid this)) ;;
      each (fun widget => tickFn widget widget) widgets
  | ObjWithPadding _ _ widget _ => tickFn widget this
  | ObjSequence that _ widgets =>
      log (Call Tick that (oid this)) ;;
      let ticks := map (fun widget => tickFn widget widget) widgets in
      p <- gets (fun s => readN (position s) that) ;;
      match ticks !! p with
      | Some widget_tick => widget_tick
      | None => throw TypeError
      end
  | ObjChangingPosition that span parent _ atTime =>
      log (Call Tick that (oid this)) ;;
      d <- isDone this ;;
      if negb d then
        modify (fun s => set_time (<[that := readN (time s) that + 1]> (time s)) s) ;;
        moveIt that span atTime ;;
        tickFn parent parent
      else ret tt
  end.

Definition tick (o : obj) : M unit := tickFn o o.

(** ** Constructors

    Each constructor call draws one identifier, which names the object it
    returns and keys the variables it declares. *)

(** [Textbox(text, bgcolor, width, height)]; the colours and sizes only
    style the node. *)
Definition Textbox (text : string) : M obj :=
  that <- newId ;;
  span <- createElement ;;
  modify (fun s => set_innerHTML (<[span := text]> (innerHTML s)) s) ;;
  ret (ObjStatic that span).

(** [Canvas(width, height, withContext)]; what [withContext] draws stays
    inside the canvas node. *)
Definition Canvas : M obj :=
  that <- newId ;;
  canvas <- createElement ;;
  ret (ObjStatic that canvas).

(** [Circle(radius)] is a [Canvas] with a disc drawn on it. *)
Definition Circle : M obj := Canvas.

Definition AsciiAnimation (sprites : list (list string)) : M obj :=
  that <- newId ;;
  span <- createElement ;;
  pre <- createElement ;;
  appendChild span pre ;;
  modify (fun s => set_animationFrame (<[that := 0]> (animationFrame s)) s) ;;
  useSprite pre sprites 0 ;;
  ret (ObjAsciiAnimation that span pre sprites).


Definition Repeat (widget : obj) (n : Z) : M obj :=
  that <- newId ;;
  modify (fun s => set_times (<[that := n]> (times s)) s) ;;
  ret (ObjRepeat that widget).

Definition Horizontal (widgets : list obj) : M obj :=
  that <- newId ;;
  span <- createElement ;;
  each (fun widget => appendChild span (getElement widget)) widgets ;;
  ret (ObjHorizontal that span widgets).

(** [width = width || "10px"]: a missing or empty width is replaced. *)
Definition WithPadding (widget : obj) (width : option string) : M obj :=
  let width := match width with
               | None | Some EmptyString => "10px"%string
               | Some w => w
               end in
  that <- newId ;;
  span <- createElement ;;
  appendChild span (getElement widget) ;;
  ret (ObjWithPadding that span widget width).

Definition Sequence (widgets : list obj) : M obj :=
  that <- newId ;;
  span <- createElement ;;
  match widgets !! 0 with
  | None => throw TypeError
  | Some first =>
      appendChild span (getElement first) ;;
      modify (fun s => set_position (<[that := 0]> (position s)) s) ;;
      ret (ObjSequence that span widgets)
  end.

(** [parent.ChangingPosition(maxTime, atTime)]. *)
Definition ChangingPosition (parent : obj) (maxTime : Z) (atTime : nat -> Z * Z) : M obj :=
  that <- newId ;;
  span <- createElement ;;
  appendChild span (getElement parent) ;;
  modify (fun s => set_time (<[that := 0]> (time s)) s) ;;
  moveIt that span atTime ;;
  ret (ObjChangingPosition that span parent maxTime atTime).

(** ** The scheduler

    [animation(widget, period)] returns [widget.getElement()] at once and
    leaves one timeout pending.  Each time a timeout fires, its callback
    ticks the widget, asks [isDone()], and sets the next timeout when the
    answer is false.  [period] spaces the timeouts in real time and plays
    no part in what they do. *)

Inductive status :=
| Finished      (* isDone() answered true: no timeout is pending *)
| Scheduled.    (* a timeout is pending *)

(** The function passed to [window.setTimeout]; its result tells whether
    it called [ticker()] again. *)
Definition callback (widget : obj) : M bool :=
  tick widget ;;
  d <- isDone widget ;;
  ret (negb d).

(** [ticker n widget]: what the first [n] timeouts do. *)
Fixpoint ticker (n : nat) (widget : obj) : M status :=
  match n with
  | O => ret Scheduled
  | S k => again <- callback widget ;;
           if again then ticker k widget else ret Finished
  end.

(** [animation n widget]: the element returned, and the effect of the
    first [n] timeouts. *)
Definition animation (n : nat) (widget : obj) : M (nat * status) :=
  st <- ticker n widget ;;
  ret (getElement widget, st).

(** * The array functionals

    The functionals that the source adds to [Array.prototype].  [reduce]
    is above, with the arrays: the widgets call it.  The callbacks are
    computations in [M]: they may change the store and they may throw. *)

Module ArrayPrototype.

(** [a.foreach(f)]: [for (i...) f(this[i])]. *)
Fixpoint foreach {A} (f : A -> M unit) (a : list A) : M unit :=
  match a with
  | [] => ret tt
  | x :: a' => f x ;; foreach f a'
  end.

(** The loop of [filter] from some index on: [rest] holds [this[i]] and
    the elements after it, [output] is the array pushed to so far. *)
Fixpoint filter_loop {A} (f : A -> M bool) (rest output : list A) : M (list A) :=
  match rest with
  | [] => ret output
  | x :: rest' =>
      keep <- f x ;;
      filter_loop f rest' (if keep then output ++ [x] else output)
  end.

(** [a.filter(f)]; the answer of [f] is read as a truth value. *)
Definition filter {A} (f : A -> M bool) (a : list A) : M (list A) :=
  filter_loop f a [].

(** The loop of [map] from some index on. *)
Fixpoint map_loop {A B} (f : A -> M B) (rest : list A) (output : list B) : M (list B) :=
  match rest with
  | [] => ret output
  | x :: rest' => y <- f x ;; map_loop f rest' (output ++ [y])
  end.

(** [a.map(f)]. *)
Definition map {A B} (f : A -> M B) (a : list A) : M (list B) :=
  map_loop f a [].

End ArrayPrototype.

(** ** mapAsync and filterAsync

    [f] is handed, with each element, a function to call "with the new
    value, when ready": it may call it at once, keep it and have it called
    later, call it twice, or never.  So what a call of [mapAsync] does is
    given by the variables it declares, by what the [for] loop does to
    them, and by what each later call of one of the functions handed out
    does to them.  [callback] is the caller's: the arrays it is called
    with are recorded, as they are at the call. *)

(** [a[i] = value]: a write past the end pads the array with holes
    ([None]). *)
Definition assign {X} (i : nat) (value : X) (a : list (option X)) : list (option X) :=
  if i <? length a then <[i := Some value]> a
  else a ++ replicate (i - length a) None ++ [Some value].

Module MapAsync.
Section MapAsync.
Context {A V : Type}.

Record vars := Vars {
  output : list (option V);           (* var output *)
  finished : nat;                     (* var finished *)
  called : list (list (option V))     (* the arguments of callback(output), oldest first *)
}.

(** The function handed to [f] with [that[i]]. *)
Definition valueIs (n i : nat) (value : V) (s : vars) : vars :=
  let output' := assign i value (output s) in
  let finished' := S (finished s) in
  Vars output' finished'
       (if finished' =? n then called s ++ [output'] else called s).

(** The [for] loop from index [i] on, [rest] being [that[i]] and the
    elements after it, and [n] being [that.length]. *)
Fixpoint loop (f : A -> (V -> vars -> vars) -> vars -> vars)
    (n i : nat) (rest : list A) (s : vars) : vars :=
  match rest with
  | [] => s
  | x :: rest' => loop f n (S i) rest' (f x (valueIs n i) s)
  end.

Definition mapAsync (f : A -> (V -> vars -> vars) -> vars -> vars)
    (that : list A) : vars :=
  loop f (length that) 0 that (Vars [] 0 []).

(** Calls, one after the other, of the functions handed to [f]: [(i, v)]
    is a call of the one for index [i], with value [v]. *)
Definition later (n : nat) (evs : list (nat * V)) (s : vars) : vars :=
  fold_left (fun s e => valueIs n (fst e) (snd e) s) evs s.

End MapAsync.
End MapAsync.

Module FilterAsync.
Section FilterAsync.
Context {A : Type}.

Record vars := Vars {
  keepIt : list (option bool);   (* var keepIt, the values read as truth values *)
  finished : nat;                (* var finished *)
  i : gmap nat nat;              (* the parameter i of the j-th call of function(i) *)
  called : list (list A)         (* the arguments of callback(output), oldest first *)
}.

(** [if (keepIt[i])]: a hole, and an index past the end, give
    [undefined]. *)
Definition truthy (v : option (option bool)) : bool :=
  match v with Some (Some true) => true | _ => false end.

(** The inner loop [for (i = 0; ...) if (keepIt[i]) output.push(that[i])]
    from index [i] on. *)
Fixpoint collect (keepIt : list (option bool)) (i : nat) (rest output : list A) : list A :=
  match rest with
  | [] => output
  | x :: rest' =>
      collect keepIt (S i) rest' (if truthy (keepIt !! i) then output ++ [x] else output)
  end.

(** The function handed to [f] by the [j]-th call of [function(i)].  The
    inner loop counts with that call's [i] and leaves it at
    [that.length]. *)
Definition valueIs (that : list A) (j : nat) (value : bool) (s : vars) : vars :=
  let keepIt' := assign (readN (i s) j) value (keepIt s) in
  let finished' := S (finished s) in
  if finished' =? length that then
    Vars keepIt' finished' (<[j := length that]> (i s))
         (called s ++ [collect keepIt' 0 that []])
  else Vars keepIt' finished' (i s) (called s).

(** The [for] loop from index [j] on; each turn calls [function(i)] with
    [j] for [i]. *)
Fixpoint loop (f : A -> (bool -> vars -> vars) -> vars -> vars)
    (that : list A) (j : nat) (rest : list A) (s : vars) : vars :=
  match rest with
  | [] => s
  | x :: rest' =>
      loop f that (S j) rest'
        (f x (valueIs that j)
           (Vars (keepIt s) (finished s) (<[j := j]> (i s)) (called s)))
  end.

Definition filterAsync (f : A -> (bool -> vars -> vars) -> vars -> vars)
    (that : list A) : vars :=
  loop f that 0 that (Vars [] 0 ∅ []).

Definition later (that : list A) (evs : list (nat * bool)) (s : vars) : vars :=
  fold_left (fun s e => valueIs that (fst e) (snd e) s) evs s.

End FilterAsync.
End FilterAsync.

(** ** search

    [search(text, output)] is written against two asynchronous services
    that the source does not define: [nearbySearch], which hands an array
    of results to its callback, and [getDetails], which hands the place of
    a result to its callback.  [search results evs] is what [output] is
    called with once [nearbySearch] has handed over [results] and the
    calls [evs] of the [getDetails] callbacks have come: [(i, place)] is
    the callback for [results[i]] called with [place]. *)

Module Search.

Record result := Result { place_id : nat }.
Record place := Place { utc_offset : Z }.

(** The numbers that [search] computes with: [-Infinity] and the offsets. *)
Inductive number := NegInfinity | Num (z : Z).

Definition Math_max (a b : number) : number :=
  match a, b with
  | NegInfinity, x | x, NegInfinity => x
  | Num x, Num y => Num (Z.max x y)
  end.

(** [results.reduce(function(place, best) {...}, -Infinity)], on the
    array that [mapAsync] passes; a hole has no [utc_offset] to read. *)
Definition best (results : list (option place)) : M number :=
  reduce (fun place best =>
            match place with
            | Some place => ret (Math_max (Num (utc_offset place)) best)
            | None => throw TypeError
            end)
         NegInfinity results.

Definition search (results : list result) (evs : list (nat * place)) : list number :=
  let vars := MapAsync.later (length results) evs
                (MapAsync.mapAsync (fun _ _ s => s) results) in
  flat_map (fun results =>
              match fst (best results empty_store) with
              | Ok n => [n]
              | Throw _ => []
              end)
           (MapAsync.called vars).

End Search.

(** * Observing the program *)

(** ** The record of calls *)

Definition event_eqb_method (m1 m2 : method) : bool :=
  match m1, m2 with
  | Tick, Tick | IsDone, IsDone | Reset, Reset => true
  | _, _ => false
  end.

(** The calls of method [m] on receiver [this]. *)
Definition receives (m : method) (this : nat) (e : event) : bool :=
  match e with
  | Call m' _ this' => event_eqb_method m m' && Nat.eqb this this'
  | Ret _ _ => false
  end.

(** The runs of the function that is property [m] of [owner]. *)
Definition runs (m : method) (owner : nat) (e : event) : bool :=
  match e with
  | Call m' owner' _ => event_eqb_method m m' && Nat.eqb owner owner'
  | Ret _ _ => false
  end.

Definition answers (this : nat) (b : bool) (e : event) : bool :=
  match e with
  | Ret this' b' => Nat.eqb this this' && Bool.eqb b b'
  | Call _ _ _ => false
  end.

Definition count (p : event -> bool) (l : list event) : nat :=
  length (List.filter p l).

(** The events recorded after the store was [s0]. *)
Definition since (s0 s : store) : list event :=
  drop (length (calls s0)) (calls s).

(** ** Objects and receivers *)

(** The identifiers of an object and of every object it closes over. *)
Fixpoint ids (o : obj) : list nat :=
  match o with
  | ObjStatic that _ => [that]
  | ObjAsciiAnimation that _ _ _ => [that]
  | ObjRepeatIndefinitely that widget => that :: ids widget
  | ObjRepeat that widget => that :: ids widget
  | ObjHorizontal that _ widgets => that :: flat_map ids widgets
  | ObjWithPadding that _ widget _ => that :: ids widget
  | ObjSequence that _ widgets => that :: flat_map ids widgets
  | ObjChangingPosition that _ parent _ _ => that :: ids parent
  end.

(** The identifiers of the objects that [o] closes over. *)
Definition below (o : obj) : list nat := tl (ids o).

(** The receiver of a recorded event. *)
Definition receiver (e : event) : nat :=
  match e with Call _ _ this => this | Ret this _ => this end.

(** ** What is shown *)

(** The text [useSprite] leaves in the [pre] node. *)
Definition render (lines : list string) : string :=
  fold_left (fun h line => (h +:+ line +:+ newline)%string) lines EmptyString.

(** [node.innerHTML] is markup: the node parses what is assigned to it,
    and a read gives the markup of what the node then holds.  For text
    without the characters [&], [<] and [>], which markup gives a meaning
    of their own, that is the text as it was assigned, and [innerHTML] in
    the store is what the node shows.  [plainText] is such text, of
    printable ASCII characters. *)
Definition plainChar (c : Ascii.ascii) : bool :=
  let n := Ascii.nat_of_ascii c in
  (32 <=? n) && (n <=? 126) && negb ((n =? 38) || (n =? 60) || (n =? 62)).

Definition plainText (line : string) : bool :=
  forallb plainChar (list_ascii_of_string line).

(** What an [AsciiAnimation] shows, and its frame index. *)
Definition displayed (o : obj) (s : store) : string :=
  match o with
  | ObjAsciiAnimation _ _ pre _ => readS (innerHTML s) pre
  | _ => EmptyString
  end.

Definition frameIndex (o : obj) (s : store) : nat :=
  readN (animationFrame s) (oid o).

(** The frame index of animation [a] after each of the first [n] timeouts
    of the scheduler on [o]. *)
Definition framesAfter (n : nat) (o : obj) (a : nat) (s : store) : list nat :=
  map (fun k => readN (animationFrame (snd (ticker k o s))) a) (seq 1 n).

(** What animation [w] shows after each of the first [n] timeouts. *)
Definition shownAfter (n : nat) (o w : obj) (s : store) : list string :=
  map (fun k => displayed w (snd (ticker k o s))) (seq 1 n).

(** ** Successions of calls *)

Inductive command := DoTick | DoIsDone.

Definition step (o : obj) (s : store) (c : command) : store :=
  match c with
  | DoTick => snd (tick o s)
  | DoIsDone => snd (isDone o s)
  end.

(** Any succession of [tick()] and [isDone()] calls on [o]. *)
Definition steps (cs : list command) (o : obj) (s : store) : store :=
  fold_left (step o) cs s.

(** Any succession of [tick()], [isDone()] and [reset()] calls, each on
    an object of its own. *)
Definition invoke (s : store) (c : method * obj) : store :=
  match c with
  | (Tick, o) => snd (tick o s)
  | (IsDone, o) => snd (isDone o s)
  | (Reset, o) => snd (reset o s)
  end.

Definition invokeAll (cs : list (method * obj)) (s : store) : store :=
  fold_left invoke cs s.

(** [waits a b seen evs]: in [evs], every tick received by [b] comes after
    an answer true of [a] ([seen] tells whether there was one before). *)
Fixpoint waits (a b : nat) (seen : bool) (evs : list event) : bool :=
  match evs with
  | [] => true
  | e :: evs' =>
      if receives Tick b e then seen && waits a b seen evs'
      else waits a b (seen || answers a true e) evs'
  end.

(** The store without its record of calls. *)
Definition erase (s : store) : store := set_calls [] s.

(** ** The combinators in the spec's words *)

(** Ask every widget of the list for [isDone()], first to last, whatever
    the earlier answers were. *)
Fixpoint queryAll (widgets : list obj) : M (list bool) :=
  match widgets with
  | [] => ret []
  | widget :: rest =>
      d <- isDone widget ;; ds <- queryAll rest ;; ret (d :: ds)
  end.

(** Tick every widget of the list, first to last, done or not; a call that
    throws ends the round. *)
Fixpoint tickAll (widgets : list obj) : M unit :=
  match widgets with
  | [] => ret tt
  | widget :: rest =>
      fun s => match tick widget s with
               | (Ok _, s1) => tickAll rest s1
               | (Throw e, s1) => (Throw e, s1)
               end
  end.

(** The skip-ahead loop in the spec's words: ask the widgets from the
    cursor on, in turn; each one that is done moves the cursor on by one;
    stop at the first that is not done. *)
Fixpoint skipAhead (that : nat) (widgets : list obj) : M unit :=
  match widgets with
  | [] => ret tt
  | widget :: rest =>
      d <- isDone widget ;;
      if d then
        modify (fun s =>
          set_position (<[that := readN (position s) that + 1]> (position s)) s) ;;
        skipAhead that rest
      else ret tt
  end.

(** ** Shapes of widgets *)

(** No [Sequence] anywhere in the widget. *)
Fixpoint sequenceFree (o : obj) : bool :=
  match o with
  | ObjStatic _ _ | ObjAsciiAnimation _ _ _ _ => true
  | ObjRepeatIndefinitely _ widget | ObjRepeat _ widget
  | ObjWithPadding _ _ widget _ => sequenceFree widget
  | ObjHorizontal _ _ widgets => forallb sequenceFree widgets
  | ObjSequence _ _ _ => false
  | ObjChangingPosition _ _ parent _ _ => sequenceFree parent
  end.

(** The nodes that the [ChangingPosition] objects of a widget move. *)
Fixpoint movers (o : obj) : list nat :=
  match o with
  | ObjStatic _ _ | ObjAsciiAnimation _ _ _ _ => []
  | ObjRepeatIndefinitely _ widget | ObjRepeat _ widget
  | ObjWithPadding _ _ widget _ => movers widget
  | ObjHorizontal _ _ widgets | ObjSequence _ _ widgets => flat_map movers widgets
  | ObjChangingPosition _ span parent _ _ => span :: movers parent
  end.

Definition isAsciiAnimation (o : obj) : bool :=
  match o with ObjAsciiAnimation _ _ _ _ => true | _ => false end.

(** [sprites.length] of an [AsciiAnimation]. *)
Definition spriteCount (o : obj) : nat :=
  match o with ObjAsciiAnimation _ _ _ sprites => length sprites | _ => 0 end.

(** ** Widgets to run the program on *)

(** The example of the source file: [stickman] and [current]. *)
Definition stickman : list (list string) :=
  [[" o "; "-|-"; "/ \"];
   ["o  "; "|- "; "|\ "];
   [" o "; "-|-"; "/ \"];
   ["  o"; " -|"; " /|"]]%string.

Definition current : M obj :=
  man <- AsciiAnimation stickman ;;
  r <- Repeat man 5 ;;
  t <- Textbox ":-)" ;;
  c <- ChangingPosition t 10
         (fun time => (Z.of_nat time * 5, Z.of_nat time * 10)%Z) ;;
  Horizontal [r; c].

Definition ab : list (list string) := [["a"%string]; ["b"%string]].

Definition three : list (list string) :=
  [["a"%string]; ["b"%string]; ["c"%string]].

(** [Repeat(AsciiAnimation(three), 2)], as constructed. *)
Definition three_twice : store :=
  snd ((w <- AsciiAnimation three ;; Repeat w 2) empty_store).

(** An animation of one sprite, ticked once: it is done. *)
Definition one_sprite_done : store :=
  snd ((w <- AsciiAnimation [["a"%string]] ;; tick w) empty_store).

(** A finished [Sequence] beside an animation of two sprites. *)
Definition beside : M (obj * obj) :=
  t <- Textbox "x" ;;
  q <- Sequence [t] ;;
  a <- AsciiAnimation ab ;;
  h <- Horizontal [q; a] ;;
  ret (h, a).

(** [Sequence([a, t])] for an animation [a] of two sprites and a text
    box [t], as constructed. *)
Definition two_in_sequence : store :=
  snd ((a <- AsciiAnimation ab ;; t <- Textbox "x" ;; Sequence [a; t]) empty_store).

(** [Sequence([a, b])] for animations [a] of two sprites and [b] of
    three, as constructed. *)
Definition two_animations_in_sequence : store :=
  snd ((a <- AsciiAnimation ab ;; b <- AsciiAnimation three ;; Sequence [a; b])
         empty_store).

(** * Properties *)

(** The example of the source file runs for 21 timeouts: five runs of the
    four sprites and one more tick; the text box has long reached its last
    offset, 50px from the left and 100px from the top. *)
Example current_runs :
  match current empty_store with
  | (Ok h, s) =>
      fst (ticker 20 h s) = Ok Scheduled /\
      fst (ticker 21 h s) = Ok Finished /\
      offset (snd (ticker 21 h s)) !! 8 = Some (50, 100)%Z
  | _ => False
  end.
Proof. vm_compute. repeat split. Qed.

(** ** Running computations *)

Lemma bind_Ok {A B} (c : M A) (k : A -> M B) s a s1 :
  c s = (Ok a, s1) -> bind c k s = k a s1.
Proof. intros H. unfold bind. now rewrite H. Qed.

Lemma bind_Throw {A B} (c : M A) (k : A -> M B) s e s1 :
  c s = (Throw e, s1) -> bind c k s = (Throw e, s1).
Proof. intros H. unfold bind. now rewrite H. Qed.

Lemma store_eta s :
  Store (nextId s) (animationFrame s) (times s) (position s) (time s)
        (innerHTML s) (offset s) (childNodes s) (calls s) = s.
Proof. now destruct s. Qed.

(** ** AsciiAnimation *)

Lemma each_line pre lines : forall s h,
  innerHTML s !! pre = Some h ->
  each (fun line =>
          modify (fun s =>
            set_innerHTML
              (<[pre := (readS (innerHTML s) pre +:+ line +:+ newline)%string]>
                 (innerHTML s)) s)) lines s
  = (Ok tt,
     set_innerHTML
       (<[pre := fold_left (fun h line => (h +:+ line +:+ newline)%string) lines h]>
          (innerHTML s)) s).
Proof.
  induction lines as [|line lines IH]; intros s h Hh; cbn [each fold_left].
  - unfold ret, set_innerHTML. rewrite insert_id by exact Hh. now rewrite store_eta.
  - erewrite bind_Ok by reflexivity.
    rewrite (IH _ (h +:+ line +:+ newline)%string).
    + unfold set_innerHTML.
      cbn [innerHTML nextId animationFrame times position time offset
           childNodes calls].
      now rewrite insert_insert_eq.
    + cbn [set_innerHTML innerHTML]. unfold readS. rewrite Hh. apply lookup_insert_eq.
Qed.

Lemma useSprite_Some pre sprites i lines s :
  sprites !! i = Some lines ->
  useSprite pre sprites i s
  = (Ok tt, set_innerHTML (<[pre := render lines]> (innerHTML s)) s).
Proof.
  intros Hi. unfold useSprite. erewrite bind_Ok by reflexivity.
  rewrite Hi. erewrite each_line by (simpl; apply lookup_insert_eq).
  unfold set_innerHTML; simpl. now rewrite insert_insert_eq.
Qed.

Lemma readN_insert_eq (m : gmap nat nat) k v : readN (<[k:=v]> m) k = v.
Proof. unfold readN. now rewrite lookup_insert_eq. Qed.

Lemma readZ_insert_eq (m : gmap nat Z) k v : readZ (<[k:=v]> m) k = v.
Proof. unfold readZ. now rewrite lookup_insert_eq. Qed.

Lemma readZ_insert_ne (m : gmap nat Z) k k' v :
  k <> k' -> readZ (<[k:=v]> m) k' = readZ m k'.
Proof. intros H. unfold readZ. now rewrite lookup_insert_ne. Qed.

(** Unfolds the monad down to the store. *)
Ltac run :=
  cbv [bind ret throw gets modify log answer];
  cbn [fst snd nextId animationFrame times position time innerHTML offset
       childNodes calls set_nextId set_animationFrame set_times set_position
       set_time set_innerHTML set_offset set_childNodes set_calls].

(** [tick] of an [AsciiAnimation], whoever the receiver. *)
Lemma tick_ascii that span pre sprites this s :
  tickFn (ObjAsciiAnimation that span pre sprites) this s =
  let frame := readN (animationFrame s) that + 1 in
  let s1 := set_animationFrame (<[that := frame]> (animationFrame s))
              (set_calls (calls s ++ [Call Tick that (oid this)]) s) in
  match sprites !! frame with
  | Some lines => (Ok tt, set_innerHTML (<[pre := render lines]> (innerHTML s)) s1)
  | None => (Ok tt, s1)
  end.
Proof.
  cbn [tickFn]. run. rewrite readN_insert_eq.
  destruct (sprites !! (readN (animationFrame s) that + 1)) as [lines|] eqn:E.
  - apply lookup_lt_Some in E as Hlt.
    apply Nat.ltb_lt in Hlt. rewrite Hlt.
    now erewrite useSprite_Some by exact E.
  - apply lookup_ge_None in E.
    apply Nat.ltb_ge in E. now rewrite E.
Qed.

Lemma isDone_ascii that span pre sprites this s :
  isDoneFn (ObjAsciiAnimation that span pre sprites) this s =
  let d := length sprites <=? readN (animationFrame s) that in
  (Ok d, set_calls (calls s ++ [Call IsDone that (oid this); Ret (oid this) d]) s).
Proof.
  cbn [isDoneFn]. run. unfold set_calls. cbn. now rewrite <- app_assoc.
Qed.

Lemma reset_ascii that span pre sprites this s :
  resetFn (ObjAsciiAnimation that span pre sprites) this s =
  (Ok tt, set_animationFrame (<[that := 0]> (animationFrame s))
            (set_calls (calls s ++ [Call Reset that (oid this)]) s)).
Proof. reflexivity. Qed.

(** C3, on the code: after [AsciiAnimation([["a"],["b"]])], one [tick()]
    and then [reset()], the frame index is 0 again but the node still
    shows frame 1, whereas a freshly constructed animation shows frame 0:
    [reset] sets [animationFrame] and does not call [useSprite(0)]. *)
Lemma reset_leaves_frame_displayed :
  let sprites := [["a"%string]; ["b"%string]] in
  match AsciiAnimation sprites empty_store with
  | (Ok w, s0) =>
      let s := snd ((tick w ;; reset w) s0) in
      frameIndex w s0 = 0 /\ displayed w s0 = render ["a"%string] /\
      frameIndex w s = 0 /\ displayed w s = render ["b"%string] /\
      displayed w s <> displayed w s0
  | _ => False
  end.
Proof. vm_compute. repeat split; congruence. Qed.

(** [reset] of any [AsciiAnimation], in any state: the text of every node
    is what it was. *)
Lemma reset_ascii_innerHTML that span pre sprites this s :
  innerHTML (snd (resetFn (ObjAsciiAnimation that span pre sprites) this s))
  = innerHTML s.
Proof. now rewrite reset_ascii. Qed.

(** C9: once an [AsciiAnimation] is done (frame index at or beyond the
    number of sprites), a further [tick()] returns normally, leaves every
    node's text, offset and children as they were, and [isDone()] still
    answers true.  (The frame index itself goes up by one.) *)
Theorem tick_when_done that span pre sprites s :
  length sprites <= readN (animationFrame s) that ->
  let w := ObjAsciiAnimation that span pre sprites in
  fst (tick w s) = Ok tt /\
  innerHTML (snd (tick w s)) = innerHTML s /\
  offset (snd (tick w s)) = offset s /\
  childNodes (snd (tick w s)) = childNodes s /\
  readN (animationFrame (snd (tick w s))) that = readN (animationFrame s) that + 1 /\
  fst (isDone w (snd (tick w s))) = Ok true.
Proof.
  intros Hdone w. unfold tick, isDone, w.
  rewrite tick_ascii. cbv zeta.
  rewrite (proj2 (lookup_ge_None sprites _)) by lia.
  rewrite isDone_ascii. cbn. rewrite readN_insert_eq.
  repeat split; try reflexivity.
  f_equal. apply Nat.leb_le. lia.
Qed.

Lemma tick_when_done_witness :
  let w := ObjAsciiAnimation 1 2 3 [["a"%string]] in
  let s := one_sprite_done in
  length [["a"%string]] <= readN (animationFrame s) 1 /\
  fst (tick w s) = Ok tt /\
  innerHTML (snd (tick w s)) = innerHTML s /\
  fst (isDone w (snd (tick w s))) = Ok true.
Proof.
  assert (H : length [["a"%string]] <= readN (animationFrame one_sprite_done) 1).
  { vm_compute. lia. }
  split; [exact H|].
  pose proof (tick_when_done 1 2 3 [["a"%string]] one_sprite_done H) as T.
  cbv zeta in T. repeat split; apply T.
Defined.

(** ** Induction on objects *)

Section obj_induction.
Variable P : obj -> Prop.
Hypothesis HStatic : forall that el, P (ObjStatic that el).
Hypothesis HAscii : forall that span pre sprites,
  P (ObjAsciiAnimation that span pre sprites).
Hypothesis HRepeatIndefinitely : forall that widget,
  P widget -> P (ObjRepeatIndefinitely that widget).
Hypothesis HRepeat : forall that widget, P widget -> P (ObjRepeat that widget).
Hypothesis HHorizontal : forall that span widgets,
  Forall P widgets -> P (ObjHorizontal that span widgets).
Hypothesis HWithPadding : forall that span widget width,
  P widget -> P (ObjWithPadding that span widget width).
Hypothesis HSequence : forall that span widgets,
  Forall P widgets -> P (ObjSequence that span widgets).
Hypothesis HChangingPosition : forall that span parent maxTime atTime,
  P parent -> P (ObjChangingPosition that span parent maxTime atTime).

Fixpoint obj_induction (o : obj) : P o :=
  let all :=
    fix all (l : list obj) : Forall P l :=
      match l with
      | [] => List.Forall_nil P
      | x :: l' => List.Forall_cons P x l' (obj_induction x) (all l')
      end in
  match o with
  | ObjStatic that el => HStatic that el
  | ObjAsciiAnimation that span pre sprites => HAscii that span pre sprites
  | ObjRepeatIndefinitely that widget =>
      HRepeatIndefinitely that widget (obj_induction widget)
  | ObjRepeat that widget => HRepeat that widget (obj_induction widget)
  | ObjHorizontal that span widgets => HHorizontal that span widgets (all widgets)
  | ObjWithPadding that span widget width =>
      HWithPadding that span widget width (obj_induction widget)
  | ObjSequence that span widgets => HSequence that span widgets (all widgets)
  | ObjChangingPosition that span parent maxTime atTime =>
      HChangingPosition that span parent maxTime atTime (obj_induction parent)
  end.
End obj_induction.

Lemma oid_ids o : In (oid o) (ids o).
Proof. destruct o; simpl; auto. Qed.

(** ** Relations that every step of a computation preserves *)

Section Preserves.
Variable R : store -> store -> Prop.
Hypothesis R_refl : forall s, R s s.
Hypothesis R_trans : forall s1 s2 s3, R s1 s2 -> R s2 s3 -> R s1 s3.

Definition preserves {A} (c : M A) : Prop := forall s, R s (snd (c s)).

Lemma preserves_ret {A} (a : A) : preserves (ret a).
Proof. intros s. apply R_refl. Qed.

Lemma preserves_throw {A} e : preserves (@throw A e).
Proof. intros s. apply R_refl. Qed.

Lemma preserves_gets {A} (f : store -> A) : preserves (gets f).
Proof. intros s. apply R_refl. Qed.

Lemma preserves_bind {A B} (c : M A) (k : A -> M B) :
  preserves c -> (forall a, preserves (k a)) -> preserves (bind c k).
Proof.
  intros Hc Hk s. unfold bind. specialize (Hc s).
  destruct (c s) as [[a|e] s1]; simpl in *; [|exact Hc].
  eapply R_trans; [exact Hc | apply Hk].
Qed.

Lemma preserves_each {A} (f : A -> M unit) (l : list A) :
  Forall (fun x => preserves (f x)) l -> preserves (each f l).
Proof.
  induction 1; simpl; [apply preserves_ret|].
  apply preserves_bind; auto.
Qed.

Lemma preserves_reduce {A B} (f : A -> B -> M B) (l : list A) :
  Forall (fun x => forall b, preserves (f x b)) l ->
  forall acc, preserves (reduce f acc l).
Proof.
  induction 1; intros acc; simpl; [apply preserves_ret|].
  apply preserves_bind; auto.
Qed.

Lemma preserves_while fuel (cond : M bool) (body : M unit) :
  preserves cond -> preserves body -> preserves (while fuel cond body).
Proof.
  intros Hc Hb. induction fuel; simpl; [apply preserves_ret|].
  apply preserves_bind; [exact Hc|]. intros [|]; [|apply preserves_ret].
  apply preserves_bind; auto.
Qed.

Lemma preserves_lookup {A} (l : list (M A)) i :
  Forall preserves l ->
  preserves (match l !! i with Some c => c | None => throw TypeError end).
Proof.
  intros Hl. destruct (l !! i) as [c|] eqn:E; [|apply preserves_throw].
  eapply Forall_lookup_1; eauto.
Qed.

(** *** The methods *)

(** [Touch k]: a step may write the variables keyed by [k] and record
    calls whose receiver is [k]. *)
Variable Touch : nat -> Prop.

Hypothesis R_log : forall e s,
  Touch (receiver e) -> R s (set_calls (calls s ++ [e]) s).
Hypothesis R_animationFrame : forall k v s,
  Touch k -> R s (set_animationFrame (<[k := v]> (animationFrame s)) s).
Hypothesis R_position : forall k v s,
  Touch k -> R s (set_position (<[k := v]> (position s)) s).
Hypothesis R_times : forall k s,
  Touch k ->
  R s (set_times (<[k := (readZ (times s) k - 1)%Z]> (times s)) s).
Hypothesis R_time : forall k s,
  Touch k -> R s (set_time (<[k := readN (time s) k + 1]> (time s)) s).
Hypothesis R_innerHTML : forall k v s,
  R s (set_innerHTML (<[k := v]> (innerHTML s)) s).
Hypothesis R_offset : forall k v s,
  R s (set_offset (<[k := v]> (offset s)) s).

Definition touches (o : obj) : Prop := forall k, In k (ids o) -> Touch k.

Lemma touches_oid o : touches o -> Touch (oid o).
Proof. intros H. apply H, oid_ids. Qed.

Lemma touches_list that (widgets : list obj) :
  (forall k, In k (that :: flat_map ids widgets) -> Touch k) ->
  Forall touches widgets.
Proof.
  intros H. apply Forall_forall. intros w Hw k Hk.
  apply H. right. apply in_flat_map. exists w. split; [|exact Hk].
  now apply list_elem_of_In.
Qed.

Lemma preserves_log e : Touch (receiver e) -> preserves (log e).
Proof. intros H s. now apply R_log. Qed.

Lemma preserves_answer this b : Touch (oid this) -> preserves (answer this b).
Proof.
  intros H. apply preserves_bind; [now apply preserves_log|].
  intros _. apply preserves_ret.
Qed.

Lemma preserves_reset o : forall this,
  touches o -> Touch (oid this) -> preserves (resetFn o this).
Proof.
  induction o as [that el|that span pre sprites|that w IH|that w IH
                 |that span ws IH|that span w width IH|that span ws IH
                 |that span parent maxTime atTime IH] using obj_induction;
    intros this Ho Ht; cbn [resetFn].
  - now apply preserves_log.
  - apply preserves_bind; [now apply preserves_log|]. intros _ s.
    apply R_animationFrame. apply Ho. now left.
  - apply IH; [|exact Ht]. intros k Hk. apply Ho. now right.
  - apply IH; [|exact Ht]. intros k Hk. apply Ho. now right.
  - apply preserves_bind; [now apply preserves_log|]. intros _.
    apply preserves_each. apply touches_list in Ho.
    rewrite Forall_forall in *. intros w Hw.
    apply IH; auto. now apply touches_oid, Ho.
  - apply IH; [|exact Ht]. intros k Hk. apply Ho. now right.
  - apply preserves_bind; [now apply preserves_log|]. intros _.
    apply preserves_bind.
    + apply preserves_each. apply touches_list in Ho.
      rewrite Forall_forall in *. intros w Hw.
      apply IH; auto. now apply touches_oid, Ho.
    + intros _ s. apply R_position. apply Ho. now left.
  - apply IH; [|exact Ht]. intros k Hk. apply Ho. now right.
Qed.

Lemma preserves_isDone o : forall this,
  touches o -> Touch (oid this) -> preserves (isDoneFn o this).
Proof.
  induction o as [that el|that span pre sprites|that w IH|that w IH
                 |that span ws IH|that span w width IH|that span ws IH
                 |that span parent maxTime atTime IH] using obj_induction;
    intros this Ho Ht; cbn [isDoneFn].
  - apply preserves_bind; [now apply preserves_log|]. intros _.
    now apply preserves_answer.
  - apply preserves_bind; [now apply preserves_log|]. intros _.
    apply preserves_bind; [apply preserves_gets|]. intros frame.
    now apply preserves_answer.
  - assert (Hw : touches w) by (intros k Hk; apply Ho; now right).
    apply preserves_bind; [now apply preserves_log|]. intros _.
    apply preserves_bind; [apply IH; auto using touches_oid|]. intros d.
    apply preserves_bind; [|intros _; now apply preserves_answer].
    destruct d; [|apply preserves_ret].
    apply preserves_reset; auto using touches_oid.
  - assert (Hw : touches w) by (intros k Hk; apply Ho; now right).
    apply preserves_bind; [now apply preserves_log|]. intros _.
    apply preserves_bind; [apply preserves_gets|]. intros n.
    destruct (n <=? 0)%Z; [now apply preserves_answer|].
    apply preserves_bind; [apply IH; auto using touches_oid|]. intros d.
    apply preserves_bind; [|intros _; now apply preserves_answer].
    destruct d; [|apply preserves_ret].
    apply preserves_bind.
    + intros s. apply R_times. apply Ho. now left.
    + intros _. apply preserves_reset; auto using touches_oid.
  - apply preserves_bind; [now apply preserves_log|]. intros _.
    apply preserves_bind; [|intros b; now apply preserves_answer].
    apply preserves_reduce. apply touches_list in Ho.
    rewrite Forall_forall in *. intros w Hw b.
    apply preserves_bind; [|intros d; apply preserves_ret].
    apply IH; auto. now apply touches_oid, Ho.
  - apply IH; [|exact Ht]. intros k Hk. apply Ho. now right.
  - apply preserves_bind; [now apply preserves_log|]. intros _.
    apply preserves_bind.
    + apply preserves_while.
      * apply preserves_bind; [apply preserves_gets|]. intros p.
        destruct (p <? length ws); [|apply preserves_ret].
        apply preserves_lookup. apply Forall_map.
        apply touches_list in Ho. rewrite Forall_forall in *. intros w Hw.
        apply IH; auto. now apply touches_oid, Ho.
      * intros s. apply R_position. apply Ho. now left.
    + intros _. apply preserves_bind; [apply preserves_gets|]. intros p.
      now apply preserves_answer.
  - apply preserves_bind; [now apply preserves_log|]. intros _.
    apply preserves_bind; [apply preserves_gets|]. intros t.
    now apply preserves_answer.
Qed.

Lemma preserves_tick o : forall this,
  touches o -> touches this -> preserves (tickFn o this).
Proof.
  induction o as [that el|that span pre sprites|that w IH|that w IH
                 |that span ws IH|that span w width IH|that span ws IH
                 |that span parent maxTime atTime IH] using obj_induction;
    intros this Ho Ht; cbn [tickFn]; pose proof (touches_oid _ Ht) as Hthis.
  - now apply preserves_log.
  - apply preserves_bind; [now apply preserves_log|]. intros _.
    apply preserves_bind.
    { intros s. apply R_animationFrame. apply Ho. now left. }
    intros _. apply preserves_bind; [apply preserves_gets|]. intros frame.
    destruct (frame <? length sprites); [|apply preserves_ret].
    unfold useSprite. apply preserves_bind.
    { intros s. apply R_innerHTML. }
    intros _. destruct (sprites !! frame); [|apply preserves_throw].
    apply preserves_each. apply Forall_forall. intros line _ s.
    apply R_innerHTML.
  - apply IH; [|exact Ht]. intros k Hk. apply Ho. now right.
  - apply IH; [|exact Ht]. intros k Hk. apply Ho. now right.
  - apply preserves_bind; [now apply preserves_log|]. intros _.
    apply preserves_each. apply touches_list in Ho.
    rewrite Forall_forall in *. intros w Hw. apply IH; auto.
  - apply IH; [|exact Ht]. intros k Hk. apply Ho. now right.
  - apply preserves_bind; [now apply preserves_log|]. intros _.
    apply preserves_bind; [apply preserves_gets|]. intros p.
    apply preserves_lookup. apply Forall_map.
    apply touches_list in Ho. rewrite Forall_forall in *. intros w Hw.
    apply IH; auto.
  - assert (Hp : touches parent) by (intros k Hk; apply Ho; now right).
    apply preserves_bind; [now apply preserves_log|]. intros _.
    apply preserves_bind; [now apply preserves_isDone|]. intros d.
    destruct d; [apply preserves_ret|]. cbn [negb].
    apply preserves_bind.
    { intros s. apply R_time. apply Ho. now left. }
    intros _. apply preserves_bind; [intros s; apply R_offset|].
    intros _. now apply IH.
Qed.
End Preserves.

(** ** Computations that never throw *)

Definition succeeds {A} (c : M A) : Prop := forall s, exists a, fst (c s) = Ok a.

Lemma succeeds_ret {A} (a : A) : succeeds (ret a).
Proof. intros s. now exists a. Qed.

Lemma succeeds_gets {A} (f : store -> A) : succeeds (gets f).
Proof. intros s. now exists (f s). Qed.

Lemma succeeds_modify f : succeeds (modify f).
Proof. intros s. now exists tt. Qed.

Lemma succeeds_bind {A B} (c : M A) (k : A -> M B) :
  succeeds c -> (forall a, succeeds (k a)) -> succeeds (bind c k).
Proof.
  intros Hc Hk s. unfold bind. destruct (Hc s) as [a Ha].
  destruct (c s) as [r s1]. simpl in Ha. subst r. apply Hk.
Qed.

Lemma succeeds_answer this b : succeeds (answer this b).
Proof. intros s. now exists b. Qed.

Lemma succeeds_each {A} (f : A -> M unit) (l : list A) :
  Forall (fun x => succeeds (f x)) l -> succeeds (each f l).
Proof.
  induction 1; simpl; [apply succeeds_ret|]. apply succeeds_bind; auto.
Qed.

Lemma succeeds_reduce {A B} (f : A -> B -> M B) (l : list A) :
  Forall (fun x => forall b, succeeds (f x b)) l ->
  forall acc, succeeds (reduce f acc l).
Proof.
  induction 1; intros acc; simpl; [apply succeeds_ret|].
  apply succeeds_bind; auto.
Qed.

Lemma succeeds_while fuel (cond : M bool) (body : M unit) :
  succeeds cond -> succeeds body -> succeeds (while fuel cond body).
Proof.
  intros Hc Hb. induction fuel; simpl; [apply succeeds_ret|].
  apply succeeds_bind; [exact Hc|]. intros [|]; [|apply succeeds_ret].
  apply succeeds_bind; auto.
Qed.

Lemma reset_succeeds o : forall this, succeeds (resetFn o this).
Proof.
  induction o as [that el|that span pre sprites|that w IH|that w IH
                 |that span ws IH|that span w width IH|that span ws IH
                 |that span parent maxTime atTime IH] using obj_induction;
    intros this; cbn [resetFn]; auto.
  - apply succeeds_modify.
  - apply succeeds_bind; [apply succeeds_modify|]. intros _. apply succeeds_modify.
  - apply succeeds_bind; [apply succeeds_modify|]. intros _.
    apply succeeds_each. eapply Forall_impl; [exact IH|]. auto.
  - apply succeeds_bind; [apply succeeds_modify|]. intros _.
    apply succeeds_bind; [|intros _; apply succeeds_modify].
    apply succeeds_each. eapply Forall_impl; [exact IH|]. auto.
Qed.

Lemma isDone_succeeds o : forall this, succeeds (isDoneFn o this).
Proof.
  induction o as [that el|that span pre sprites|that w IH|that w IH
                 |that span ws IH|that span w width IH|that span ws IH
                 |that span parent maxTime atTime IH] using obj_induction;
    intros this; cbn [isDoneFn]; auto.
  - apply succeeds_bind; [apply succeeds_modify|]. intros _. apply succeeds_answer.
  - apply succeeds_bind; [apply succeeds_modify|]. intros _.
    apply succeeds_bind; [apply succeeds_gets|]. intros f. apply succeeds_answer.
  - apply succeeds_bind; [apply succeeds_modify|]. intros _.
    apply succeeds_bind; [apply IH|]. intros d.
    apply succeeds_bind; [|intros _; apply succeeds_answer].
    destruct d; [apply reset_succeeds|apply succeeds_ret].
  - apply succeeds_bind; [apply succeeds_modify|]. intros _.
    apply succeeds_bind; [apply succeeds_gets|]. intros n.
    destruct (n <=? 0)%Z; [apply succeeds_answer|].
    apply succeeds_bind; [apply IH|]. intros d.
    apply succeeds_bind; [|intros _; apply succeeds_answer].
    destruct d; [|apply succeeds_ret].
    apply succeeds_bind; [apply succeeds_modify|]. intros _. apply reset_succeeds.
  - apply succeeds_bind; [apply succeeds_modify|]. intros _.
    apply succeeds_bind; [|intros b; apply succeeds_answer].
    apply succeeds_reduce. eapply Forall_impl; [exact IH|].
    intros w Hw b. apply succeeds_bind; [apply Hw|]. intros d. apply succeeds_ret.
  - apply succeeds_bind; [apply succeeds_modify|]. intros _.
    apply succeeds_bind.
    + apply succeeds_while; [|apply succeeds_modify].
      apply succeeds_bind; [apply succeeds_gets|]. intros p.
      destruct (p <? length ws) eqn:Hp; [|apply succeeds_ret].
      apply Nat.ltb_lt in Hp.
      destruct (lookup_lt_is_Some_2 ws p Hp) as [w Hw].
      rewrite list_lookup_fmap, Hw. cbn.
      eapply Forall_lookup_1 in IH; [|exact Hw]. apply IH.
    + intros _. apply succeeds_bind; [apply succeeds_gets|]. intros p.
      apply succeeds_answer.
  - apply succeeds_bind; [apply succeeds_modify|]. intros _.
    apply succeeds_bind; [apply succeeds_gets|]. intros t. apply succeeds_answer.
Qed.

(** ** Receivers only show in the record of calls *)

(** Two computations that do the same to the variables and the DOM, and
    may differ in the calls they record. *)
Definition alike {A} (c1 c2 : M A) : Prop :=
  forall s1 s2, erase s1 = erase s2 ->
    fst (c1 s1) = fst (c2 s2) /\ erase (snd (c1 s1)) = erase (snd (c2 s2)).

Lemma alike_ret {A} (a : A) : alike (ret a) (ret a).
Proof. intros s1 s2 H. now split. Qed.

Lemma alike_log e1 e2 : alike (log e1) (log e2).
Proof. intros s1 s2 H. now split. Qed.

Lemma alike_bind {A B} (c1 c2 : M A) (k1 k2 : A -> M B) :
  alike c1 c2 -> (forall a, alike (k1 a) (k2 a)) -> alike (bind c1 k1) (bind c2 k2).
Proof.
  intros Hc Hk s1 s2 H. unfold bind. destruct (Hc s1 s2 H) as [Hr Hs].
  destruct (c1 s1) as [r1 t1], (c2 s2) as [r2 t2]. cbn in Hr, Hs. subst r2.
  destruct r1 as [a|e]; [now apply Hk | now split].
Qed.

Lemma alike_each {A} (f1 f2 : A -> M unit) (l : list A) :
  Forall (fun x => alike (f1 x) (f2 x)) l -> alike (each f1 l) (each f2 l).
Proof.
  induction 1; cbn [each]; [apply alike_ret|]. apply alike_bind; auto.
Qed.

Lemma alike_set_animationFrame k v :
  alike (modify (fun s => set_animationFrame (<[k := v]> (animationFrame s)) s))
        (modify (fun s => set_animationFrame (<[k := v]> (animationFrame s)) s)).
Proof.
  intros s1 s2 H. split; [reflexivity|].
  destruct s1, s2. unfold erase, set_calls in *. cbn in *. congruence.
Qed.

Lemma alike_set_position k v :
  alike (modify (fun s => set_position (<[k := v]> (position s)) s))
        (modify (fun s => set_position (<[k := v]> (position s)) s)).
Proof.
  intros s1 s2 H. split; [reflexivity|].
  destruct s1, s2. unfold erase, set_calls in *. cbn in *. congruence.
Qed.

(** The receiver of [reset] only shows in the record of calls. *)
Lemma reset_receiver o : forall this1 this2,
  alike (resetFn o this1) (resetFn o this2).
Proof.
  induction o as [that el|that span pre sprites|that w IH|that w IH
                 |that span ws IH|that span w width IH|that span ws IH
                 |that span parent maxTime atTime IH] using obj_induction;
    intros this1 this2; cbn [resetFn]; auto.
  - apply alike_log.
  - apply alike_bind; [apply alike_log|]. intros _. apply alike_set_animationFrame.
  - apply alike_bind; [apply alike_log|]. intros _.
    apply alike_each. eapply Forall_impl; [exact IH|]. auto.
  - apply alike_bind; [apply alike_log|]. intros _.
    apply alike_bind; [|intros _; apply alike_set_position].
    apply alike_each. eapply Forall_impl; [exact IH|]. auto.
Qed.

Lemma alike_throw {A} e : alike (@throw A e) (throw e).
Proof. intros s1 s2 H. now split. Qed.

Lemma alike_answer this1 this2 b : alike (answer this1 b) (answer this2 b).
Proof. intros s1 s2 H. now split. Qed.

(** Reading a variable. *)
Lemma alike_gets {A} (f : store -> A) :
  (forall s, f (erase s) = f s) -> alike (gets f) (gets f).
Proof.
  intros Hf s1 s2 H. split; [|exact H].
  cbn. now rewrite <- (Hf s1), <- (Hf s2), H.
Qed.

(** Writing a variable. *)
Lemma alike_modify (f : store -> store) :
  (forall s, erase (f s) = erase (f (erase s))) -> alike (modify f) (modify f).
Proof.
  intros Hf s1 s2 H. split; [reflexivity|].
  cbn. now rewrite (Hf s1), (Hf s2), H.
Qed.

Lemma alike_reduce {A B} (f1 f2 : A -> B -> M B) (l : list A) :
  Forall (fun x => forall b, alike (f1 x b) (f2 x b)) l ->
  forall acc, alike (reduce f1 acc l) (reduce f2 acc l).
Proof.
  induction 1; intros acc; cbn [reduce]; [apply alike_ret|].
  apply alike_bind; auto.
Qed.

Lemma alike_while fuel (c1 c2 : M bool) (b1 b2 : M unit) :
  alike c1 c2 -> alike b1 b2 -> alike (while fuel c1 b1) (while fuel c2 b2).
Proof.
  intros Hc Hb. induction fuel; cbn [while]; [apply alike_ret|].
  apply alike_bind; [exact Hc|]. intros [|]; [|apply alike_ret].
  apply alike_bind; auto.
Qed.

(** The receiver of [isDone] only shows in the record of calls. *)
Lemma isDone_receiver o : forall this1 this2,
  alike (isDoneFn o this1) (isDoneFn o this2).
Proof.
  induction o as [that el|that span pre sprites|that w IH|that w IH
                 |that span ws IH|that span w width IH|that span ws IH
                 |that span parent maxTime atTime IH] using obj_induction;
    intros this1 this2; cbn [isDoneFn]; auto.
  - apply alike_bind; [apply alike_log|]. intros _. apply alike_answer.
  - apply alike_bind; [apply alike_log|]. intros _.
    apply alike_bind; [now apply alike_gets|]. intros f. apply alike_answer.
  - apply alike_bind; [apply alike_log|]. intros _.
    apply alike_bind; [apply IH|]. intros d.
    apply alike_bind; [|intros _; apply alike_answer].
    destruct d; [apply reset_receiver | apply alike_ret].
  - apply alike_bind; [apply alike_log|]. intros _.
    apply alike_bind; [now apply alike_gets|]. intros n.
    destruct (n <=? 0)%Z; [apply alike_answer|].
    apply alike_bind; [apply IH|]. intros d.
    apply alike_bind; [|intros _; apply alike_answer].
    destruct d; [|apply alike_ret].
    apply alike_bind; [now apply alike_modify|]. intros _. apply reset_receiver.
  - apply alike_bind; [apply alike_log|]. intros _.
    apply alike_bind; [|intros b; apply alike_answer].
    apply alike_reduce. eapply Forall_impl; [exact IH|].
    intros w Hw b. apply alike_bind; [apply Hw|]. intros d. apply alike_ret.
  - apply alike_bind; [apply alike_log|]. intros _.
    apply alike_bind.
    + apply alike_while; [|now apply alike_modify].
      apply alike_bind; [now apply alike_gets|]. intros p.
      destruct (p <? length ws); [|apply alike_ret].
      rewrite list_lookup_fmap.
      destruct (ws !! p) as [w|] eqn:Hw; cbn; [|apply alike_throw].
      eapply Forall_lookup_1 in IH; [|exact Hw]. apply IH.
    + intros _. apply alike_bind; [now apply alike_gets|]. intros p.
      apply alike_answer.
  - apply alike_bind; [apply alike_log|]. intros _.
    apply alike_bind; [now apply alike_gets|]. intros t. apply alike_answer.
Qed.


(** ** Repeat *)

(** No step ever raises a [times] counter. *)
Definition times_le (s s' : store) : Prop :=
  forall k, (readZ (times s') k <= readZ (times s) k)%Z.

Lemma times_le_refl s : times_le s s.
Proof. intros k. lia. Qed.

Lemma times_le_trans s1 s2 s3 : times_le s1 s2 -> times_le s2 s3 -> times_le s1 s3.
Proof. intros H1 H2 k. specialize (H1 k). specialize (H2 k). lia. Qed.

Lemma times_le_decrement k s :
  times_le s (set_times (<[k := (readZ (times s) k - 1)%Z]> (times s)) s).
Proof.
  intros k'. cbn. destruct (decide (k = k')) as [->|Hne].
  - rewrite readZ_insert_eq. lia.
  - rewrite readZ_insert_ne by exact Hne. lia.
Qed.

Lemma tick_times_le o this s : times_le s (snd (tickFn o this s)).
Proof.
  apply (preserves_tick times_le times_le_refl times_le_trans (fun _ => True));
    first [ now intros k _
          | intros; apply times_le_decrement
          | intros; intros k'; cbn; lia ].
Qed.

(** [isDone] of a [Repeat] whose counter has run out. *)
Lemma isDone_repeat_exhausted that w this s :
  (readZ (times s) that <= 0)%Z ->
  isDoneFn (ObjRepeat that w) this s =
  (Ok true,
   set_calls (calls s ++ [Call IsDone that (oid this); Ret (oid this) true]) s).
Proof.
  intros H. cbn [isDoneFn]. run.
  apply Z.leb_le in H. rewrite H. unfold set_calls. cbn.
  now rewrite <- app_assoc.
Qed.

(** Once the counter has run out, the scheduler ticks once more, asks, and
    stops. *)
Lemma ticker_repeat_exhausted that w s n :
  (readZ (times s) that <= 0)%Z ->
  let r := ObjRepeat that w in
  ticker (S n) r s = (tick r ;; isDone r ;; ret Finished) s.
Proof.
  intros H r. cbn [ticker]. unfold callback, bind.
  destruct (tick r s) as [[[]|e] s1] eqn:Et; [|reflexivity].
  assert (H1 : (readZ (times s1) that <= 0)%Z).
  { pose proof (tick_times_le r r s that) as Hle.
    unfold tick in Et. rewrite Et in Hle. cbn in Hle. lia. }
  unfold isDone, r. rewrite (isDone_repeat_exhausted _ _ _ _ H1). reflexivity.
Qed.

(** C2, as the code has it: [Repeat(w, 0).isDone()] answers true at the
    first query, and does nothing to [w]; [Repeat(w, 0).tick()] is [w]'s
    own [tick] function, run with the [Repeat] object as receiver; and the
    scheduler fires exactly one timeout, which makes that call once, asks
    [isDone()] and stops. *)
Theorem repeat_zero w s0 r s n :
  Repeat w 0 s0 = (Ok r, s) ->
  isDone r s =
    (Ok true,
     set_calls (calls s ++ [Call IsDone (oid r) (oid r); Ret (oid r) true]) s) /\
  tick r = tickFn w r /\
  ticker (S n) r s = (tickFn w r ;; isDone r ;; ret Finished) s.
Proof.
  intros H. unfold Repeat in H. revert H. run. intros H.
  injection H as Hr Hs. subst r s.
  assert (H0 : (readZ (times (set_times (<[nextId s0 := 0%Z]> (times s0))
                                 (set_nextId (S (nextId s0)) s0))) (nextId s0)
                <= 0)%Z).
  { cbn. rewrite readZ_insert_eq. lia. }
  split; [|split].
  - unfold isDone. now rewrite isDone_repeat_exhausted.
  - reflexivity.
  - now rewrite ticker_repeat_exhausted.
Qed.

Lemma repeat_zero_witness :
  let w := ObjAsciiAnimation 1 2 3 ab in
  let s0 := snd (AsciiAnimation ab empty_store) in
  let r := ObjRepeat 4 w in
  let s := snd (Repeat w 0 s0) in
  Repeat w 0 s0 = (Ok r, s) /\
  tick r = tickFn w r /\
  ticker 3 r s = (tickFn w r ;; isDone r ;; ret Finished) s.
Proof.
  intros w s0 r s.
  assert (H : Repeat w 0 s0 = (Ok r, s)) by reflexivity.
  split; [exact H|]. apply (repeat_zero w s0 r s 2 H).
Defined.

(** C2, as stated, fails: drive [Repeat(w, 0)] with the scheduler, for [w]
    an animation of two sprites.  The one timeout that fires runs [w]'s
    tick function, the frame index of [w] moves to 1 and [w] shows its
    second sprite. *)
Lemma zero_repeat_ticks_widget :
  match (w <- AsciiAnimation ab ;; r <- Repeat w 0 ;;
         animation 5 r ;; ret w) empty_store with
  | (Ok w, s) =>
      ~ count (runs Tick (oid w)) (calls s) = 0 /\
      count (runs Tick (oid w)) (calls s) = 1 /\
      frameIndex w s = 1 /\ displayed w s = render ["b"%string]
  | _ => False
  end.
Proof. vm_compute. repeat split; congruence. Qed.

(** *** An [AsciiAnimation] under [Repeat] *)

(** One timeout of the scheduler on [Repeat(AsciiAnimation(sprites), _)]:
    the tick moves the frame index on; while the counter is positive the
    answer is false, and a frame index at or beyond the number of sprites
    takes one off the counter and goes back to 0. *)
Lemma callback_repeat_ascii that a span pre sprites s :
  let r := ObjRepeat that (ObjAsciiAnimation a span pre sprites) in
  let frame := readN (animationFrame s) a + 1 in
  let n := readZ (times s) that in
  exists s',
    callback r s = (Ok (0 <? n)%Z, s') /\
    readN (animationFrame s') a =
      (if (0 <? n)%Z && (length sprites <=? frame) then 0 else frame) /\
    readZ (times s') that =
      (if (0 <? n)%Z && (length sprites <=? frame) then (n - 1)%Z else n).
Proof.
  intros r frame n. unfold callback, tick, isDone, r.
  change (tickFn (ObjRepeat that (ObjAsciiAnimation a span pre sprites)))
    with (tickFn (ObjAsciiAnimation a span pre sprites)).
  unfold bind at 1. rewrite tick_ascii. cbv zeta. fold frame.
  set (s1 := set_animationFrame _ _).
  assert (Hf : forall h, readN (animationFrame (set_innerHTML h s1)) a = frame).
  { intros h. cbn. apply readN_insert_eq. }
  assert (Hf1 : readN (animationFrame s1) a = frame) by (cbn; apply readN_insert_eq).
  assert (Key : forall s2, readN (animationFrame s2) a = frame ->
            times s2 = times s ->
            exists s',
              (d <- isDoneFn (ObjRepeat that (ObjAsciiAnimation a span pre sprites))
                     (ObjRepeat that (ObjAsciiAnimation a span pre sprites)) ;;
               ret (negb d)) s2 = (Ok (0 <? n)%Z, s') /\
              readN (animationFrame s') a =
                (if (0 <? n)%Z && (length sprites <=? frame) then 0 else frame) /\
              readZ (times s') that =
                (if (0 <? n)%Z && (length sprites <=? frame) then (n - 1)%Z else n)).
  { intros s2 Hfr Ht. cbn [isDoneFn resetFn oid]. run. rewrite Ht. fold n.
    destruct (n <=? 0)%Z eqn:Hn.
    - assert (H0 : (0 <? n)%Z = false) by lia. rewrite H0. cbn.
      eexists. split; [reflexivity|]. cbn. rewrite Hfr, Ht. now split.
    - assert (H0 : (0 <? n)%Z = true) by lia. rewrite H0. cbn [andb negb].
      run. rewrite Hfr.
      destruct (length sprites <=? frame) eqn:Hd.
      + run. eexists. split; [reflexivity|]. cbn.
        rewrite readN_insert_eq, readZ_insert_eq, Ht. now split.
      + run. eexists. split; [reflexivity|]. cbn. rewrite Hfr, Ht. now split. }
  destruct (sprites !! frame) as [lines|].
  - apply Key; [apply Hf | reflexivity].
  - apply Key; [apply Hf1 | reflexivity].
Qed.

Lemma ticker_again k o s s1 :
  callback o s = (Ok true, s1) -> ticker (S k) o s = ticker k o s1.
Proof. intros H. cbn [ticker]. unfold bind. now rewrite H. Qed.

Lemma ticker_done k o s s1 :
  callback o s = (Ok false, s1) -> ticker (S k) o s = (Ok Finished, s1).
Proof. intros H. cbn [ticker]. unfold bind. now rewrite H. Qed.

(** A scheduler that has stopped stays stopped. *)
Lemma ticker_stopped m : forall o s k,
  fst (ticker m o s) <> Ok Scheduled -> ticker (m + k) o s = ticker m o s.
Proof.
  induction m as [|m IH]; intros o s k H.
  - now contradiction H.
  - cbn [ticker Nat.add] in *. unfold bind in *.
    destruct (callback o s) as [[[|]|e] s1]; try reflexivity.
    now apply IH.
Qed.

Lemma ticker_scheduled_before n o s m :
  fst (ticker n o s) = Ok Scheduled -> m <= n -> fst (ticker m o s) = Ok Scheduled.
Proof.
  intros Hn Hm.
  destruct (fst (ticker m o s)) as [[]|e] eqn:E; try reflexivity.
  - rewrite <- (ticker_stopped m o s (n - m)) in E by (rewrite E; discriminate).
    replace (m + (n - m)) with n in E by lia. congruence.
  - rewrite <- (ticker_stopped m o s (n - m)) in E by (rewrite E; discriminate).
    replace (m + (n - m)) with n in E by lia. congruence.
Qed.

Section RepeatAscii.
Variables (that a span pre : nat) (sprites : list (list string)).
Let w := ObjAsciiAnimation a span pre sprites.
Let r := ObjRepeat that w.

(** From frame index [f], with the counter positive, the [j] timeouts
    that take the index to [length sprites] end one run: the index is 0
    again and the counter is one less. *)
Lemma one_run j : forall s,
  (0 < readZ (times s) that)%Z ->
  readN (animationFrame s) a + j = length sprites -> 1 <= j ->
  exists s',
    (forall m, ticker (j + m) r s = ticker m r s') /\
    readN (animationFrame s') a = 0 /\
    readZ (times s') that = (readZ (times s) that - 1)%Z.
Proof.
  induction j as [|j IH]; intros s Ht Hf Hj; [lia|].
  destruct (callback_repeat_ascii that a span pre sprites s)
    as (s1 & Ec & Hf1 & Ht1).
  fold w r in Ec.
  assert (Hpos : (0 <? readZ (times s) that)%Z = true) by lia.
  rewrite Hpos in Ec, Hf1, Ht1. cbn [andb] in Hf1, Ht1.
  destruct (length sprites <=? readN (animationFrame s) a + 1) eqn:Hd.
  - apply Nat.leb_le in Hd. assert (j = 0) by lia. subst j.
    exists s1. split; [|now split].
    intros m. cbn [Nat.add]. now apply ticker_again.
  - apply Nat.leb_gt in Hd.
    destruct (IH s1) as (s' & Hrun & Hf' & Ht'); try lia.
    exists s'. split; [|split; [exact Hf'|lia]].
    intros m. cbn [Nat.add]. rewrite (ticker_again _ _ _ _ Ec). apply Hrun.
Qed.

Lemma all_runs n : forall s,
  readN (animationFrame s) a = 0 ->
  readZ (times s) that = Z.of_nat n ->
  1 <= length sprites ->
  exists s',
    (forall m, ticker (n * length sprites + m) r s = ticker m r s') /\
    readN (animationFrame s') a = 0 /\
    readZ (times s') that = 0%Z.
Proof.
  induction n as [|n IH]; intros s Hf Ht HL.
  - exists s. now repeat split.
  - destruct (one_run (length sprites) s) as (s1 & Hrun & Hf1 & Ht1); try lia.
    destruct (IH s1) as (s' & Hruns & Hf' & Ht'); try lia.
    exists s'. split; [|now split].
    intros m. cbn [Nat.mul]. rewrite <- Nat.add_assoc, Hrun. apply Hruns.
Qed.

(** [Repeat(AsciiAnimation(sprites), n)] under the scheduler: [n] runs
    of [length sprites] timeouts each, and one more timeout. *)
Lemma repeat_ascii_timeouts n s :
  readN (animationFrame s) a = 0 ->
  readZ (times s) that = Z.of_nat n ->
  1 <= length sprites ->
  (forall m, m <= n * length sprites -> fst (ticker m r s) = Ok Scheduled) /\
  fst (ticker (n * length sprites + 1) r s) = Ok Finished.
Proof.
  intros Hf Ht HL.
  destruct (all_runs n s Hf Ht HL) as (s' & Hruns & Hf' & Ht').
  destruct (callback_repeat_ascii that a span pre sprites s')
    as (s1 & Ec & _ & _).
  fold w r in Ec. rewrite Ht' in Ec. cbn in Ec.
  split.
  - intros m Hm. apply (ticker_scheduled_before (n * length sprites)); [|exact Hm].
    specialize (Hruns 0). rewrite Nat.add_0_r in Hruns. now rewrite Hruns.
  - rewrite Hruns. now rewrite (ticker_done _ _ _ _ Ec).
Qed.
End RepeatAscii.

(** C1, as the code has it: an animation of three sprites under
    [Repeat(_, 2)], driven by the scheduler from its initial state.  The
    scheduler is still running after each of the first 6 timeouts and
    stops at the 7th: 7 ticks, not 6.  The frame index left by the
    successive timeouts is 1, 2, 0, 1, 2, 0, 1: the third and the sixth
    tick take it to 3, where [isDone()] of the [Repeat] sets it back to 0
    and answers false; the seventh tick moves it to 1 before [isDone()]
    answers true. *)
Theorem repeat_twice_three_sprites that a span pre sprites s :
  let r := ObjRepeat that (ObjAsciiAnimation a span pre sprites) in
  length sprites = 3 ->
  readN (animationFrame s) a = 0 ->
  readZ (times s) that = 2%Z ->
  (forall m, m <= 6 -> fst (ticker m r s) = Ok Scheduled) /\
  fst (ticker 7 r s) = Ok Finished /\
  framesAfter 7 r a s = [1; 2; 0; 1; 2; 0; 1].
Proof.
  intros r HL Hf Ht.
  destruct (repeat_ascii_timeouts that a span pre sprites 2 s Hf Ht) as [Hs Hd];
    [lia|]. rewrite HL in Hs, Hd.
  split; [exact Hs|]. split; [exact Hd|].
  pose proof (callback_repeat_ascii that a span pre sprites) as step.
  cbv zeta in step. fold r in step. rewrite HL in step.
  destruct (step s) as (s1 & E1 & F1 & T1). rewrite Hf, Ht in *. cbn in E1, F1, T1.
  destruct (step s1) as (s2 & E2 & F2 & T2). rewrite F1, T1 in *. cbn in E2, F2, T2.
  destruct (step s2) as (s3 & E3 & F3 & T3). rewrite F2, T2 in *. cbn in E3, F3, T3.
  destruct (step s3) as (s4 & E4 & F4 & T4). rewrite F3, T3 in *. cbn in E4, F4, T4.
  destruct (step s4) as (s5 & E5 & F5 & T5). rewrite F4, T4 in *. cbn in E5, F5, T5.
  destruct (step s5) as (s6 & E6 & F6 & T6). rewrite F5, T5 in *. cbn in E6, F6, T6.
  destruct (step s6) as (s7 & E7 & F7 & T7). rewrite F6, T6 in *. cbn in E7, F7, T7.
  unfold framesAfter. cbn [map seq].
  rewrite !(ticker_again _ _ _ _ E1), !(ticker_again _ _ _ _ E2),
    !(ticker_again _ _ _ _ E3), !(ticker_again _ _ _ _ E4),
    !(ticker_again _ _ _ _ E5), !(ticker_again _ _ _ _ E6),
    (ticker_done _ _ _ _ E7).
  cbn [ticker ret snd]. now rewrite F1, F2, F3, F4, F5, F6, F7.
Qed.

Lemma repeat_twice_three_sprites_witness :
  let r := ObjRepeat 4 (ObjAsciiAnimation 1 2 3 three) in
  length three = 3 /\
  readN (animationFrame three_twice) 1 = 0 /\
  readZ (times three_twice) 4 = 2%Z /\
  fst (ticker 7 r three_twice) = Ok Finished /\
  framesAfter 7 r 1 three_twice = [1; 2; 0; 1; 2; 0; 1].
Proof.
  intros r.
  assert (HL : length three = 3) by reflexivity.
  assert (Hf : readN (animationFrame three_twice) 1 = 0) by (vm_compute; reflexivity).
  assert (Ht : readZ (times three_twice) 4 = 2%Z) by (vm_compute; reflexivity).
  split; [exact HL|]. split; [exact Hf|]. split; [exact Ht|].
  pose proof (repeat_twice_three_sprites 4 1 2 3 three three_twice HL Hf Ht) as T.
  cbv zeta in T. split; apply T.
Defined.

(** C1, as stated, fails on [Repeat(AsciiAnimation(three), 2)]: after 6
    timeouts the scheduler has not stopped; it stops at the 7th, having
    ticked 7 times; and the sprites shown after the successive timeouts
    are b, c, c, b, c, c, b: the first sprite is not shown again after a
    reset. *)
Lemma repeat_twice_not_six_ticks :
  let w := ObjAsciiAnimation 1 2 3 three in
  let r := ObjRepeat 4 w in
  ~ fst (ticker 6 r three_twice) = Ok Finished /\
  fst (ticker 7 r three_twice) = Ok Finished /\
  count (receives Tick 4) (calls (snd (ticker 7 r three_twice))) = 7 /\
  shownAfter 7 r w three_twice =
    [render ["b"]; render ["c"]; render ["c"];
     render ["b"]; render ["c"]; render ["c"]; render ["b"]]%string.
Proof. vm_compute. repeat split; congruence. Qed.

(** ** ChangingPosition *)

Lemma reset_keeps_time o this s : time (snd (resetFn o this s)) = time s.
Proof.
  apply (preserves_reset (fun s s' => time s' = time s)) with (Touch := fun _ => True);
    first [ exact I | now intros k _ | congruence | reflexivity ].
Qed.

Lemma isDone_changingPosition that span parent maxTime atTime this s :
  isDoneFn (ObjChangingPosition that span parent maxTime atTime) this s =
  let d := (maxTime <=? Z.of_nat (readN (time s) that))%Z in
  (Ok d, set_calls (calls s ++ [Call IsDone that (oid this); Ret (oid this) d]) s).
Proof.
  cbn [isDoneFn]. run. unfold set_calls. cbn. now rewrite <- app_assoc.
Qed.

(** C7: [reset()] on a [ChangingPosition] is the wrapped widget's [reset]
    (it does to every variable what [parent.reset()] does); it leaves
    [time] as it was, so [isDone()] answers afterwards what it answered
    before, namely whether [time >= maxTime] for the old [time]. *)
Theorem changingPosition_reset that span parent maxTime atTime s :
  let cp := ObjChangingPosition that span parent maxTime atTime in
  let s' := snd (reset cp s) in
  erase s' = erase (snd (reset parent s)) /\
  time s' = time s /\
  fst (isDone cp s') = fst (isDone cp s) /\
  fst (isDone cp s') = Ok (maxTime <=? Z.of_nat (readN (time s) that))%Z.
Proof.
  intros cp s'. split; [|split; [|split]].
  - apply (reset_receiver parent cp parent s s). reflexivity.
  - apply reset_keeps_time.
  - unfold isDone, cp. rewrite !isDone_changingPosition. cbn.
    fold cp. unfold s', reset. now rewrite reset_keeps_time.
  - unfold isDone, cp. rewrite isDone_changingPosition. cbn.
    fold cp. unfold s', reset. now rewrite reset_keeps_time.
Qed.

(** ** Construction *)

(** C8, as the code has it: no constructor validates its arguments.
    [Horizontal([])], [Repeat(w, n)] for a negative [n] and
    [ChangingPosition] with [maxTime] 0 all construct a widget, whose
    [isDone()] answers true at once.  [Sequence([])] does fail at
    construction, with the [TypeError] of reading [widgets[0].getElement]. *)
Theorem construction_unchecked s w (n : positive) atTime :
  (exists h s', Horizontal [] s = (Ok h, s') /\ fst (isDone h s') = Ok true) /\
  (exists r s', Repeat w (Z.neg n) s = (Ok r, s') /\ fst (isDone r s') = Ok true) /\
  (exists c s', ChangingPosition w 0 atTime s = (Ok c, s') /\
                fst (isDone c s') = Ok true) /\
  fst (Sequence [] s) = Throw TypeError.
Proof.
  split; [|split; [|split]].
  - eexists _, _. split; reflexivity.
  - eexists _, _. split; [reflexivity|].
    unfold isDone. rewrite isDone_repeat_exhausted; [reflexivity|].
    cbn. rewrite readZ_insert_eq. lia.
  - eexists _, _. split; [reflexivity|].
    unfold isDone. rewrite isDone_changingPosition. cbn.
    now rewrite readN_insert_eq.
  - reflexivity.
Qed.

(** C8, as stated, fails: [Horizontal([])] does not fail at construction. *)
Lemma horizontal_empty_constructs :
  ~ exists e, fst (Horizontal [] empty_store) = Throw e.
Proof. intros [e H]. vm_compute in H. discriminate. Qed.

(** ** Horizontal *)

Lemma reduce_queryAll widgets : forall acc s,
  reduce (fun widget b => d <- isDoneFn widget widget ;; ret (d && b)) acc widgets s
  = (ds <- queryAll widgets ;; ret (forallb id ds && acc)) s.
Proof.
  induction widgets as [|w ws IH]; intros acc s; cbn [reduce queryAll].
  - reflexivity.
  - unfold bind at 1 2. unfold bind at 2 3. unfold isDone.
    destruct (isDoneFn w w s) as [[d|e] s1]; [|reflexivity].
    cbn [ret]. rewrite IH. unfold bind.
    destruct (queryAll ws s1) as [[ds|e] s2]; [|reflexivity].
    unfold ret. cbn [forallb id]. f_equal. f_equal.
    destruct d, (forallb id ds), acc; reflexivity.
Qed.

Lemma queryAll_succeeds widgets s :
  exists ds s1, queryAll widgets s = (Ok ds, s1) /\ length ds = length widgets.
Proof.
  revert s. induction widgets as [|w ws IH]; intros s; cbn [queryAll].
  - now exists [], s.
  - unfold bind, isDone. destruct (isDone_succeeds w w s) as [d Hd].
    destruct (isDoneFn w w s) as [r s1]. cbn in Hd. subst r.
    destruct (IH s1) as (ds & s2 & E & Hl). rewrite E.
    exists (d :: ds), s2. split; [reflexivity|]. cbn. now rewrite Hl.
Qed.

Lemma each_tickAll widgets s :
  each (fun widget => tickFn widget widget) widgets s = tickAll widgets s.
Proof.
  revert s. induction widgets as [|w ws IH]; intros s; cbn [each tickAll].
  - reflexivity.
  - unfold bind, tick. destruct (tickFn w w s) as [[[]|e] s1]; [apply IH|reflexivity].
Qed.

(** [isDone()] of a [Horizontal] asks every child in list order, whatever
    the earlier answers, and answers true exactly when every child
    answered true.  [tick()] is the loop over the children, in list
    order, done or not. *)
Lemma horizontal_children that span widgets s :
  let h := ObjHorizontal that span widgets in
  (exists ds s1,
     queryAll widgets (snd (log (Call IsDone that that) s)) = (Ok ds, s1) /\
     length ds = length widgets /\
     isDone h s = (Ok (forallb id ds), snd (log (Ret that (forallb id ds)) s1)) /\
     (forallb id ds = true <-> Forall (fun d => d = true) ds)) /\
  tick h s = (log (Call Tick that that) ;; tickAll widgets) s.
Proof.
  intros h. split.
  - destruct (queryAll_succeeds widgets (snd (log (Call IsDone that that) s)))
      as (ds & s1 & E & Hl).
    exists ds, s1. split; [exact E|]. split; [exact Hl|]. split.
    + unfold isDone, h. cbn [isDoneFn].
      erewrite bind_Ok by reflexivity.
      unfold bind at 1. rewrite reduce_queryAll.
      erewrite bind_Ok by exact E.
      cbn [ret]. rewrite andb_true_r. reflexivity.
    + rewrite forallb_forall, Forall_forall. unfold id.
      split; intros H d Hd; apply H; now apply list_elem_of_In.
  - unfold tick, h. cbn [tickFn]. unfold bind. cbn [log modify].
    apply each_tickAll.
Qed.

(** C4: every [tick()] of a [Horizontal] is to tick every child, done or
    not.  On [Horizontal([Sequence([Textbox("x")]), a])], [a] an animation
    of two sprites, handed to [animation], it does not.  The first timeout
    leaves the [Sequence] finished and [a] at frame index 1, not done, and
    sets the next timeout.  At the second, [tick()] of the [Horizontal]
    calls [tick()] of the finished [Sequence], which reads
    [widgets[position]] past the end of the array and throws a TypeError;
    the exception leaves the loop of the [Horizontal], [a] receives no
    tick, and the animation ends there with [a] unfinished. *)
Theorem horizontal_tick_stops_at_throw :
  match beside empty_store with
  | (Ok (h, a), s0) =>
      let s1 := snd (callback h s0) in
      let s2 := snd (tick h s1) in
      fst (callback h s0) = Ok true /\
      fst (isDone a s1) = Ok false /\
      frameIndex a s1 = 1 /\
      fst (tick h s1) = Throw TypeError /\
      count (receives Tick (oid h)) (since s1 s2) = 1 /\
      count (receives Tick (oid a)) (since s1 s2) = 0 /\
      frameIndex a s2 = 1 /\
      fst (ticker 2 h s0) = Throw TypeError
  | _ => False
  end.
Proof. vm_compute. repeat split; congruence. Qed.

(** ** Who is called, and which variables change *)

(** From [s] to [s']: the calls recorded in between all have their
    receiver in [Touch], and outside [Touch] no cursor of a [Sequence] and
    no counter of a [Repeat] has changed. *)
Definition evolves (Touch : nat -> Prop) (s s' : store) : Prop :=
  (exists evs, calls s' = calls s ++ evs /\
               Forall (fun e => Touch (receiver e)) evs) /\
  (forall k, ~ Touch k -> position s' !! k = position s !! k) /\
  (forall k, ~ Touch k -> times s' !! k = times s !! k).

Lemma evolves_refl Touch s : evolves Touch s s.
Proof.
  split; [|now split]. exists []. split; [now rewrite app_nil_r | constructor].
Qed.

Lemma evolves_trans Touch s1 s2 s3 :
  evolves Touch s1 s2 -> evolves Touch s2 s3 -> evolves Touch s1 s3.
Proof.
  intros [(e1 & E1 & F1) [P1 T1]] [(e2 & E2 & F2) [P2 T2]]. split; [|split].
  - exists (e1 ++ e2). split; [now rewrite E2, E1, app_assoc|].
    apply Forall_app. now split.
  - intros k Hk. now rewrite P2, P1.
  - intros k Hk. now rewrite T2, T1.
Qed.

Lemma evolves_log (Touch : nat -> Prop) e s :
  Touch (receiver e) -> evolves Touch s (set_calls (calls s ++ [e]) s).
Proof.
  intros H. split; [|now split]. exists [e]. split; [reflexivity|].
  now constructor.
Qed.

Lemma evolves_position (Touch : nat -> Prop) k v s :
  Touch k -> evolves Touch s (set_position (<[k := v]> (position s)) s).
Proof.
  intros H. split; [|split].
  - exists []. split; [cbn; now rewrite app_nil_r | constructor].
  - intros k' Hk'. cbn. apply lookup_insert_ne. intros ->. contradiction.
  - reflexivity.
Qed.

Lemma evolves_times (Touch : nat -> Prop) k v s :
  Touch k -> evolves Touch s (set_times (<[k := v]> (times s)) s).
Proof.
  intros H. split; [|split].
  - exists []. split; [cbn; now rewrite app_nil_r | constructor].
  - reflexivity.
  - intros k' Hk'. cbn. apply lookup_insert_ne. intros ->. contradiction.
Qed.

(** A step that writes neither the record of calls, nor a cursor, nor a
    counter. *)
Lemma evolves_other Touch s s' :
  calls s' = calls s -> position s' = position s -> times s' = times s ->
  evolves Touch s s'.
Proof.
  intros Hc Hp Ht. split; [|split].
  - exists []. split; [now rewrite app_nil_r | constructor].
  - intros k _. now rewrite Hp.
  - intros k _. now rewrite Ht.
Qed.

Lemma reset_evolves (Touch : nat -> Prop) o this s :
  touches Touch o -> Touch (oid this) -> evolves Touch s (snd (resetFn o this s)).
Proof.
  intros Ho Ht.
  apply (preserves_reset (evolves Touch) (evolves_refl Touch) (evolves_trans Touch)
           Touch); auto using evolves_log, evolves_position, evolves_times.
  intros. now apply evolves_other.
Qed.

Lemma isDone_evolves (Touch : nat -> Prop) o this s :
  touches Touch o -> Touch (oid this) -> evolves Touch s (snd (isDoneFn o this s)).
Proof.
  intros Ho Ht.
  apply (preserves_isDone (evolves Touch) (evolves_refl Touch) (evolves_trans Touch)
           Touch); auto using evolves_log, evolves_position, evolves_times;
    intros; now apply evolves_other.
Qed.

Lemma tick_evolves (Touch : nat -> Prop) o this s :
  touches Touch o -> touches Touch this -> evolves Touch s (snd (tickFn o this s)).
Proof.
  intros Ho Ht.
  apply (preserves_tick (evolves Touch) (evolves_refl Touch) (evolves_trans Touch)
           Touch); auto using evolves_log, evolves_position, evolves_times;
    intros; now apply evolves_other.
Qed.

Lemma touches_ids o : touches (fun k => In k (ids o)) o.
Proof. intros k Hk. exact Hk. Qed.

Lemma touches_any o : touches (fun _ => True) o.
Proof. intros k _. exact I. Qed.

(** ** Sequence *)

Lemma isDone_keeps_cursor o that s :
  ~ In that (ids o) ->
  readN (position (snd (isDoneFn o o s))) that = readN (position s) that.
Proof.
  intros H. destruct (isDone_evolves (fun k => In k (ids o)) o o s) as [_ [P _]].
  - apply touches_ids.
  - apply oid_ids.
  - unfold readN. now rewrite P.
Qed.

Lemma tick_keeps_cursor o that s :
  ~ In that (ids o) ->
  readN (position (snd (tickFn o o s))) that = readN (position s) that.
Proof.
  intros H. destruct (tick_evolves (fun k => In k (ids o)) o o s) as [_ [P _]].
  - apply touches_ids.
  - apply touches_ids.
  - unfold readN. now rewrite P.
Qed.

Lemma while_S fuel cond body s :
  while (S fuel) cond body s =
  match cond s with
  | (Ok true, s1) =>
      match body s1 with
      | (Ok _, s2) => while fuel cond body s2
      | (Throw e, s2) => (Throw e, s2)
      end
  | (Ok false, s1) => (Ok tt, s1)
  | (Throw e, s1) => (Throw e, s1)
  end.
Proof.
  cbn [while]. unfold bind. destruct (cond s) as [[[|]|e] s1]; reflexivity.
Qed.

Lemma skipAhead_cons that w rest s :
  skipAhead that (w :: rest) s =
  match isDoneFn w w s with
  | (Ok true, s1) =>
      skipAhead that rest
        (set_position (<[that := readN (position s1) that + 1]> (position s1)) s1)
  | (Ok false, s1) => (Ok tt, s1)
  | (Throw e, s1) => (Throw e, s1)
  end.
Proof.
  cbn [skipAhead]. unfold bind, isDone.
  destruct (isDoneFn w w s) as [[[|]|e] s1]; reflexivity.
Qed.

Lemma while_skipAhead that widgets :
  Forall (fun w => ~ In that (ids w)) widgets ->
  forall fuel s,
    length widgets - readN (position s) that <= fuel ->
    while fuel
      (p <- gets (fun s => readN (position s) that) ;;
       if p <? length widgets then
         match map (fun widget => isDoneFn widget widget) widgets !! p with
         | Some widget_isDone => widget_isDone
         | None => throw TypeError
         end
       else ret false)
      (modify (fun s =>
         set_position (<[that := readN (position s) that + 1]> (position s)) s)) s
    = skipAhead that (drop (readN (position s) that) widgets) s.
Proof.
  intros Hw fuel.
  set (cond := bind _ _). set (body := modify _).
  assert (Hcond : forall s,
    cond s =
    match widgets !! readN (position s) that with
    | Some w => isDoneFn w w s
    | None => (Ok false, s)
    end).
  { intros s. unfold cond, bind, gets.
    destruct (readN (position s) that <? length widgets) eqn:Hp.
    - apply Nat.ltb_lt in Hp.
      destruct (lookup_lt_is_Some_2 widgets _ Hp) as [w Ew].
      now rewrite list_lookup_fmap, Ew.
    - apply Nat.ltb_ge in Hp. now rewrite (proj2 (lookup_ge_None _ _) Hp). }
  induction fuel as [|fuel IH]; intros s Hfuel.
  - rewrite drop_ge by lia. reflexivity.
  - rewrite while_S, Hcond.
    destruct (widgets !! readN (position s) that) as [w|] eqn:Ew.
    + rewrite (drop_S _ _ _ Ew), skipAhead_cons.
      pose proof (isDone_keeps_cursor w that s) as Hk.
      destruct (isDoneFn w w s) as [[[|]|e] s1]; try reflexivity.
      cbn [snd] in Hk. unfold body at 1. cbn [modify].
      rewrite Forall_forall in Hw.
      specialize (Hk (Hw w (list_elem_of_lookup_2 _ _ _ Ew))).
      apply lookup_lt_Some in Ew.
      set (s2 := set_position _ s1).
      assert (H2 : readN (position s2) that = S (readN (position s) that)).
      { unfold s2. cbn. rewrite readN_insert_eq. lia. }
      rewrite <- H2. apply IH. lia.
    + apply lookup_ge_None in Ew. rewrite drop_ge by lia. reflexivity.
Qed.

(** [isDone] of a [Sequence] whose children are other objects than itself
    is the skip-ahead loop, followed by the test of the cursor. *)
Lemma isDone_sequence that span widgets this s :
  Forall (fun w => ~ In that (ids w)) widgets ->
  isDoneFn (ObjSequence that span widgets) this s =
  (log (Call IsDone that (oid this)) ;;
   skipAhead that (drop (readN (position s) that) widgets) ;;
   p <- gets (fun s => readN (position s) that) ;;
   answer this (length widgets <=? p)) s.
Proof.
  intros Hw. cbn [isDoneFn].
  unfold bind at 1. unfold bind at 3. cbn [log modify].
  unfold bind at 1. unfold bind at 2.
  rewrite (while_skipAhead that widgets Hw); [reflexivity|]. cbn. lia.
Qed.

(** ** The shape of the record of calls *)

Lemma ids_below o : ids o = oid o :: below o.
Proof. destruct o; reflexivity. Qed.

Lemma below_ids o k : In k (below o) -> In k (ids o).
Proof. rewrite ids_below. now right. Qed.

(** From [s] to [s']: the calls recorded in between all have their
    receiver in [Touch]. *)
Definition records (Touch : nat -> Prop) (s s' : store) : Prop :=
  exists evs, calls s' = calls s ++ evs /\
              Forall (fun e => Touch (receiver e)) evs.

Lemma evolves_records Touch s s' : evolves Touch s s' -> records Touch s s'.
Proof. now intros [H _]. Qed.

Lemma records_refl Touch s : records Touch s s.
Proof. apply (evolves_refl Touch s). Qed.

Lemma records_trans Touch s1 s2 s3 :
  records Touch s1 s2 -> records Touch s2 s3 -> records Touch s1 s3.
Proof.
  intros (e1 & E1 & F1) (e2 & E2 & F2).
  exists (e1 ++ e2). split; [now rewrite E2, E1, app_assoc|].
  apply Forall_app. now split.
Qed.


Lemma records_silent Touch s s' : calls s' = calls s -> records Touch s s'.
Proof. intros H. exists []. split; [now rewrite app_nil_r | constructor]. Qed.

(** A computation that returns normally and, meanwhile, only records
    calls with receivers in [Touch]. *)
Definition steady (Touch : nat -> Prop) {A} (c : M A) : Prop :=
  succeeds c /\ preserves (records Touch) c.

Lemma steady_ret Touch {A} (a : A) : steady Touch (ret a).
Proof. split; [apply succeeds_ret | apply preserves_ret, records_refl]. Qed.

Lemma steady_gets Touch {A} (f : store -> A) : steady Touch (gets f).
Proof. split; [apply succeeds_gets | apply preserves_gets, records_refl]. Qed.

Lemma steady_modify Touch f :
  (forall s, calls (f s) = calls s) -> steady Touch (modify f).
Proof.
  intros H. split; [apply succeeds_modify|]. intros s. apply records_silent, H.
Qed.

Lemma steady_bind Touch {A B} (c : M A) (k : A -> M B) :
  steady Touch c -> (forall a, steady Touch (k a)) -> steady Touch (bind c k).
Proof.
  intros [S1 P1] Hk. split.
  - apply succeeds_bind; [exact S1|]. intros a0. apply Hk.
  - apply preserves_bind; [apply records_trans | exact P1 |]. intros a0. apply Hk.
Qed.



Lemma steady_reduce Touch {A B} (f : A -> B -> M B) (l : list A) :
  Forall (fun x => forall b, steady Touch (f x b)) l ->
  forall acc, steady Touch (reduce f acc l).
Proof.
  induction 1; intros acc; cbn [reduce]; [apply steady_ret|].
  apply steady_bind; auto.
Qed.

Lemma steady_while Touch fuel (cond : M bool) (body : M unit) :
  steady Touch cond -> steady Touch body -> steady Touch (while fuel cond body).
Proof.
  intros Hc Hb. induction fuel; cbn [while]; [apply steady_ret|].
  apply steady_bind; [exact Hc|]. intros [|]; [|apply steady_ret].
  apply steady_bind; auto.
Qed.

Lemma steady_isDone (Touch : nat -> Prop) o this :
  touches Touch o -> Touch (oid this) -> steady Touch (isDoneFn o this).
Proof.
  intros Ho Ht. split; [apply isDone_succeeds|]. intros s.
  now apply evolves_records, isDone_evolves.
Qed.

Lemma steady_reset (Touch : nat -> Prop) o this :
  touches Touch o -> Touch (oid this) -> steady Touch (resetFn o this).
Proof.
  intros Ho Ht. split; [apply reset_succeeds|]. intros s.
  now apply evolves_records, reset_evolves.
Qed.

(** A child of a [Horizontal] or a [Sequence] lies below it. *)
Lemma child_below (ws : list obj) w k :
  w ∈ ws -> In k (ids w) -> In k (flat_map ids ws).
Proof.
  intros Hw Hk. apply in_flat_map. exists w.
  split; [now apply list_elem_of_In | exact Hk].
Qed.


(** A computation that returns normally, and whose last recorded event is
    the answer it returns to receiver [this]; the calls recorded before
    have their receivers in [Touch]. *)
Definition answersLast (Touch : nat -> Prop) (this : obj) (c : M bool) : Prop :=
  forall s, exists d s1 mid,
    c s = (Ok d, s1) /\
    calls s1 = calls s ++ mid ++ [Ret (oid this) d] /\
    Forall (fun e => Touch (receiver e)) mid.

Lemma answersLast_answer Touch this b : answersLast Touch this (answer this b).
Proof.
  intros s. exists b, (set_calls (calls s ++ [Ret (oid this) b]) s), [].
  split; [reflexivity|]. split; [reflexivity | constructor].
Qed.

Lemma answersLast_bind Touch this {A} (c : M A) (k : A -> M bool) :
  steady Touch c -> (forall a, answersLast Touch this (k a)) ->
  answersLast Touch this (bind c k).
Proof.
  intros [S1 P1] Hk s. unfold bind.
  destruct (S1 s) as [a0 Ha]. destruct (P1 s) as (e1 & E1 & F1).
  destruct (c s) as [r s1]. cbn in Ha, E1. subst r.
  destruct (Hk a0 s1) as (d & s2 & mid & E & Hc & F).
  exists d, s2, (e1 ++ mid). split; [exact E|]. split.
  - now rewrite Hc, E1, <- !app_assoc.
  - apply Forall_app. now split.
Qed.

Lemma answersLast_weaken (T1 T2 : nat -> Prop) this c :
  (forall k, T1 k -> T2 k) -> answersLast T1 this c -> answersLast T2 this c.
Proof.
  intros H Hc s. destruct (Hc s) as (d & s1 & mid & E & Hcalls & F).
  exists d, s1, mid. split; [exact E|]. split; [exact Hcalls|].
  eapply Forall_impl; [exact F|]. intros e; apply H.
Qed.

(** [isDone]: the call is recorded first and the answer last; in between,
    only calls received by the objects below. *)
Lemma isDone_shape o : forall this,
  exists owner rest,
    (forall s, isDoneFn o this s
               = rest (set_calls (calls s ++ [Call IsDone owner (oid this)]) s)) /\
    answersLast (fun k => In k (below o)) this rest.
Proof.
  induction o as [that el|that span pre sprites|that w IH|that w IH
                 |that span ws IH|that span w width IH|that span ws IH
                 |that span parent maxTime atTime IH] using obj_induction;
    intros this; cbn [isDoneFn].
  - exists Widget, (answer this true). split; [reflexivity|].
    apply answersLast_answer.
  - eexists that, _. split; [reflexivity|].
    apply answersLast_bind; [apply steady_gets|]. intros f.
    apply answersLast_answer.
  - eexists that, _. split; [reflexivity|].
    assert (Hw : touches (fun k => In k (below (ObjRepeatIndefinitely that w))) w)
      by (intros k Hk; exact Hk).
    apply answersLast_bind; [apply steady_isDone; [exact Hw | apply oid_ids]|].
    intros d. apply answersLast_bind; [|intros _; apply answersLast_answer].
    destruct d; [|apply steady_ret].
    apply steady_reset; [exact Hw | apply oid_ids].
  - eexists that, _. split; [reflexivity|].
    assert (Hw : touches (fun k => In k (below (ObjRepeat that w))) w)
      by (intros k Hk; exact Hk).
    apply answersLast_bind; [apply steady_gets|]. intros n.
    destruct (n <=? 0)%Z; [apply answersLast_answer|].
    apply answersLast_bind; [apply steady_isDone; [exact Hw | apply oid_ids]|].
    intros d. apply answersLast_bind; [|intros _; apply answersLast_answer].
    destruct d; [|apply steady_ret].
    apply steady_bind; [now apply steady_modify|]. intros _.
    apply steady_reset; [exact Hw | apply oid_ids].
  - eexists that, _. split; [reflexivity|].
    apply answersLast_bind; [|intros b; apply answersLast_answer].
    apply steady_reduce, Forall_forall. intros w Hw b.
    apply steady_bind; [|intros d; apply steady_ret].
    apply steady_isDone.
    + intros k Hk. now apply (child_below ws w).
    + apply (child_below ws w); [exact Hw | apply oid_ids].
  - destruct (IH this) as (owner & rest & E & Hs). exists owner, rest.
    split; [exact E|]. eapply answersLast_weaken; [|exact Hs].
    intros k. apply below_ids.
  - eexists that, _. split; [reflexivity|].
    apply answersLast_bind.
    + apply steady_while; [|now apply steady_modify].
      apply steady_bind; [apply steady_gets|]. intros p.
      destruct (p <? length ws) eqn:Hp; [|apply steady_ret].
      apply Nat.ltb_lt in Hp.
      destruct (lookup_lt_is_Some_2 ws p Hp) as [w Hw].
      rewrite list_lookup_fmap, Hw. cbn [fmap option_fmap option_map].
      apply list_elem_of_lookup_2 in Hw.
      apply steady_isDone.
      * intros k Hk. now apply (child_below ws w).
      * apply (child_below ws w); [exact Hw | apply oid_ids].
    + intros _. apply answersLast_bind; [apply steady_gets|]. intros p.
      apply answersLast_answer.
  - eexists that, _. split; [reflexivity|].
    apply answersLast_bind; [apply steady_gets|]. intros t.
    apply answersLast_answer.
Qed.

(** [o.isDone()], for the caller: it returns normally, records calls
    received by [o] and the objects below it, and last the answer. *)
Lemma isDone_answers o s :
  exists d s1 evs,
    isDone o s = (Ok d, s1) /\
    calls s1 = calls s ++ evs ++ [Ret (oid o) d] /\
    Forall (fun e => In (receiver e) (ids o)) evs.
Proof.
  destruct (isDone_shape o o) as (owner & rest & E & Hr).
  destruct (Hr (set_calls (calls s ++ [Call IsDone owner (oid o)]) s))
    as (d & s1 & mid & E1 & Hc & F).
  exists d, s1, (Call IsDone owner (oid o) :: mid).
  unfold isDone. rewrite E. split; [exact E1|]. split.
  - rewrite Hc. cbn. now rewrite <- !app_assoc.
  - constructor; [apply oid_ids|].
    eapply Forall_impl; [exact F|]. intros e. apply below_ids.
Qed.

(** ** Runs *)

(** What the scheduler does is such a succession. *)
Lemma ticker_steps n : forall o s, exists cs, snd (ticker n o s) = steps cs o s.
Proof.
  induction n as [|n IH]; intros o s.
  - now exists [].
  - cbn [ticker]. unfold callback, bind.
    destruct (tick o s) as [[[]|e] s1] eqn:Et.
    + destruct (isDone o s1) as [[[|]|e] s2] eqn:Ed; cbn [negb ret].
      * exists [DoTick; DoIsDone]. unfold steps. cbn [fold_left step].
        rewrite Et. cbn [snd]. now rewrite Ed.
      * destruct (IH o s2) as [cs Hcs]. exists (DoTick :: DoIsDone :: cs).
        unfold steps. cbn [fold_left step].
        rewrite Et. cbn [snd]. rewrite Ed. exact Hcs.
      * exists [DoTick; DoIsDone]. unfold steps. cbn [fold_left step].
        rewrite Et. cbn [snd]. now rewrite Ed.
    + exists [DoTick]. unfold steps. cbn [fold_left step]. now rewrite Et.
Qed.

Lemma receives_receiver m k e : receives m k e = true -> receiver e = k.
Proof.
  destruct e as [m' owner this|]; cbn; [|discriminate].
  intros H. apply andb_prop in H as [_ H]. apply Nat.eqb_eq in H. now subst.
Qed.


Lemma count_app p l1 l2 : count p (l1 ++ l2) = count p l1 + count p l2.
Proof. unfold count. now rewrite List.filter_app, length_app. Qed.

Lemma count_none p l : Forall (fun e => p e = false) l -> count p l = 0.
Proof.
  unfold count. induction 1 as [|e l He _ IH]; cbn; [reflexivity|].
  now rewrite He.
Qed.

Lemma count_cons p e l : count p (e :: l) = (if p e then 1 else 0) + count p l.
Proof. unfold count. cbn. now destruct (p e). Qed.

Lemma waits_seen a b evs : waits a b true evs = true.
Proof.
  induction evs as [|e evs IH]; cbn; [reflexivity|].
  destruct (receives Tick b e); cbn; exact IH.
Qed.

Lemma waits_app a b evs1 : forall seen evs2,
  waits a b seen (evs1 ++ evs2) =
  waits a b seen evs1 && waits a b (seen || existsb (answers a true) evs1) evs2.
Proof.
  induction evs1 as [|e evs1 IH]; intros seen evs2; cbn.
  - now rewrite orb_false_r.
  - destruct (receives Tick b e) eqn:Hr.
    + assert (Ha : answers a true e = false) by (destruct e; [reflexivity|discriminate]).
      rewrite Ha, IH. cbn. now rewrite andb_assoc.
    + now rewrite IH, orb_assoc.
Qed.

Lemma waits_quiet a b seen evs :
  Forall (fun e => receiver e <> b) evs -> waits a b seen evs = true.
Proof.
  intros H. revert seen. induction H as [|e evs He _ IH]; intros seen; cbn.
  - reflexivity.
  - destruct (receives Tick b e) eqn:Hr; [|apply IH].
    apply receives_receiver in Hr. contradiction.
Qed.

Lemma tick_sequence that span widgets this s :
  tickFn (ObjSequence that span widgets) this s =
  match widgets !! readN (position s) that with
  | Some w => tickFn w w (set_calls (calls s ++ [Call Tick that (oid this)]) s)
  | None => (Throw TypeError, set_calls (calls s ++ [Call Tick that (oid this)]) s)
  end.
Proof.
  cbn [tickFn]. unfold bind, log, modify, gets. cbn [position set_calls].
  rewrite list_lookup_fmap.
  now destruct (widgets !! readN (position s) that).
Qed.

Lemma skipAhead_records (Touch : nat -> Prop) that widgets :
  Forall (touches Touch) widgets ->
  preserves (records Touch) (skipAhead that widgets).
Proof.
  induction 1 as [|w ws Hw _ IH]; cbn [skipAhead].
  - apply preserves_ret, records_refl.
  - apply preserves_bind; [apply records_trans | |].
    + intros s. apply evolves_records, isDone_evolves; [exact Hw|].
      apply Hw, oid_ids.
    + intros [|]; [|apply preserves_ret, records_refl].
      apply preserves_bind; [apply records_trans | | intros _; exact IH].
      intros s. now apply records_silent.
Qed.

Lemma skipAhead_cursor that widgets :
  Forall (fun w => ~ In that (ids w)) widgets ->
  forall s, readN (position s) that
            <= readN (position (snd (skipAhead that widgets s))) that.
Proof.
  induction 1 as [|w ws Hw _ IH]; intros s.
  - cbn. lia.
  - rewrite skipAhead_cons.
    pose proof (isDone_keeps_cursor w that s Hw) as Hk. unfold isDone in Hk.
    destruct (isDoneFn w w s) as [[[|]|e] s1]; cbn [snd] in *; try lia.
    etransitivity; [|apply IH]. cbn. rewrite readN_insert_eq. lia.
Qed.

(** [isDone] of a [Sequence]: the answer is read off the cursor that the
    loop leaves. *)
Lemma isDone_sequence_answer that span widgets this s :
  exists r s1,
    (r = Ok tt ->
     isDoneFn (ObjSequence that span widgets) this s =
       (Ok (length widgets <=? readN (position s1) that),
        set_calls (calls s1 ++ [Ret (oid this) (length widgets <=? readN (position s1) that)]) s1)) /\
    (forall e, r = Throw e ->
     isDoneFn (ObjSequence that span widgets) this s = (Throw e, s1)).
Proof.
  cbn [isDoneFn]. erewrite bind_Ok by reflexivity. cbv zeta.
  set (loop := while _ _ _).
  destruct (loop (set_calls (calls s ++ [Call IsDone that (oid this)]) s))
    as [r s1] eqn:El.
  exists r, s1. split.
  - intros ->. unfold bind at 1. rewrite El. reflexivity.
  - intros e ->. unfold bind at 1. rewrite El. reflexivity.
Qed.

Section SequenceOfTwo.
Variables (that span : nat) (a b : obj).
Hypothesis Ha : ~ In that (ids a).
Hypothesis Hb : ~ In that (ids b).
Hypothesis Hab : ~ In (oid a) (ids b).
Hypothesis Hba : ~ In (oid b) (ids a).

Let q := ObjSequence that span [a; b].

Lemma children_apart : Forall (fun w => ~ In that (ids w)) [a; b].
Proof. repeat constructor; assumption. Qed.

(** Every call on the sequence only adds to the record of calls. *)
Lemma step_records s c : records (fun _ => True) s (step q s c).
Proof.
  destruct c; cbn [step]; apply evolves_records.
  - apply tick_evolves; apply touches_any.
  - apply isDone_evolves; [apply touches_any | exact I].
Qed.

(** What is left of [isDone] after the first child has answered true. *)
Definition afterFirst : M bool :=
  skipAhead that [b] ;;
  p <- gets (fun s => readN (position s) that) ;;
  answer q (2 <=? p).

Lemma afterFirst_records s : records (fun _ => True) s (snd (afterFirst s)).
Proof.
  revert s. unfold afterFirst.
  apply preserves_bind; [apply records_trans | |].
  - apply skipAhead_records. constructor; [apply touches_any | constructor].
  - intros _. apply preserves_bind; [apply records_trans | |].
    + apply preserves_gets, records_refl.
    + intros p s. now apply evolves_records, evolves_log.
Qed.

(** [isDone] with the cursor on the first child. *)
Lemma isDone_at_first s :
  readN (position s) that = 0 ->
  exists d s1 evs,
    calls s1 = calls s ++ evs ++ [Ret (oid a) d] /\
    Forall (fun e => receiver e = that \/ In (receiver e) (ids a)) evs /\
    readN (position s1) that = 0 /\
    snd (isDone q s) =
      (if d then
         snd (afterFirst
                (set_position (<[that := readN (position s1) that + 1]> (position s1))
                              s1))
       else set_calls (calls s1 ++ [Ret that false]) s1).
Proof.
  intros Hp. unfold isDone, q.
  rewrite (isDone_sequence that span [a; b] _ s children_apart).
  rewrite Hp. cbn [drop].
  set (sl := set_calls (calls s ++ [Call IsDone that that]) s).
  destruct (isDone_answers a sl) as (d & s1 & evs & E & Hc & F).
  pose proof (isDone_keeps_cursor a that sl Ha) as Hk.
  unfold isDone in E. rewrite E in Hk. cbn [snd] in Hk.
  exists d, s1, (Call IsDone that that :: evs).
  split; [|split; [|split]].
  - rewrite Hc. unfold sl. cbn. now rewrite <- !app_assoc.
  - constructor; [now left|]. eapply Forall_impl; [exact F|]. intros e He. now right.
  - rewrite Hk. unfold sl. cbn. exact Hp.
  - erewrite bind_Ok by reflexivity. cbn [oid]. fold sl.
    unfold bind at 1. rewrite skipAhead_cons, E.
    destruct d.
    + unfold afterFirst. unfold bind at 3. cbn [oid]. reflexivity.
    + unfold bind, gets, answer, log, modify, ret. cbn [fst snd].
      assert (H0 : readN (position s1) that = 0).
      { rewrite Hk. unfold sl. cbn. exact Hp. }
      rewrite H0. reflexivity.
Qed.

(** The invariant of a run that starts with the cursor on the first
    child: no tick for [b] before an answer true of [a], and the cursor
    has left [a] only after such an answer. *)
Definition first_then_second (s0 s : store) : Prop :=
  exists evs,
    calls s = calls s0 ++ evs /\
    waits (oid a) (oid b) false evs = true /\
    (1 <= readN (position s) that ->
     existsb (answers (oid a) true) evs = true).

Lemma quiet_for_b evs :
  Forall (fun e => receiver e = that \/ In (receiver e) (ids a)) evs ->
  Forall (fun e => receiver e <> oid b) evs.
Proof.
  intros H. eapply Forall_impl; [exact H|]. intros e [He|He] Heq.
  - apply Hb. rewrite <- He, Heq. apply oid_ids.
  - apply Hba. now rewrite <- Heq.
Qed.

Lemma first_then_second_step s0 s c :
  first_then_second s0 s -> first_then_second s0 (step q s c).
Proof.
  intros (evs & Ec & Hw & Hseen).
  destruct (Nat.eq_dec (readN (position s) that) 0) as [Hp|Hp].
  - destruct c; cbn [step].
    + (* tick: the first child is ticked *)
      unfold tick, q. rewrite tick_sequence, Hp. cbn [lookup list_lookup oid].
      set (sl := set_calls (calls s ++ [Call Tick that that]) s).
      destruct (tick_evolves (fun k => In k (ids a)) a a sl
                  (touches_ids a) (touches_ids a)) as [(e2 & E2 & F2) P2].
      exists (evs ++ Call Tick that that :: e2). split; [|split].
      * rewrite E2. unfold sl. cbn. rewrite Ec. now rewrite <- !app_assoc.
      * rewrite waits_app, Hw. cbn [andb]. apply waits_quiet, quiet_for_b.
        constructor; [now left|]. eapply Forall_impl; [exact F2|]. now right.
      * intros H1. exfalso.
        pose proof (tick_keeps_cursor a that sl Ha) as Hk.
        unfold sl in Hk. cbn in Hk. fold sl in Hk. lia.
    + (* isDone: the first child is asked *)
      destruct (isDone_at_first s Hp) as (d & s1 & e2 & Hc & F & Hp1 & Es).
      rewrite Es. destruct d.
      * destruct (afterFirst_records
          (set_position (<[that := readN (position s1) that + 1]> (position s1)) s1))
          as (e3 & E3 & _).
        exists (evs ++ (e2 ++ [Ret (oid a) true]) ++ e3). split; [|split].
        -- rewrite E3. cbn. rewrite Hc, Ec. now rewrite <- !app_assoc.
        -- rewrite waits_app, Hw. cbn [andb]. rewrite waits_app.
           apply andb_true_intro. split.
           ++ apply waits_quiet, quiet_for_b. apply Forall_app. split; [exact F|].
              constructor; [|constructor]. right. apply oid_ids.
           ++ rewrite existsb_app. cbn. rewrite Nat.eqb_refl. cbn.
              rewrite !orb_true_r. apply waits_seen.
        -- intros _. rewrite !existsb_app. cbn. rewrite Nat.eqb_refl. cbn.
           now rewrite !orb_true_r.
      * exists (evs ++ e2 ++ [Ret (oid a) false] ++ [Ret that false]).
        split; [|split].
        -- cbn. rewrite Hc, Ec. now rewrite <- !app_assoc.
        -- rewrite waits_app, Hw. cbn [andb]. apply waits_quiet, quiet_for_b.
           apply Forall_app. split; [exact F|].
           constructor; [right; apply oid_ids|]. constructor; [now left|constructor].
        -- cbn. intros H1. lia.
  - (* the cursor has left the first child: it has answered true *)
    assert (Hs : existsb (answers (oid a) true) evs = true) by (apply Hseen; lia).
    destruct (step_records s c) as (e2 & E2 & _).
    exists (evs ++ e2). split; [|split].
    + rewrite E2, Ec. now rewrite <- app_assoc.
    + rewrite waits_app, Hw, Hs. cbn. apply waits_seen.
    + intros _. rewrite existsb_app, Hs. reflexivity.
Qed.

Lemma first_then_second_steps cs : forall s0 s,
  first_then_second s0 s -> first_then_second s0 (steps cs q s).
Proof.
  induction cs as [|c cs IH]; intros s0 s H; [exact H|].
  unfold steps. cbn [fold_left]. apply IH. now apply first_then_second_step.
Qed.

(** The invariant of a run that starts with the cursor past the first
    child: the cursor stays there, and the calls go to the sequence, to
    [b] and to the objects below [b]. *)
Definition second_only (s0 s : store) : Prop :=
  1 <= readN (position s) that /\
  exists evs,
    calls s = calls s0 ++ evs /\
    Forall (fun e => receiver e = that \/ In (receiver e) (ids b)) evs.

Lemma second_only_step s0 s c : second_only s0 s -> second_only s0 (step q s c).
Proof.
  intros (Hp & evs & Ec & F).
  set (Touch := fun k => k = that \/ In k (ids b)).
  assert (Hbt : touches Touch b) by (intros k Hk; now right).
  destruct c; cbn [step].
  - unfold tick, q. rewrite tick_sequence. cbn [oid].
    set (sl := set_calls (calls s ++ [Call Tick that that]) s).
    destruct ([a; b] !! readN (position s) that) as [w|] eqn:Ew.
    + assert (w = b) as ->.
      { destruct (readN (position s) that) as [|[|p]]; [lia| |]; cbn in Ew.
        - congruence.
        - destruct p; discriminate Ew. }
      destruct (tick_evolves (fun k => In k (ids b)) b b sl
                  (touches_ids b) (touches_ids b)) as [(e2 & E2 & F2) P2].
      split.
      * pose proof (tick_keeps_cursor b that sl Hb) as Hk.
        unfold sl in Hk at 2. cbn in Hk. lia.
      * exists (evs ++ Call Tick that that :: e2). split.
        -- rewrite E2. unfold sl. cbn. rewrite Ec. now rewrite <- !app_assoc.
        -- apply Forall_app. split; [exact F|]. constructor; [now left|].
           eapply Forall_impl; [exact F2|]. now right.
    + cbn [snd]. split; [exact Hp|].
      exists (evs ++ [Call Tick that that]). split.
      * unfold sl. cbn. rewrite Ec. now rewrite <- !app_assoc.
      * apply Forall_app. split; [exact F|]. constructor; [now left|constructor].
  - unfold isDone, q.
    rewrite (isDone_sequence that span [a; b] _ s children_apart). cbn [oid].
    set (l := drop (readN (position s) that) [a; b]).
    assert (Hl : Forall (fun w => w = b) l).
    { unfold l. destruct (readN (position s) that) as [|[|p]]; [lia| |]; cbn.
      - now repeat constructor.
      - rewrite drop_nil. constructor. }
    set (sl := set_calls (calls s ++ [Call IsDone that that]) s).
    erewrite bind_Ok by reflexivity. fold sl.
    split.
    + transitivity (readN (position (snd (skipAhead that l sl))) that).
      * etransitivity; [|apply skipAhead_cursor].
        -- unfold sl. cbn. exact Hp.
        -- eapply Forall_impl; [exact Hl|]. now intros w ->.
      * unfold bind. destruct (skipAhead that l sl) as [[[]|e] s2]; cbn; lia.
    + assert (Hr : records Touch sl
                (snd ((skipAhead that l ;;
                       p <- gets (fun s => readN (position s) that) ;;
                       answer (ObjSequence that span [a; b]) (length [a; b] <=? p)) sl))).
      { apply preserves_bind; [apply records_trans | |].
        - apply skipAhead_records. eapply Forall_impl; [exact Hl|]. now intros w ->.
        - intros _. apply preserves_bind; [apply records_trans | |].
          + apply preserves_gets, records_refl.
          + intros p s2. apply evolves_records, evolves_log. now left. }
      destruct Hr as (e2 & E2 & F2).
      exists (evs ++ Call IsDone that that :: e2). split.
      * rewrite E2. unfold sl. cbn. rewrite Ec. now rewrite <- !app_assoc.
      * apply Forall_app. split; [exact F|]. constructor; [now left|exact F2].
Qed.

Lemma second_only_steps cs : forall s0 s,
  second_only s0 s -> second_only s0 (steps cs q s).
Proof.
  induction cs as [|c cs IH]; intros s0 s H; [exact H|].
  unfold steps. cbn [fold_left]. apply IH. now apply second_only_step.
Qed.

Lemma second_only_no_tick_for_a evs :
  Forall (fun e => receiver e = that \/ In (receiver e) (ids b)) evs ->
  count (receives Tick (oid a)) evs = 0.
Proof.
  intros F. apply count_none. eapply Forall_impl; [exact F|].
  intros e He. destruct (receives Tick (oid a) e) eqn:Hr; [|reflexivity].
  apply receives_receiver in Hr. exfalso. destruct He as [He|He].
  - apply Ha. rewrite <- He, Hr. apply oid_ids.
  - apply Hab. now rewrite <- Hr.
Qed.
End SequenceOfTwo.

(** ** Ticks in the record of calls *)

(** From [s] to [s']: calls are added, none of which satisfies [p]. *)
Definition without (p : event -> bool) (s s' : store) : Prop :=
  exists evs, calls s' = calls s ++ evs /\ count p evs = 0.

Lemma without_refl p s : without p s s.
Proof. exists []. split; [now rewrite app_nil_r | reflexivity]. Qed.

Lemma without_trans p s1 s2 s3 :
  without p s1 s2 -> without p s2 s3 -> without p s1 s3.
Proof.
  intros (e1 & E1 & C1) (e2 & E2 & C2). exists (e1 ++ e2).
  split; [now rewrite E2, E1, app_assoc|]. rewrite count_app. lia.
Qed.

Lemma without_same p s s' : calls s' = calls s -> without p s s'.
Proof. intros E. exists []. split; [now rewrite app_nil_r | reflexivity]. Qed.

Lemma without_log p e s :
  p e = false -> without p s (set_calls (calls s ++ [e]) s).
Proof.
  intros He. exists [e]. split; [reflexivity|]. unfold count. cbn. now rewrite He.
Qed.

Lemma without_records p (Touch : nat -> Prop) s s' :
  (forall e, p e = true -> ~ Touch (receiver e)) ->
  records Touch s s' -> without p s s'.
Proof.
  intros Hp (evs & E & F). exists evs. split; [exact E|].
  apply count_none. eapply Forall_impl; [exact F|]. intros e He.
  destruct (p e) eqn:Ep; [|reflexivity]. now apply Hp in Ep.
Qed.

Section NoTick.
Variable k : nat.
Let p := receives Tick k.
Let R := without p.

Let R_refl : forall s, R s s := without_refl p.
Let R_trans : forall s1 s2 s3, R s1 s2 -> R s2 s3 -> R s1 s3 := without_trans p.

Lemma noTick_modify f : (forall s, calls (f s) = calls s) -> preserves R (modify f).
Proof. intros Hf s. apply without_same. cbn. apply Hf. Qed.

Lemma noTick_log e :
  (forall owner this, e <> Call Tick owner this) -> preserves R (log e).
Proof.
  intros He s. apply without_log. unfold p.
  destruct e as [[| |] owner this|this b]; try reflexivity.
  now specialize (He owner this).
Qed.

Lemma noTick_answer this b : preserves R (answer this b).
Proof.
  apply (preserves_bind R R_trans); [now apply noTick_log|].
  intros _. apply (preserves_ret R R_refl).
Qed.

(** [reset] records no tick. *)
Lemma reset_noTick o : forall this, preserves R (resetFn o this).
Proof.
  induction o as [that el|that span pre sprites|that w IH|that w IH
                 |that span ws IH|that span w width IH|that span ws IH
                 |that span parent maxTime atTime IH] using obj_induction;
    intros this; cbn [resetFn]; auto.
  - now apply noTick_log.
  - apply (preserves_bind R R_trans); [now apply noTick_log|]. intros _.
    now apply noTick_modify.
  - apply (preserves_bind R R_trans); [now apply noTick_log|]. intros _.
    apply (preserves_each R R_refl R_trans). eapply Forall_impl; [exact IH|]. auto.
  - apply (preserves_bind R R_trans); [now apply noTick_log|]. intros _.
    apply (preserves_bind R R_trans); [|intros _; now apply noTick_modify].
    apply (preserves_each R R_refl R_trans). eapply Forall_impl; [exact IH|]. auto.
Qed.

(** [isDone] records no tick. *)
Lemma isDone_noTick o : forall this, preserves R (isDoneFn o this).
Proof.
  induction o as [that el|that span pre sprites|that w IH|that w IH
                 |that span ws IH|that span w width IH|that span ws IH
                 |that span parent maxTime atTime IH] using obj_induction;
    intros this; cbn [isDoneFn]; auto.
  - apply (preserves_bind R R_trans); [now apply noTick_log|]. intros _.
    apply noTick_answer.
  - apply (preserves_bind R R_trans); [now apply noTick_log|]. intros _.
    apply (preserves_bind R R_trans); [apply (preserves_gets R R_refl)|].
    intros f. apply noTick_answer.
  - apply (preserves_bind R R_trans); [now apply noTick_log|]. intros _.
    apply (preserves_bind R R_trans); [apply IH|]. intros d.
    apply (preserves_bind R R_trans); [|intros _; apply noTick_answer].
    destruct d; [apply reset_noTick | apply (preserves_ret R R_refl)].
  - apply (preserves_bind R R_trans); [now apply noTick_log|]. intros _.
    apply (preserves_bind R R_trans); [apply (preserves_gets R R_refl)|].
    intros n. destruct (n <=? 0)%Z; [apply noTick_answer|].
    apply (preserves_bind R R_trans); [apply IH|]. intros d.
    apply (preserves_bind R R_trans); [|intros _; apply noTick_answer].
    destruct d; [|apply (preserves_ret R R_refl)].
    apply (preserves_bind R R_trans); [now apply noTick_modify|]. intros _.
    apply reset_noTick.
  - apply (preserves_bind R R_trans); [now apply noTick_log|]. intros _.
    apply (preserves_bind R R_trans); [|intros b; apply noTick_answer].
    apply (preserves_reduce R R_refl R_trans). eapply Forall_impl; [exact IH|].
    intros w Hw b. apply (preserves_bind R R_trans); [apply Hw|].
    intros d. apply (preserves_ret R R_refl).
  - apply (preserves_bind R R_trans); [now apply noTick_log|]. intros _.
    apply (preserves_bind R R_trans).
    + apply (preserves_while R R_refl R_trans); [|now apply noTick_modify].
      apply (preserves_bind R R_trans); [apply (preserves_gets R R_refl)|].
      intros q. destruct (q <? length ws); [|apply (preserves_ret R R_refl)].
      apply (preserves_lookup R R_refl). apply Forall_map.
      eapply Forall_impl; [exact IH|]. auto.
    + intros _. apply (preserves_bind R R_trans); [apply (preserves_gets R R_refl)|].
      intros q. apply noTick_answer.
  - apply (preserves_bind R R_trans); [now apply noTick_log|]. intros _.
    apply (preserves_bind R R_trans); [apply (preserves_gets R R_refl)|].
    intros t. apply noTick_answer.
Qed.

(** What [tick] records after the call itself: no tick received by [k],
    for [k] not below the object. *)
Lemma tick_rest_noTick (c : M unit) e s :
  preserves R c ->
  exists evs,
    calls (snd ((log e ;; c) s)) = calls s ++ evs /\
    count p evs = (if p e then 1 else 0).
Proof.
  intros Hc. erewrite bind_Ok by reflexivity.
  destruct (Hc (set_calls (calls s ++ [e]) s)) as (evs & E & C).
  exists (e :: evs). split.
  - rewrite E. cbn. now rewrite <- app_assoc.
  - rewrite count_cons, C. lia.
Qed.

(** [tick], run with receiver [this]: the receiver gets one tick, and an
    object that is neither the receiver nor below [o] gets none. *)
Lemma tick_counts o : forall this s,
  ~ In k (below o) ->
  exists evs,
    calls (snd (tickFn o this s)) = calls s ++ evs /\
    count p evs = (if Nat.eqb k (oid this) then 1 else 0).
Proof.
  assert (Hchild : forall (ws : list obj) w, w ∈ ws ->
            (forall this s, ~ In k (below w) ->
               exists evs, calls (snd (tickFn w this s)) = calls s ++ evs /\
                 count p evs = (if Nat.eqb k (oid this) then 1 else 0)) ->
            ~ In k (flat_map ids ws) -> preserves R (tickFn w w)).
  { intros ws w Hw IHw Hn s.
    assert (Hkw : ~ In k (ids w)).
    { intros Hin. apply Hn. now apply (child_below ws w). }
    destruct (IHw w s) as (evs & E & C).
    { intros Hin. apply Hkw. now apply below_ids. }
    exists evs. split; [exact E|]. rewrite C.
    destruct (Nat.eqb_spec k (oid w)) as [->|_]; [|reflexivity].
    exfalso. apply Hkw, oid_ids. }
  induction o as [that el|that span pre sprites|that w IH|that w IH
                 |that span ws IH|that span w width IH|that span ws IH
                 |that span parent maxTime atTime IH] using obj_induction;
    intros this s Hk; cbn [tickFn];
    try (apply IH; intros Hin; apply Hk; cbn; now apply below_ids).
  - exists [Call Tick Widget (oid this)]. split; [reflexivity|].
    now rewrite count_cons.
  - apply tick_rest_noTick.
    apply (preserves_bind R R_trans); [now apply noTick_modify|]. intros _.
    apply (preserves_bind R R_trans); [apply (preserves_gets R R_refl)|].
    intros frame. destruct (frame <? length sprites);
      [|apply (preserves_ret R R_refl)].
    unfold useSprite.
    apply (preserves_bind R R_trans); [now apply noTick_modify|]. intros _.
    destruct (sprites !! frame) as [lines|]; [|apply (preserves_throw R R_refl)].
    apply (preserves_each R R_refl R_trans). apply Forall_forall. intros line _.
    now apply noTick_modify.
  - apply tick_rest_noTick.
    apply (preserves_each R R_refl R_trans). rewrite Forall_forall in *.
    intros w Hw. apply (Hchild ws w Hw); [now apply IH | exact Hk].
  - apply tick_rest_noTick.
    apply (preserves_bind R R_trans); [apply (preserves_gets R R_refl)|].
    intros q. apply (preserves_lookup R R_refl). apply Forall_map.
    rewrite Forall_forall in *.
    intros w Hw. apply (Hchild ws w Hw); [now apply IH | exact Hk].
  - apply tick_rest_noTick.
    apply (preserves_bind R R_trans); [apply isDone_noTick|]. intros d.
    destruct d; cbn [negb]; [apply (preserves_ret R R_refl)|].
    apply (preserves_bind R R_trans); [now apply noTick_modify|]. intros _.
    apply (preserves_bind R R_trans); [now apply noTick_modify|]. intros _.
    apply (Hchild [parent] parent).
    + now left.
    + exact IH.
    + cbn. rewrite app_nil_r. exact Hk.
Qed.
End NoTick.

Section TicksOfTwo.
Variables (that span : nat) (a b : obj).
Hypothesis Ha : ~ In that (ids a).
Hypothesis Hb : ~ In that (ids b).
Hypothesis Hab : ~ In (oid a) (ids b).
Hypothesis Hba : ~ In (oid b) (ids a).
Hypothesis Haa : ~ In (oid a) (below a).
Hypothesis Hbb : ~ In (oid b) (below b).

Let q := ObjSequence that span [a; b].

(** A tick of the sequence with the cursor on [w], one of the two: the
    sequence and [w] receive one tick each, the other widget none. *)
Lemma tick_at w other s :
  [a; b] !! readN (position s) that = Some w ->
  ~ In that (ids w) -> ~ In (oid other) (ids w) -> ~ In (oid w) (below w) ->
  that <> oid other ->
  tick q s = tick w (set_calls (calls s ++ [Call Tick that that]) s) /\
  exists evs,
    calls (snd (tick q s)) = calls s ++ evs /\
    count (receives Tick that) evs = 1 /\
    count (receives Tick (oid w)) evs = 1 /\
    count (receives Tick (oid other)) evs = 0.
Proof.
  intros Hw Hthat Hother Hself Hne.
  assert (E : tick q s = tick w (set_calls (calls s ++ [Call Tick that that]) s)).
  { unfold tick at 1. unfold q. rewrite tick_sequence. cbn [oid]. now rewrite Hw. }
  split; [exact E|]. rewrite E. unfold tick.
  set (sl := set_calls (calls s ++ [Call Tick that that]) s).
  assert (Hw_that : oid w <> that).
  { intros Heq. apply Hthat. rewrite <- Heq. apply oid_ids. }
  destruct (tick_counts that w w sl) as (e1 & E1 & C1).
  { intros Hin. apply Hthat. now apply below_ids. }
  destruct (tick_counts (oid w) w w sl Hself) as (e2 & E2 & C2).
  destruct (tick_counts (oid other) w w sl) as (e3 & E3 & C3).
  { intros Hin. apply Hother. now apply below_ids. }
  rewrite E1 in E2, E3. apply app_inv_head in E2, E3. subst e2 e3.
  exists (Call Tick that that :: e1). split.
  - rewrite E1. unfold sl. cbn. now rewrite <- app_assoc.
  - rewrite !count_cons, C1, C2, C3. cbn [receives event_eqb_method andb].
    rewrite !Nat.eqb_refl.
    replace (that =? oid w) with false by (symmetry; apply Nat.eqb_neq; congruence).
    replace (oid w =? that) with false by (symmetry; now apply Nat.eqb_neq).
    replace (oid other =? that) with false
      by (symmetry; apply Nat.eqb_neq; congruence).
    replace (oid other =? oid w) with false.
    + repeat split.
    + symmetry. apply Nat.eqb_neq. intros Heq. apply Hother. rewrite Heq.
      apply oid_ids.
Qed.

(** One timeout with the cursor on a widget: the sequence receives one
    tick, and so does one of the two widgets, the one under the cursor. *)
Lemma callback_ticks s :
  readN (position s) that <= 1 ->
  exists evs,
    calls (snd (callback q s)) = calls s ++ evs /\
    count (receives Tick that) evs = 1 /\
    count (receives Tick (oid a)) evs
      = (if readN (position s) that =? 0 then 1 else 0) /\
    count (receives Tick (oid b)) evs
      = (if readN (position s) that =? 0 then 0 else 1) /\
    (fst (callback q s) = Ok true ->
     readN (position (snd (callback q s))) that <= 1).
Proof.
  intros Hp.
  assert (Hta : that <> oid a).
  { intros Heq. apply Ha. rewrite Heq. apply oid_ids. }
  assert (Htb : that <> oid b).
  { intros Heq. apply Hb. rewrite Heq. apply oid_ids. }
  assert (Ht : exists evs,
            calls (snd (tick q s)) = calls s ++ evs /\
            count (receives Tick that) evs = 1 /\
            count (receives Tick (oid a)) evs
              = (if readN (position s) that =? 0 then 1 else 0) /\
            count (receives Tick (oid b)) evs
              = (if readN (position s) that =? 0 then 0 else 1)).
  { destruct (readN (position s) that) as [|[|p]] eqn:Ep; [| |lia].
    - destruct (tick_at a b s) as (_ & evs & E & Cq & Ca & Cb); try assumption.
      { now rewrite Ep. }
      exists evs. now repeat split.
    - destruct (tick_at b a s) as (_ & evs & E & Cq & Cb & Ca); try assumption.
      { now rewrite Ep. }
      exists evs. now repeat split. }
  destruct Ht as (e1 & E1 & Cq & Ca & Cb).
  destruct (tick q s) as [[[]|err] s1] eqn:Et; cbn [snd] in E1.
  2:{ assert (Ec : callback q s = (Throw err, s1)).
      { unfold callback. now apply bind_Throw. }
      rewrite Ec. exists e1. cbn [fst snd]. split; [exact E1|]. split; [exact Cq|].
      split; [exact Ca|]. split; [exact Cb|]. intros H. discriminate H. }
  assert (Ec : callback q s = (d <- isDone q ;; ret (negb d)) s1).
  { unfold callback. now erewrite bind_Ok by exact Et. }
  rewrite Ec. clear Ec.
  assert (Hd : exists e2,
            calls (snd (isDone q s1)) = calls s1 ++ e2 /\
            count (receives Tick that) e2 = 0 /\
            count (receives Tick (oid a)) e2 = 0 /\
            count (receives Tick (oid b)) e2 = 0).
  { destruct (isDone_noTick that q q s1) as (e2 & E2 & C2).
    destruct (isDone_noTick (oid a) q q s1) as (e3 & E3 & C3).
    destruct (isDone_noTick (oid b) q q s1) as (e4 & E4 & C4).
    unfold isDone. rewrite E2 in E3, E4. apply app_inv_head in E3, E4. subst e3 e4.
    exists e2. now repeat split. }
  destruct Hd as (e2 & E2 & Dq & Da & Db).
  destruct (isDone_sequence_answer that span [a; b] q s1) as (r & s2 & HOk & HThrow).
  fold q in HOk, HThrow. unfold isDone in E2 |- *.
  destruct r as [[]|err].
  - rewrite (HOk eq_refl) in E2. cbn [snd] in E2.
    erewrite bind_Ok by exact (HOk eq_refl). unfold ret. cbn [fst snd].
    exists (e1 ++ e2). split; [rewrite E2, E1; now rewrite app_assoc|].
    rewrite !count_app. split; [lia|]. split; [lia|]. split; [lia|].
    intros Hagain. injection Hagain as Hagain.
    apply negb_true_iff in Hagain. cbn [position set_calls].
    destruct (readN (position s2) that) as [|[|p]]; [lia | lia | discriminate Hagain].
  - rewrite (HThrow err eq_refl) in E2. cbn [snd] in E2.
    erewrite bind_Throw by exact (HThrow err eq_refl). cbn [fst snd].
    exists (e1 ++ e2). split; [rewrite E2, E1; now rewrite app_assoc|].
    rewrite !count_app. split; [lia|]. split; [lia|]. split; [lia|].
    intros H. discriminate H.
Qed.

(** The scheduler, from a cursor on one of the two widgets: every tick of
    the sequence is received by exactly one of them, and as long as the
    scheduler goes on there is one at each timeout. *)
Lemma ticker_ticks n : forall s,
  readN (position s) that <= 1 ->
  exists evs,
    calls (snd (ticker n q s)) = calls s ++ evs /\
    count (receives Tick (oid a)) evs + count (receives Tick (oid b)) evs
      = count (receives Tick that) evs /\
    (fst (ticker n q s) = Ok Scheduled -> count (receives Tick that) evs = n).
Proof.
  induction n as [|n IH]; intros s Hp.
  - exists []. cbn. split; [now rewrite app_nil_r|]. now split.
  - destruct (callback_ticks s Hp) as (e1 & E1 & Cq & Ca & Cb & Hnext).
    destruct (callback q s) as [[[|]|err] s1] eqn:Ec; cbn [fst snd] in *.
    + rewrite (ticker_again n q s s1 Ec).
      destruct (IH s1 (Hnext eq_refl)) as (e2 & E2 & Cs & Cn).
      exists (e1 ++ e2). split; [rewrite E2, E1; now rewrite app_assoc|].
      rewrite !count_app. split.
      * destruct (readN (position s) that =? 0); lia.
      * intros Hs. specialize (Cn Hs). lia.
    + rewrite (ticker_done n q s s1 Ec).
      exists e1. split; [exact E1|]. split.
      * destruct (readN (position s) that =? 0); lia.
      * intros H. discriminate H.
    + assert (Et : ticker (S n) q s = (Throw err, s1)).
      { cbn [ticker]. now apply bind_Throw. }
      rewrite Et. exists e1. split; [exact E1|]. split.
      * destruct (readN (position s) that =? 0); lia.
      * intros H. discriminate H.
Qed.
End TicksOfTwo.

(** C5: [Sequence([a, b])] under the scheduler, for [a], [b] and the
    sequence three distinct objects, none of them closing over itself or
    over another of the three.
    - From the initial cursor 0, every tick that [b] receives comes after
      an [isDone()] of [a] that answered true.
    - Once the cursor has left [a], [a] receives no tick any more.
    - A [tick()] of the sequence is the [tick()] of the widget under the
      cursor.
    - While the cursor is on [a] or [b], every tick that the sequence
      receives is received by exactly one of [a] and [b], and the
      scheduler, as long as it goes on, delivers one at each timeout; so
      once [a] has completed and the cursor is on [b], all of the [n]
      ticks of [n] timeouts go to [b].
    - [isDone()] of the sequence is the skip-ahead loop from the cursor on
      (each child that answers true moves the cursor on by one, the first
      that answers false stops the loop), and then answers whether the
      cursor is out of range. *)
Theorem sequence_of_two that span a b s n :
  let q := ObjSequence that span [a; b] in
  ~ In that (ids a) -> ~ In that (ids b) ->
  ~ In (oid a) (ids b) -> ~ In (oid b) (ids a) ->
  ~ In (oid a) (below a) -> ~ In (oid b) (below b) ->
  (readN (position s) that = 0 ->
   waits (oid a) (oid b) false (since s (snd (ticker n q s))) = true) /\
  (1 <= readN (position s) that ->
   count (receives Tick (oid a)) (since s (snd (ticker n q s))) = 0) /\
  (forall w, [a; b] !! readN (position s) that = Some w ->
   tick q s = tick w (set_calls (calls s ++ [Call Tick that that]) s)) /\
  (readN (position s) that <= 1 ->
   count (receives Tick (oid a)) (since s (snd (ticker n q s)))
   + count (receives Tick (oid b)) (since s (snd (ticker n q s)))
   = count (receives Tick that) (since s (snd (ticker n q s))) /\
   (fst (ticker n q s) = Ok Scheduled ->
    count (receives Tick that) (since s (snd (ticker n q s))) = n)) /\
  (readN (position s) that = 1 -> fst (ticker n q s) = Ok Scheduled ->
   count (receives Tick (oid b)) (since s (snd (ticker n q s))) = n) /\
  isDone q s =
    (log (Call IsDone that that) ;;
     skipAhead that (drop (readN (position s) that) [a; b]) ;;
     p <- gets (fun s => readN (position s) that) ;;
     answer q (2 <=? p)) s.
Proof.
  intros q Ha Hb Hab Hba Haa Hbb.
  assert (Hleft : 1 <= readN (position s) that ->
            count (receives Tick (oid a)) (since s (snd (ticker n q s))) = 0).
  { intros Hp. destruct (ticker_steps n q s) as [cs Hcs]. rewrite Hcs.
    destruct (second_only_steps that span a b Ha Hb cs s s)
      as (_ & evs & Ec & F).
    { split; [exact Hp|]. exists []. split; [now rewrite app_nil_r | constructor]. }
    unfold since. fold q in Ec. rewrite Ec, drop_app_length.
    now apply (second_only_no_tick_for_a that a b Ha Hab). }
  assert (Hticks : readN (position s) that <= 1 ->
            count (receives Tick (oid a)) (since s (snd (ticker n q s)))
            + count (receives Tick (oid b)) (since s (snd (ticker n q s)))
            = count (receives Tick that) (since s (snd (ticker n q s))) /\
            (fst (ticker n q s) = Ok Scheduled ->
             count (receives Tick that) (since s (snd (ticker n q s))) = n)).
  { intros Hp.
    destruct (ticker_ticks that span a b Ha Hb Hab Hba Haa Hbb n s Hp)
      as (evs & Ec & Hsum & Hn).
    unfold since. fold q in Ec, Hn. rewrite Ec, drop_app_length. now split. }
  split; [|split; [exact Hleft|split; [|split; [exact Hticks|split]]]].
  - intros Hp. destruct (ticker_steps n q s) as [cs Hcs]. rewrite Hcs.
    destruct (first_then_second_steps that span a b Ha Hb Hba cs s s)
      as (evs & Ec & Hw & _).
    { exists []. split; [now rewrite app_nil_r|]. split; [reflexivity|]. lia. }
    unfold since. fold q in Ec. rewrite Ec, drop_app_length. exact Hw.
  - intros w Hw. unfold tick at 1. unfold q. rewrite tick_sequence. cbn [oid].
    now rewrite Hw.
  - intros Hp Hs. destruct Hticks as [Hsum Hn]; [lia|].
    specialize (Hn Hs). rewrite Hleft in Hsum by lia. lia.
  - apply (isDone_sequence that span [a; b] q s).
    repeat constructor; assumption.
Qed.

Lemma sequence_of_two_witness :
  let a := ObjAsciiAnimation 1 2 3 ab in
  let b := ObjAsciiAnimation 4 5 6 three in
  let q := ObjSequence 7 8 [a; b] in
  let s := two_animations_in_sequence in
  let s1 := snd (ticker 2 q s) in
  (~ In 7 (ids a) /\ ~ In 7 (ids b) /\ ~ In (oid a) (ids b) /\ ~ In (oid b) (ids a) /\
   ~ In (oid a) (below a) /\ ~ In (oid b) (below b)) /\
  readN (position s) 7 = 0 /\
  waits (oid a) (oid b) false (since s (snd (ticker 4 q s))) = true /\
  readN (position s1) 7 = 1 /\
  fst (ticker 2 q s1) = Ok Scheduled /\
  count (receives Tick (oid a)) (since s1 (snd (ticker 2 q s1))) = 0 /\
  count (receives Tick (oid b)) (since s1 (snd (ticker 2 q s1))) = 2.
Proof.
  intros a b q s s1.
  assert (Ha : ~ In 7 (ids a)) by (cbn; intros [H|[]]; discriminate H).
  assert (Hb : ~ In 7 (ids b)) by (cbn; intros [H|[]]; discriminate H).
  assert (Hab : ~ In (oid a) (ids b)) by (cbn; intros [H|[]]; discriminate H).
  assert (Hba : ~ In (oid b) (ids a)) by (cbn; intros [H|[]]; discriminate H).
  assert (Haa : ~ In (oid a) (below a)) by (cbn; tauto).
  assert (Hbb : ~ In (oid b) (below b)) by (cbn; tauto).
  assert (Hp : readN (position s) 7 = 0) by (vm_compute; reflexivity).
  assert (Hp1 : readN (position s1) 7 = 1) by (vm_compute; reflexivity).
  assert (Hs1 : fst (ticker 2 q s1) = Ok Scheduled) by (vm_compute; reflexivity).
  split; [now repeat split|]. split; [exact Hp|]. split.
  { exact (proj1 (sequence_of_two 7 8 a b s 4 Ha Hb Hab Hba Haa Hbb) Hp). }
  split; [exact Hp1|]. split; [exact Hs1|].
  destruct (sequence_of_two 7 8 a b s1 2 Ha Hb Hab Hba Haa Hbb)
    as (_ & Hleft & _ & _ & Hright & _).
  split; [apply Hleft; rewrite Hp1; lia | now apply Hright].
Defined.

(** ** RepeatIndefinitely *)





















(** ** The last run of a Repeat *)






(** * More of the program *)

(** ** AsciiAnimation, tick by tick *)

Lemma steps_tick k o s :
  steps (repeat DoTick (S k)) o s = steps (repeat DoTick k) o (snd (tick o s)).
Proof. reflexivity. Qed.

(** The constructor, when there is a first sprite. *)
Lemma AsciiAnimation_Some sprites first s0 :
  sprites !! 0 = Some first ->
  exists s,
    AsciiAnimation sprites s0 =
      (Ok (ObjAsciiAnimation (nextId s0) (S (nextId s0)) (S (S (nextId s0))) sprites),
       s) /\
    readN (animationFrame s) (nextId s0) = 0 /\
    readS (innerHTML s) (S (S (nextId s0))) = render first.
Proof.
  intros H0. unfold AsciiAnimation.
  do 5 (erewrite bind_Ok by reflexivity).
  erewrite bind_Ok by (apply useSprite_Some; exact H0).
  eexists. split; [reflexivity|]. cbn. split.
  - apply readN_insert_eq.
  - unfold readS. now rewrite lookup_insert_eq.
Qed.

Lemma ascii_ticks that span pre sprites lines k : forall s,
  sprites !! (readN (animationFrame s) that + k) = Some lines ->
  (k = 0 -> readS (innerHTML s) pre = render lines) ->
  let w := ObjAsciiAnimation that span pre sprites in
  let s' := steps (repeat DoTick k) w s in
  readN (animationFrame s') that = readN (animationFrame s) that + k /\
  readS (innerHTML s') pre = render lines.
Proof.
  induction k as [|k IH]; intros s Hl H0 w s'.
  - unfold s'. cbn. split; [lia | now apply H0].
  - unfold s'. rewrite steps_tick. unfold tick, w. rewrite tick_ascii. cbv zeta.
    assert (Hlt : readN (animationFrame s) that + 1 < length sprites).
    { apply lookup_lt_Some in Hl. lia. }
    destruct (lookup_lt_is_Some_2 sprites _ Hlt) as [l1 E1]. rewrite E1. cbn [snd].
    set (s1 := set_innerHTML _ _).
    assert (Hf1 : readN (animationFrame s1) that = readN (animationFrame s) that + 1).
    { unfold s1. cbn. apply readN_insert_eq. }
    destruct (IH s1) as [Hf Hh].
    + rewrite Hf1. now replace (readN (animationFrame s) that + 1 + k)
        with (readN (animationFrame s) that + S k) by lia.
    + intros ->. unfold s1. cbn. unfold readS. rewrite lookup_insert_eq. cbn.
      rewrite Nat.add_1_r in E1. rewrite Nat.add_1_r in Hl. congruence.
    + split; [|exact Hh]. unfold w. rewrite Hf, Hf1. lia.
Qed.

(** X1: an animation cannot be built from no sprite at all
    ([sprites[0]] is undefined: TypeError); built from a non-empty array
    of sprites whose lines are plain text, it shows the first sprite, and
    after [k] ticks, for [k] less than the number of sprites, its frame
    index is [k] and it shows sprite [k]. *)
Theorem ascii_shows_sprite sprites s0 w s k lines :
  Forall (Forall (fun line => plainText line = true)) sprites ->
  AsciiAnimation sprites s0 = (Ok w, s) ->
  sprites !! k = Some lines ->
  fst (AsciiAnimation [] s0) = Throw TypeError /\
  frameIndex w (steps (repeat DoTick k) w s) = k /\
  displayed w (steps (repeat DoTick k) w s) = render lines.
Proof.
  intros _ Hc Hk. split; [reflexivity|].
  assert (H0 : exists first, sprites !! 0 = Some first).
  { destruct sprites as [|first rest]; [now rewrite lookup_nil in Hk|]. now exists first. }
  destruct H0 as [first H0].
  destruct (AsciiAnimation_Some sprites first s0 H0) as (s1 & E & Hf & Hh).
  rewrite E in Hc. injection Hc as <- <-.
  destruct (ascii_ticks (nextId s0) (S (nextId s0)) (S (S (nextId s0)))
              sprites lines k s1) as [Hfk Hhk].
  - now rewrite Hf.
  - intros ->. rewrite Hh. congruence.
  - unfold frameIndex, displayed. cbn [oid]. rewrite Hfk, Hf. now split.
Qed.

Lemma ascii_shows_sprite_witness :
  let w := ObjAsciiAnimation 1 2 3 three in
  let s := snd (AsciiAnimation three empty_store) in
  Forall (Forall (fun line => plainText line = true)) three /\
  AsciiAnimation three empty_store = (Ok w, s) /\
  three !! 2 = Some ["c"%string] /\
  frameIndex w (steps (repeat DoTick 2) w s) = 2 /\
  displayed w (steps (repeat DoTick 2) w s) = render ["c"%string].
Proof.
  intros w s.
  assert (Hc : AsciiAnimation three empty_store = (Ok w, s)) by reflexivity.
  assert (Hk : three !! 2 = Some ["c"%string]) by reflexivity.
  assert (Hplain : Forall (Forall (fun line => plainText line = true)) three).
  { repeat constructor. }
  split; [exact Hplain|]. split; [exact Hc|]. split; [exact Hk|].
  apply (ascii_shows_sprite three empty_store w s 2 ["c"%string] Hplain Hc Hk).
Defined.

(** ** Repeat of an AsciiAnimation, any count *)

Lemma AsciiAnimation_Ok sprites s0 w s :
  AsciiAnimation sprites s0 = (Ok w, s) ->
  1 <= length sprites /\
  w = ObjAsciiAnimation (nextId s0) (S (nextId s0)) (S (S (nextId s0))) sprites /\
  readN (animationFrame s) (nextId s0) = 0.
Proof.
  intros Hc. destruct sprites as [|first rest]; [discriminate Hc|].
  destruct (AsciiAnimation_Some (first :: rest) first s0 eq_refl) as (s1 & E & Hf & _).
  rewrite E in Hc. injection Hc as <- <-. cbn [length]. repeat split; [lia | exact Hf].
Qed.

(** X2: a [Repeat(w, times)] of a freshly built animation [w] of [L]
    sprites, handed to [animation], is ticked at exactly
    [max(times, 0) * L + 1] timeouts: every earlier timeout sets the next
    one, and that one sets none.  A count of zero or below gives one
    timeout.  [times] is an integer that JavaScript counts down exactly,
    between [-2^53] and [2^53]. *)
Theorem repeat_ascii_schedule sprites z s0 w s1 r s :
  (- 2 ^ 53 <= z <= 2 ^ 53)%Z ->
  AsciiAnimation sprites s0 = (Ok w, s1) ->
  Repeat w z s1 = (Ok r, s) ->
  (forall m, m < Z.to_nat z * length sprites + 1 ->
     fst (ticker m r s) = Ok Scheduled) /\
  fst (ticker (Z.to_nat z * length sprites + 1) r s) = Ok Finished.
Proof.
  intros _ Hw Hr.
  destruct (AsciiAnimation_Ok _ _ _ _ Hw) as (HL & -> & Hf).
  unfold Repeat in Hr. cbv [bind newId modify ret gets] in Hr. cbn in Hr.
  injection Hr as <- <-.
  set (s2 := set_times _ _).
  assert (Hf2 : readN (animationFrame s2) (nextId s0) = 0) by exact Hf.
  assert (Ht2 : readZ (times s2) (nextId s1) = z).
  { unfold s2. cbn. apply readZ_insert_eq. }
  destruct (Z_lt_le_dec 0 z) as [Hz|Hz].
  - destruct (repeat_ascii_timeouts (nextId s1) (nextId s0) (S (nextId s0))
                (S (S (nextId s0))) sprites (Z.to_nat z) s2 Hf2) as [Hb Hl];
      [lia | exact HL |].
    split; [|exact Hl]. intros m Hm. apply Hb. lia.
  - replace (Z.to_nat z) with 0 by lia. cbn [Nat.mul Nat.add].
    destruct (callback_repeat_ascii (nextId s1) (nextId s0) (S (nextId s0))
                (S (S (nextId s0))) sprites s2) as (s' & Ec & _).
    rewrite Ht2 in Ec. replace (0 <? z)%Z with false in Ec by (symmetry; lia).
    split.
    + intros m Hm. replace m with 0 by lia. reflexivity.
    + now rewrite (ticker_done 0 _ _ _ Ec).
Qed.

Lemma repeat_ascii_schedule_witness :
  let w := ObjAsciiAnimation 1 2 3 three in
  let s1 := snd (AsciiAnimation three empty_store) in
  let r := ObjRepeat 4 w in
  let s := snd (Repeat w 2 s1) in
  (- 2 ^ 53 <= 2 <= 2 ^ 53)%Z /\
  (forall m, m < 7 -> fst (ticker m r s) = Ok Scheduled) /\
  fst (ticker 7 r s) = Ok Finished.
Proof.
  intros w s1 r s.
  assert (Hz : (- 2 ^ 53 <= 2 <= 2 ^ 53)%Z) by (split; vm_compute; discriminate).
  assert (Hw : AsciiAnimation three empty_store = (Ok w, s1)) by reflexivity.
  assert (Hr : Repeat w 2 s1 = (Ok r, s)) by reflexivity.
  split; [exact Hz|].
  exact (repeat_ascii_schedule three 2 empty_store w s1 r s Hz Hw Hr).
Defined.

(** ** Which calls can throw *)

Lemma succeeds_useSprite pre sprites i :
  i < length sprites -> succeeds (useSprite pre sprites i).
Proof.
  intros Hi. unfold useSprite. apply succeeds_bind; [apply succeeds_modify|].
  intros _. destruct (lookup_lt_is_Some_2 sprites i Hi) as [lines ->].
  apply succeeds_each. apply Forall_forall. intros line _. apply succeeds_modify.
Qed.

Lemma tick_succeeds o : forall this,
  sequenceFree o = true -> succeeds (tickFn o this).
Proof.
  induction o as [that el|that span pre sprites|that w IH|that w IH
                 |that span ws IH|that span w width IH|that span ws IH
                 |that span parent maxTime atTime IH] using obj_induction;
    intros this Hs; cbn [tickFn]; cbn [sequenceFree] in Hs; auto.
  - apply succeeds_modify.
  - apply succeeds_bind; [apply succeeds_modify|]. intros _.
    apply succeeds_bind; [apply succeeds_modify|]. intros _.
    apply succeeds_bind; [apply succeeds_gets|]. intros frame.
    destruct (frame <? length sprites) eqn:Hf; [|apply succeeds_ret].
    apply succeeds_useSprite. now apply Nat.ltb_lt.
  - apply succeeds_bind; [apply succeeds_modify|]. intros _.
    apply succeeds_each. rewrite forallb_forall in Hs.
    apply Forall_forall. intros w Hw. rewrite Forall_forall in IH.
    apply IH; [exact Hw|]. apply Hs. now apply list_elem_of_In.
  - discriminate Hs.
  - apply succeeds_bind; [apply succeeds_modify|]. intros _.
    apply succeeds_bind; [apply isDone_succeeds|]. intros d.
    destruct d; cbn [negb]; [apply succeeds_ret|].
    apply succeeds_bind; [apply succeeds_modify|]. intros _.
    apply succeeds_bind; [apply succeeds_modify|]. intros _.
    now apply IH.
Qed.

(** X3: [isDone()] and [reset()] never throw, whatever the widget and
    the state, and neither does [tick()] unless a [Sequence] is part of the
    widget: the index [widgets[position]] of [Sequence.tick] is the one
    place where a method call can fail.  A [Sequence] whose cursor is past
    the end does throw there. *)
Theorem only_sequence_tick_throws o this s :
  (exists d, fst (isDoneFn o this s) = Ok d) /\
  fst (resetFn o this s) = Ok tt /\
  (sequenceFree o = true -> fst (tickFn o this s) = Ok tt) /\
  (forall that span widgets,
     o = ObjSequence that span widgets ->
     length widgets <= readN (position s) that ->
     fst (tickFn o this s) = Throw TypeError).
Proof.
  repeat split.
  - apply isDone_succeeds.
  - destruct (reset_succeeds o this s) as [[] E]. exact E.
  - intros Hs. destruct (tick_succeeds o this Hs s) as [[] E]. exact E.
  - intros that span widgets -> Hp. rewrite tick_sequence.
    now rewrite (lookup_ge_None_2 widgets _ Hp).
Qed.

Lemma only_sequence_tick_throws_witness :
  let t := ObjStatic 1 2 in
  let a := ObjAsciiAnimation 3 4 5 ab in
  let q := ObjSequence 6 7 [t] in
  let s := set_position (<[6 := 1]> ∅) empty_store in
  fst (tickFn (ObjHorizontal 8 9 [ObjRepeat 10 a; t]) t s) = Ok tt /\
  fst (tickFn q q s) = Throw TypeError.
Proof.
  intros t a q s. split.
  - apply (only_sequence_tick_throws (ObjHorizontal 8 9 [ObjRepeat 10 a; t]) t s).
    reflexivity.
  - apply (only_sequence_tick_throws q q s) with (that := 6) (span := 7) (widgets := [t]).
    + reflexivity.
    + vm_compute. lia.
Defined.

(** ** RepeatIndefinitely under the scheduler *)

Lemma succeeds_Ok {A} (c : M A) s :
  succeeds c -> exists a s1, c s = (Ok a, s1).
Proof.
  intros Hc. destruct (Hc s) as [a E]. destruct (c s) as [r s1]. cbn in E.
  subst r. now exists a, s1.
Qed.

Lemma isDone_repeatIndefinitely_false that w this s :
  fst (isDoneFn (ObjRepeatIndefinitely that w) this s) = Ok false.
Proof.
  cbn [isDoneFn]. erewrite bind_Ok by reflexivity.
  destruct (succeeds_Ok (isDoneFn w w) (set_calls (calls s ++ [Call IsDone that (oid this)]) s)
              (isDone_succeeds w w)) as (d & s1 & E).
  erewrite bind_Ok by exact E.
  assert (Hr : succeeds (if d then resetFn w w else ret tt)).
  { destruct d; [apply reset_succeeds | apply succeeds_ret]. }
  destruct (succeeds_Ok _ s1 Hr) as ([] & s2 & E2).
  erewrite bind_Ok by exact E2. reflexivity.
Qed.

(** X4: an animation of [RepeatIndefinitely(w)] never stops when no
    [Sequence] is part of [w]: every timeout, however many went before,
    sets the next one. *)
Theorem repeatIndefinitely_never_stops that w n : forall s,
  sequenceFree w = true ->
  fst (ticker n (ObjRepeatIndefinitely that w) s) = Ok Scheduled.
Proof.
  induction n as [|n IH]; intros s Hw; [reflexivity|].
  set (r := ObjRepeatIndefinitely that w).
  destruct (succeeds_Ok (tick r) s (tick_succeeds r r Hw)) as ([] & s1 & Et).
  pose proof (isDone_repeatIndefinitely_false that w r s1) as Ed.
  fold r in Ed. destruct (isDoneFn r r s1) as [d s2] eqn:Ei. cbn in Ed. subst d.
  assert (Ec : callback r s = (Ok true, s2)).
  { unfold callback. erewrite bind_Ok by exact Et.
    unfold isDone. erewrite bind_Ok by exact Ei. reflexivity. }
  rewrite (ticker_again n r s s2 Ec). now apply IH.
Qed.

Lemma repeatIndefinitely_never_stops_witness :
  fst (ticker 9 (ObjRepeatIndefinitely 4 (ObjAsciiAnimation 1 2 3 three))
         (snd (AsciiAnimation three empty_store))) = Ok Scheduled.
Proof.
  apply (repeatIndefinitely_never_stops 4 (ObjAsciiAnimation 1 2 3 three) 9).
  reflexivity.
Defined.

(** ** What the element of a Sequence holds *)

Section Keeps.
Context {A : Type} (f : store -> A).
Hypothesis f_calls : forall l s, f (set_calls l s) = f s.
Hypothesis f_animationFrame : forall m s, f (set_animationFrame m s) = f s.
Hypothesis f_position : forall m s, f (set_position m s) = f s.
Hypothesis f_times : forall m s, f (set_times m s) = f s.
Hypothesis f_time : forall m s, f (set_time m s) = f s.
Hypothesis f_innerHTML : forall m s, f (set_innerHTML m s) = f s.
Hypothesis f_offset : forall m s, f (set_offset m s) = f s.

Let R (s s' : store) : Prop := f s' = f s.

Lemma keeps_tick o this s : f (snd (tickFn o this s)) = f s.
Proof.
  apply (preserves_tick R) with (Touch := fun _ => True);
    unfold R; first [ exact I | now intros k _ | congruence | auto ].
Qed.

Lemma keeps_isDone o this s : f (snd (isDoneFn o this s)) = f s.
Proof.
  apply (preserves_isDone R) with (Touch := fun _ => True);
    unfold R; first [ exact I | now intros k _ | congruence | auto ].
Qed.

Lemma keeps_reset o this s : f (snd (resetFn o this s)) = f s.
Proof.
  apply (preserves_reset R) with (Touch := fun _ => True);
    unfold R; first [ exact I | now intros k _ | congruence | auto ].
Qed.

Lemma keeps_invokeAll cs : forall s, f (invokeAll cs s) = f s.
Proof.
  induction cs as [|[[| |] o] cs IH]; intros s; [reflexivity| | |];
    unfold invokeAll in *; cbn [fold_left invoke]; rewrite IH.
  - apply keeps_tick.
  - apply keeps_isDone.
  - apply keeps_reset.
Qed.
End Keeps.

Lemma Sequence_Ok first rest s0 q s :
  Sequence (first :: rest) s0 = (Ok q, s) ->
  q = ObjSequence (nextId s0) (S (nextId s0)) (first :: rest) /\
  childNodes s !! S (nextId s0) = Some [getElement first] /\
  readN (position s) (nextId s0) = 0.
Proof.
  intros H. unfold Sequence in H.
  do 2 (erewrite bind_Ok in H by reflexivity).
  change ((first :: rest) !! 0) with (Some first) in H. cbv beta iota in H.
  do 2 (erewrite bind_Ok in H by reflexivity).
  injection H as <- <-. split; [reflexivity|]. split.
  - cbn. rewrite lookup_insert_eq. f_equal.
    rewrite lookup_fmap, lookup_insert_eq. reflexivity.
  - cbn. apply readN_insert_eq.
Qed.

(** X5: the element of a [Sequence] holds the element of its first widget
    and nothing else: that is its one child after construction, and after
    any calls of [tick()], [isDone()] and [reset()], also while a later
    widget is the one ticked.  The elements of the later widgets are never
    attached to it. *)
Theorem sequence_shows_first first rest s0 q s cs :
  Sequence (first :: rest) s0 = (Ok q, s) ->
  childNodes (invokeAll cs s) !! getElement q = Some [getElement first].
Proof.
  intros H. destruct (Sequence_Ok _ _ _ _ _ H) as (-> & Hc & _).
  assert (E : childNodes (invokeAll cs s) = childNodes s).
  { now apply (keeps_invokeAll childNodes). }
  rewrite E. exact Hc.
Qed.

Lemma sequence_shows_first_witness :
  let a := ObjAsciiAnimation 1 2 3 ab in
  let t := ObjStatic 4 5 in
  let q := ObjSequence 6 7 [a; t] in
  childNodes (invokeAll [(Tick, q); (IsDone, q); (Tick, q); (IsDone, q); (Tick, q)]
                two_in_sequence) !! 7 = Some [2].
Proof.
  intros a t q.
  assert (H : Sequence [a; t]
                (snd ((a <- AsciiAnimation ab ;; Textbox "x") empty_store))
              = (Ok q, two_in_sequence)) by (vm_compute; reflexivity).
  apply (sequence_shows_first a [t] _ q two_in_sequence
           [(Tick, q); (IsDone, q); (Tick, q); (IsDone, q); (Tick, q)] H).
Defined.

(** ** WithPadding is transparent *)

Lemma alike_useSprite pre sprites i :
  alike (useSprite pre sprites i) (useSprite pre sprites i).
Proof.
  unfold useSprite. apply alike_bind; [now apply alike_modify|]. intros _.
  destruct (sprites !! i) as [lines|]; [|apply alike_throw].
  apply alike_each. apply Forall_forall. intros line _. now apply alike_modify.
Qed.

(** The receiver of [tick] shows in the record of calls, and in the
    answer to [this.isDone()]. *)
Lemma tick_receiver o : forall this1 this2,
  alike (isDone this1) (isDone this2) ->
  alike (tickFn o this1) (tickFn o this2).
Proof.
  induction o as [that el|that span pre sprites|that w IH|that w IH
                 |that span ws IH|that span w width IH|that span ws IH
                 |that span parent maxTime atTime IH] using obj_induction;
    intros this1 this2 Hd; cbn [tickFn]; auto.
  - apply alike_log.
  - apply alike_bind; [apply alike_log|]. intros _.
    apply alike_bind; [now apply alike_modify|]. intros _.
    apply alike_bind; [now apply alike_gets|]. intros frame.
    destruct (frame <? length sprites); [apply alike_useSprite | apply alike_ret].
  - apply alike_bind; [apply alike_log|]. intros _.
    apply alike_each. eapply Forall_impl; [exact IH|].
    intros w Hw. apply Hw. apply isDone_receiver.
  - apply alike_bind; [apply alike_log|]. intros _.
    apply alike_bind; [now apply alike_gets|]. intros p.
    rewrite list_lookup_fmap. destruct (ws !! p) as [w|] eqn:Ew; cbn;
      [|apply alike_throw].
    eapply Forall_lookup_1 in IH; [|exact Ew]. apply IH. apply isDone_receiver.
  - apply alike_bind; [apply alike_log|]. intros _.
    apply alike_bind; [exact Hd|]. intros d.
    destruct d; cbn [negb]; [apply alike_ret|].
    apply alike_bind; [now apply alike_modify|]. intros _.
    apply alike_bind; [now apply alike_modify|]. intros _.
    apply IH. apply isDone_receiver.
Qed.

Lemma alike_ticker o1 o2 n :
  alike (tick o1) (tick o2) -> alike (isDone o1) (isDone o2) ->
  alike (ticker n o1) (ticker n o2).
Proof.
  intros Ht Hd. induction n as [|n IH]; cbn [ticker]; [apply alike_ret|].
  apply alike_bind.
  - unfold callback. apply alike_bind; [exact Ht|]. intros _.
    apply alike_bind; [exact Hd|]. intros d. apply alike_ret.
  - intros [|]; [exact IH | apply alike_ret].
Qed.

(** X6: [WithPadding(widget, width)] animates as [widget] does.  Its
    [tick()], [isDone()] and [reset()] are the wrapped widget's own, and
    calling them on the wrapper gives the results, and the changes to every
    variable and node, that calling them on [widget] gives; only the
    receiver recorded differs.  So [animation] stops for the one exactly
    when it stops for the other. *)
Theorem withPadding_transparent that span widget width :
  let padded := ObjWithPadding that span widget width in
  alike (tick padded) (tick widget) /\
  alike (isDone padded) (isDone widget) /\
  alike (reset padded) (reset widget) /\
  forall n s, fst (ticker n padded s) = fst (ticker n widget s).
Proof.
  intros padded.
  assert (Hd : alike (isDone padded) (isDone widget)).
  { unfold isDone, padded. cbn [isDoneFn]. apply isDone_receiver. }
  assert (Ht : alike (tick padded) (tick widget)).
  { unfold tick, padded. cbn [tickFn]. apply tick_receiver. exact Hd. }
  split; [exact Ht|]. split; [exact Hd|]. split.
  - unfold reset, padded. cbn [resetFn]. apply reset_receiver.
  - intros n s. now apply (alike_ticker padded widget n Ht Hd s s).
Qed.

(** ** The cursor of a Sequence *)

(** X7: the answer of a [Sequence] to [isDone()] tells where its cursor
    is.  After an answer true the cursor is at or past the end of the
    list, and a [tick()] of the sequence then throws a TypeError; after an
    answer false the cursor is on a widget of the list. *)
Theorem sequence_done_then_tick_throws that span widgets s :
  let q := ObjSequence that span widgets in
  let s' := snd (isDone q s) in
  (fst (isDone q s) = Ok true ->
     length widgets <= readN (position s') that /\
     fst (tick q s') = Throw TypeError) /\
  (fst (isDone q s) = Ok false ->
     exists w, widgets !! readN (position s') that = Some w).
Proof.
  intros q s'. unfold s', isDone.
  destruct (isDone_sequence_answer that span widgets q s) as (r & s1 & HOk & HThrow).
  unfold q in *. destruct r as [[]|e].
  - rewrite (HOk eq_refl). cbn [fst snd]. split; intros E; injection E as E.
    + apply Nat.leb_le in E. split; [exact E|].
      unfold tick. rewrite tick_sequence. cbn [position set_calls].
      now rewrite (lookup_ge_None_2 widgets _ E).
    + apply Nat.leb_gt in E. cbn [position set_calls].
      now apply lookup_lt_is_Some_2.
  - rewrite (HThrow e eq_refl). cbn [fst]. split; discriminate.
Qed.

Lemma sequence_done_then_tick_throws_witness :
  let t := ObjStatic 1 2 in
  let q := ObjSequence 3 4 [t] in
  let s := snd (Sequence [t] (snd (Textbox "x" empty_store))) in
  fst (isDone q s) = Ok true /\
  fst (tick q (snd (isDone q s))) = Throw TypeError.
Proof.
  intros t q s.
  assert (H : fst (isDone q s) = Ok true) by reflexivity.
  split; [exact H|].
  apply (sequence_done_then_tick_throws 3 4 [t] s). exact H.
Defined.

(** X8: [reset()] rewinds a [Sequence]: in whatever state it is called,
    also with the cursor past the end, it returns with the cursor at 0, and
    the next [tick()] is the first widget's [tick()]. *)
Theorem sequence_reset_rewinds that span first rest s :
  let q := ObjSequence that span (first :: rest) in
  let s' := snd (reset q s) in
  fst (reset q s) = Ok tt /\
  readN (position s') that = 0 /\
  tick q s' = tick first (set_calls (calls s' ++ [Call Tick that that]) s').
Proof.
  intros q s'.
  assert (E : exists s2, reset q s =
            (Ok tt, set_position (<[that := 0]> (position s2)) s2)).
  { unfold reset, q. cbn [resetFn]. erewrite bind_Ok by reflexivity.
    assert (He : succeeds (each (fun widget => resetFn widget widget) (first :: rest))).
    { apply succeeds_each. apply Forall_forall. intros w _. apply reset_succeeds. }
    destruct (succeeds_Ok _ (set_calls (calls s ++ [Call Reset that (oid q)]) s) He)
      as ([] & s2 & E2).
    fold q. erewrite bind_Ok by exact E2. now exists s2. }
  destruct E as [s2 E]. unfold s'. rewrite E. cbn [fst snd].
  assert (Hp : readN (position (set_position (<[that := 0]> (position s2)) s2)) that = 0).
  { cbn. apply readN_insert_eq. }
  split; [reflexivity|]. split; [exact Hp|].
  unfold tick at 1. unfold q. rewrite tick_sequence. rewrite Hp. reflexivity.
Qed.

(** ** The counter of a Repeat is never restored *)

Lemma isDone_times_le o this s : times_le s (snd (isDoneFn o this s)).
Proof.
  apply (preserves_isDone times_le times_le_refl times_le_trans (fun _ => True));
    first [ exact I
          | now intros k _
          | intros; apply times_le_decrement
          | intros; intros k'; cbn; lia ].
Qed.

Lemma reset_times_le o this s : times_le s (snd (resetFn o this s)).
Proof.
  apply (preserves_reset times_le times_le_refl times_le_trans (fun _ => True));
    first [ exact I
          | now intros k _
          | intros; apply times_le_decrement
          | intros; intros k'; cbn; lia ].
Qed.

Lemma invokeAll_times_le cs : forall s, times_le s (invokeAll cs s).
Proof.
  induction cs as [|[m o] cs IH]; intros s; [apply times_le_refl|].
  unfold invokeAll in *. cbn [fold_left].
  eapply times_le_trans; [|apply IH].
  destruct m; cbn [invoke].
  - apply tick_times_le.
  - apply isDone_times_le.
  - apply reset_times_le.
Qed.

(** X9: no call gives a [Repeat] its count back.  The counter of every
    [Repeat] only goes down, whatever methods are called, on whatever
    widgets, [reset()] included; so a [Repeat] whose counter has run out
    answers true to every later [isDone()], also after a [reset()] of it
    or of a widget it is part of. *)
Theorem repeat_stays_done that widget this cs s :
  (readZ (times s) that <= 0)%Z ->
  (forall k, (readZ (times (invokeAll cs s)) k <= readZ (times s) k)%Z) /\
  fst (isDoneFn (ObjRepeat that widget) this (invokeAll cs s)) = Ok true.
Proof.
  intros Hz. pose proof (invokeAll_times_le cs s) as Hle. split; [exact Hle|].
  rewrite isDone_repeat_exhausted; [reflexivity|].
  specialize (Hle that). lia.
Qed.

Lemma repeat_stays_done_witness :
  let a := ObjAsciiAnimation 1 2 3 three in
  let r := ObjRepeat 4 a in
  let o := ObjRepeatIndefinitely 5 r in
  let s := snd (ticker 7 r three_twice) in
  fst (isDone r (invokeAll [(Reset, r); (Tick, o); (IsDone, o); (Reset, o)] s))
  = Ok true.
Proof.
  intros a r o s.
  assert (Hz : (readZ (times s) 4 <= 0)%Z) by (vm_compute; discriminate).
  apply (repeat_stays_done 4 a r [(Reset, r); (Tick, o); (IsDone, o); (Reset, o)] s Hz).
Defined.

(** ** ChangingPosition: time only goes forward *)

Definition time_le (s s' : store) : Prop :=
  forall k, readN (time s) k <= readN (time s') k.

Lemma time_le_refl s : time_le s s.
Proof. intros k. lia. Qed.

Lemma time_le_trans s1 s2 s3 : time_le s1 s2 -> time_le s2 s3 -> time_le s1 s3.
Proof. intros H1 H2 k. specialize (H1 k). specialize (H2 k). lia. Qed.

Lemma time_le_increment k s :
  time_le s (set_time (<[k := readN (time s) k + 1]> (time s)) s).
Proof.
  intros k'. cbn. unfold readN. destruct (decide (k' = k)) as [->|Hne].
  - rewrite lookup_insert_eq. cbn. lia.
  - rewrite lookup_insert_ne by congruence. lia.
Qed.

Ltac time_le_atoms :=
  first [ exact I
        | now intros k _
        | intros; apply time_le_increment
        | intros; intros k'; cbn; lia ].

Lemma tick_time_le o this s : time_le s (snd (tickFn o this s)).
Proof.
  apply (preserves_tick time_le time_le_refl time_le_trans (fun _ => True));
    time_le_atoms.
Qed.

Lemma isDone_time_le o this s : time_le s (snd (isDoneFn o this s)).
Proof.
  apply (preserves_isDone time_le time_le_refl time_le_trans (fun _ => True));
    time_le_atoms.
Qed.

Lemma reset_time_le o this s : time_le s (snd (resetFn o this s)).
Proof.
  apply (preserves_reset time_le time_le_refl time_le_trans (fun _ => True));
    time_le_atoms.
Qed.

Lemma invokeAll_time_le cs : forall s, time_le s (invokeAll cs s).
Proof.
  induction cs as [|[m o] cs IH]; intros s; [apply time_le_refl|].
  unfold invokeAll in *. cbn [fold_left].
  eapply time_le_trans; [|apply IH].
  destruct m; cbn [invoke].
  - apply tick_time_le.
  - apply isDone_time_le.
  - apply reset_time_le.
Qed.

Lemma tick_changingPosition_done that span parent maxTime atTime s :
  (maxTime <= Z.of_nat (readN (time s) that))%Z ->
  let c := ObjChangingPosition that span parent maxTime atTime in
  tick c s =
  (Ok tt, set_calls (calls s ++ [Call Tick that that; Call IsDone that that;
                                 Ret that true]) s).
Proof.
  intros Hz c. unfold tick, c. cbn [tickFn]. erewrite bind_Ok by reflexivity.
  unfold isDone. erewrite bind_Ok by apply isDone_changingPosition.
  cbn [time set_calls].
  replace (maxTime <=? Z.of_nat (readN (time s) that))%Z with true
    by (symmetry; lia).
  cbn [negb]. unfold ret. cbn [oid set_calls calls]. rewrite <- app_assoc.
  now destruct s.
Qed.

(** X10: a [ChangingPosition] that is done stays done.  The time of every
    [ChangingPosition] only goes up, whatever is called, [reset()]
    included; so once [time >= maxTime], after any calls on any widgets,
    [isDone()] answers true and [tick()] does nothing: no variable or node
    changes and the wrapped widget is not ticked (the call and the
    question [this.isDone()] are all that is recorded). *)
Theorem changingPosition_stays_done that span parent maxTime atTime cs s :
  (maxTime <= Z.of_nat (readN (time s) that))%Z ->
  let c := ObjChangingPosition that span parent maxTime atTime in
  let s' := invokeAll cs s in
  (forall k, readN (time s) k <= readN (time s') k) /\
  fst (isDone c s') = Ok true /\
  tick c s' =
    (Ok tt, set_calls (calls s' ++ [Call Tick that that; Call IsDone that that;
                                    Ret that true]) s').
Proof.
  intros Hz c s'. pose proof (invokeAll_time_le cs s) as Hle. fold s' in Hle.
  assert (Hz' : (maxTime <= Z.of_nat (readN (time s') that))%Z).
  { specialize (Hle that). lia. }
  split; [exact Hle|]. split.
  - unfold isDone, c. rewrite isDone_changingPosition. cbn [fst].
    f_equal. lia.
  - now apply tick_changingPosition_done.
Qed.

Lemma changingPosition_stays_done_witness :
  let t := ObjStatic 1 2 in
  let f := fun time : nat => (Z.of_nat time * 5, Z.of_nat time * 10)%Z in
  let c := ObjChangingPosition 3 4 t 2 f in
  let s := snd (ticker 2 c (snd (ChangingPosition t 2 f (snd (Textbox "x" empty_store))))) in
  let s' := invokeAll [(Reset, c); (Tick, c)] s in
  fst (isDone c s') = Ok true /\
  tick c s' =
    (Ok tt, set_calls (calls s' ++ [Call Tick 3 3; Call IsDone 3 3; Ret 3 true]) s').
Proof.
  intros t f c s s'.
  assert (Hz : (2 <= Z.of_nat (readN (time s) 3))%Z) by (vm_compute; discriminate).
  apply (changingPosition_stays_done 3 4 t 2 f [(Reset, c); (Tick, c)] s Hz).
Defined.

(** ** ChangingPosition under the scheduler *)

Section OffsetFrame.
Variable node : nat.

Let R (s s' : store) : Prop := offset s' !! node = offset s !! node.

Let R_refl s : R s s.
Proof. reflexivity. Qed.

Let R_trans s1 s2 s3 : R s1 s2 -> R s2 s3 -> R s1 s3.
Proof. unfold R. congruence. Qed.

Lemma offset_modify f :
  (forall s, offset (f s) = offset s) -> preserves R (modify f).
Proof. intros Hf s. unfold R. cbn. now rewrite Hf. Qed.

Lemma offset_log e : preserves R (log e).
Proof. intros s. reflexivity. Qed.

Lemma offset_isDone o this : preserves R (isDoneFn o this).
Proof. intros s. unfold R. now rewrite (keeps_isDone offset). Qed.

(** [tick] writes the offsets of the nodes that the widget moves, and no
    other. *)
Lemma tick_keeps_offset o : forall this,
  ~ In node (movers o) -> preserves R (tickFn o this).
Proof.
  induction o as [that el|that span pre sprites|that w IH|that w IH
                 |that span ws IH|that span w width IH|that span ws IH
                 |that span parent maxTime atTime IH] using obj_induction;
    intros this Hn; cbn [tickFn]; cbn [movers] in Hn; auto.
  - apply (preserves_bind R R_trans); [apply offset_log|]. intros _.
    apply (preserves_bind R R_trans); [now apply offset_modify|]. intros _.
    apply (preserves_bind R R_trans); [apply (preserves_gets R R_refl)|].
    intros frame. destruct (frame <? length sprites);
      [|apply (preserves_ret R R_refl)].
    unfold useSprite.
    apply (preserves_bind R R_trans); [now apply offset_modify|]. intros _.
    destruct (sprites !! frame) as [lines|]; [|apply (preserves_throw R R_refl)].
    apply (preserves_each R R_refl R_trans). apply Forall_forall. intros line _.
    now apply offset_modify.
  - apply (preserves_bind R R_trans); [apply offset_log|]. intros _.
    apply (preserves_each R R_refl R_trans). rewrite Forall_forall in *.
    intros w Hw. apply IH; [exact Hw|]. intros Hin. apply Hn.
    apply in_flat_map. exists w. split; [now apply list_elem_of_In | exact Hin].
  - apply (preserves_bind R R_trans); [apply offset_log|]. intros _.
    apply (preserves_bind R R_trans); [apply (preserves_gets R R_refl)|].
    intros p. apply (preserves_lookup R R_refl). apply Forall_map.
    rewrite Forall_forall in *.
    intros w Hw. apply IH; [exact Hw|]. intros Hin. apply Hn.
    apply in_flat_map. exists w. split; [now apply list_elem_of_In | exact Hin].
  - apply (preserves_bind R R_trans); [apply offset_log|]. intros _.
    apply (preserves_bind R R_trans); [apply offset_isDone|]. intros d.
    destruct d; cbn [negb]; [apply (preserves_ret R R_refl)|].
    apply (preserves_bind R R_trans); [now apply offset_modify|]. intros _.
    apply (preserves_bind R R_trans).
    + intros s. unfold R, moveIt. cbn. apply lookup_insert_ne.
      intros ->. apply Hn. now left.
    + intros _. apply IH. intros Hin. apply Hn. now right.
Qed.
End OffsetFrame.

(** [tick] leaves alone the time of a [ChangingPosition] that is no part
    of the widget. *)
Lemma tick_keeps_time o that s :
  ~ In that (ids o) ->
  time (snd (tickFn o o s)) !! that = time s !! that.
Proof.
  intros Hn.
  apply (preserves_tick (fun s s' => time s' !! that = time s !! that))
    with (Touch := fun k => k <> that);
    first [ reflexivity
          | congruence
          | intros k s0 Hk; cbn; now apply lookup_insert_ne
          | intros k Hk ->; now apply Hn
          | intros; reflexivity ].
Qed.

Section ChangingPositionRun.
Variables (that span : nat) (parent : obj) (maxTime : Z) (atTime : nat -> Z * Z).
Hypothesis parent_free : sequenceFree parent = true.
Hypothesis that_fresh : ~ In that (ids parent).
Hypothesis span_fresh : ~ In span (movers parent).

Let c := ObjChangingPosition that span parent maxTime atTime.

(** One timeout, while [time < maxTime]. *)
Lemma callback_changingPosition s :
  (Z.of_nat (readN (time s) that) < maxTime)%Z ->
  exists s',
    callback c s = (Ok (negb (maxTime <=? Z.of_nat (readN (time s) that + 1))%Z), s') /\
    readN (time s') that = readN (time s) that + 1 /\
    offset s' !! span = Some (atTime (readN (time s) that + 1)).
Proof.
  intros Hlt.
  assert (Et : exists s4,
            tick c s = (Ok tt, s4) /\
            readN (time s4) that = readN (time s) that + 1 /\
            offset s4 !! span = Some (atTime (readN (time s) that + 1))).
  { unfold tick, c. cbn [tickFn]. erewrite bind_Ok by reflexivity.
    erewrite bind_Ok by (unfold isDone; apply isDone_changingPosition).
    cbn [time set_calls].
    replace (maxTime <=? Z.of_nat (readN (time s) that))%Z with false
      by (symmetry; lia).
    cbn [negb]. erewrite bind_Ok by reflexivity.
    erewrite bind_Ok by reflexivity.
    set (s3 := set_offset _ _).
    assert (Ht3 : readN (time s3) that = readN (time s) that + 1).
    { unfold s3. cbn. apply readN_insert_eq. }
    assert (Ho3 : offset s3 !! span = Some (atTime (readN (time s) that + 1))).
    { unfold s3. cbn. rewrite lookup_insert_eq. do 2 f_equal.
      apply readN_insert_eq. }
    destruct (succeeds_Ok (tickFn parent parent) s3
                (tick_succeeds parent parent parent_free)) as ([] & s4 & E4).
    pose proof (tick_keeps_time parent that s3 that_fresh) as Ht4.
    pose proof (tick_keeps_offset span parent parent span_fresh s3) as Ho4.
    rewrite E4 in Ht4, Ho4. cbn [fst snd] in *.
    exists s4. split; [exact E4|]. split.
    - unfold readN in *. now rewrite Ht4.
    - now rewrite Ho4. }
  destruct Et as (s4 & Et & Ht4 & Ho4).
  unfold callback. erewrite bind_Ok by exact Et.
  unfold isDone. erewrite bind_Ok by apply isDone_changingPosition.
  eexists. split; [|split].
  - unfold ret. now rewrite Ht4.
  - exact Ht4.
  - exact Ho4.
Qed.

Lemma changingPosition_run d : forall s,
  Z.of_nat (readN (time s) that + S d) = maxTime ->
  (forall j, j <= d -> fst (ticker j c s) = Ok Scheduled) /\
  fst (ticker (S d) c s) = Ok Finished /\
  (forall j, 1 <= j <= S d ->
     readN (time (snd (ticker j c s))) that = readN (time s) that + j /\
     offset (snd (ticker j c s)) !! span
       = Some (atTime (readN (time s) that + j))).
Proof.
  induction d as [|d IH]; intros s Hm.
  - destruct (callback_changingPosition s) as (s' & Ec & Ht & Ho); [lia|].
    replace (maxTime <=? Z.of_nat (readN (time s) that + 1))%Z with true in Ec
      by (symmetry; apply Z.leb_le; lia).
    cbn [negb] in Ec. split; [|split].
    + intros j Hj. replace j with 0 by lia. reflexivity.
    + now rewrite (ticker_done 0 c s s' Ec).
    + intros j Hj. replace j with 1 by lia.
      rewrite (ticker_done 0 c s s' Ec). cbn [snd]. now split.
  - destruct (callback_changingPosition s) as (s' & Ec & Ht & Ho); [lia|].
    replace (maxTime <=? Z.of_nat (readN (time s) that + 1))%Z with false in Ec
      by (symmetry; apply Z.leb_gt; lia).
    cbn [negb] in Ec.
    destruct (IH s') as (Hs & Hf & Hp); [rewrite Ht; lia|].
    split; [|split].
    + intros [|j] Hj; [reflexivity|].
      rewrite (ticker_again j c s s' Ec). apply Hs. lia.
    + now rewrite (ticker_again (S d) c s s' Ec).
    + intros [|[|j]] Hj; [lia| |].
      * rewrite (ticker_again 0 c s s' Ec). cbn [ticker ret snd]. now split.
      * rewrite (ticker_again (S j) c s s' Ec).
        destruct (Hp (S j)) as [Hpt Hpo]; [lia|].
        rewrite Hpt, Hpo, Ht. split; [lia|]. do 2 f_equal. lia.
Qed.
End ChangingPositionRun.

Lemma ChangingPosition_Ok parent maxTime atTime s0 c s :
  ChangingPosition parent maxTime atTime s0 = (Ok c, s) ->
  c = ObjChangingPosition (nextId s0) (S (nextId s0)) parent maxTime atTime /\
  readN (time s) (nextId s0) = 0 /\
  offset s !! S (nextId s0) = Some (atTime 0).
Proof.
  intros H. unfold ChangingPosition in H.
  do 5 (erewrite bind_Ok in H by reflexivity).
  injection H as <- <-. split; [reflexivity|]. split.
  - cbn. apply readN_insert_eq.
  - cbn. rewrite lookup_insert_eq. do 2 f_equal. apply readN_insert_eq.
Qed.

(** X11: a widget [parent] without a [Sequence] inside, given a changing
    position for [maxTime] steps, and handed to [animation]: the timeouts
    number exactly [maxTime]; each of them but the last sets the next one;
    and after [j] of them ([j = 0] for the constructor alone) the element
    is placed at [atTime(j)].  [maxTime] is an integer from 1 to [2^53],
    up to which JavaScript counts [time] exactly.  [parent] and all it is
    made of were created before the constructor was called. *)
Theorem changingPosition_schedule parent maxTime atTime s0 c s :
  ChangingPosition parent maxTime atTime s0 = (Ok c, s) ->
  sequenceFree parent = true ->
  Forall (fun k => k < nextId s0) (ids parent) ->
  Forall (fun k => k < nextId s0) (movers parent) ->
  (1 <= maxTime <= 2 ^ 53)%Z ->
  (forall j, j < Z.to_nat maxTime -> fst (ticker j c s) = Ok Scheduled) /\
  fst (ticker (Z.to_nat maxTime) c s) = Ok Finished /\
  (forall j, j <= Z.to_nat maxTime ->
     offset (snd (ticker j c s)) !! getElement c = Some (atTime j)).
Proof.
  intros Hc Hfree Hids Hmov [Hmax _].
  destruct (ChangingPosition_Ok _ _ _ _ _ _ Hc) as (-> & Ht & Ho).
  assert (Hthat : ~ In (nextId s0) (ids parent)).
  { intros Hin. rewrite Forall_forall in Hids.
    apply list_elem_of_In, Hids in Hin. lia. }
  assert (Hspan : ~ In (S (nextId s0)) (movers parent)).
  { intros Hin. rewrite Forall_forall in Hmov.
    apply list_elem_of_In, Hmov in Hin. lia. }
  destruct (changingPosition_run (nextId s0) (S (nextId s0)) parent maxTime atTime
              Hfree Hthat Hspan (Z.to_nat maxTime - 1) s) as (Hs & Hf & Hp).
  { rewrite Ht. lia. }
  replace (S (Z.to_nat maxTime - 1)) with (Z.to_nat maxTime) in * by lia.
  split; [|split].
  - intros j Hj. apply Hs. lia.
  - exact Hf.
  - intros [|j] Hj; [exact Ho|]. cbn [getElement].
    destruct (Hp (S j)) as [_ Hpo]; [lia|]. rewrite Hpo, Ht. reflexivity.
Qed.

Lemma changingPosition_schedule_witness :
  let t := ObjStatic 1 2 in
  let f := fun time : nat => (Z.of_nat time * 5, Z.of_nat time * 10)%Z in
  let s0 := snd (Textbox ":-)" empty_store) in
  let c := ObjChangingPosition 3 4 t 10 f in
  let s := snd (ChangingPosition t 10 f s0) in
  (forall j, j < 10 -> fst (ticker j c s) = Ok Scheduled) /\
  fst (ticker 10 c s) = Ok Finished /\
  (forall j, j <= 10 -> offset (snd (ticker j c s)) !! 4 = Some (f j)).
Proof.
  intros t f s0 c s.
  assert (Hc : ChangingPosition t 10 f s0 = (Ok c, s)) by reflexivity.
  assert (Hfree : sequenceFree t = true) by reflexivity.
  assert (Hids : Forall (fun k => k < nextId s0) (ids t)).
  { repeat constructor. }
  assert (Hmov : Forall (fun k => k < nextId s0) (movers t)).
  { constructor. }
  assert (Hmax : (1 <= 10 <= 2 ^ 53)%Z) by (split; vm_compute; discriminate).
  exact (changingPosition_schedule t 10 f s0 c s Hc Hfree Hids Hmov Hmax).
Defined.

(** ** Horizontal: animations side by side *)

Lemma tick_ascii_frame that span pre sprites this s :
  exists s1,
    tickFn (ObjAsciiAnimation that span pre sprites) this s = (Ok tt, s1) /\
    animationFrame s1 = <[that := readN (animationFrame s) that + 1]> (animationFrame s).
Proof.
  rewrite tick_ascii. cbv zeta.
  destruct (sprites !! (readN (animationFrame s) that + 1));
    eexists; split; reflexivity.
Qed.

Lemma tick_all_animations ws : forall s,
  forallb isAsciiAnimation ws = true ->
  NoDup (map oid ws) ->
  exists s',
    each (fun widget => tickFn widget widget) ws s = (Ok tt, s') /\
    forall k, readN (animationFrame s') k =
              if decide (k ∈ map oid ws) then readN (animationFrame s) k + 1
              else readN (animationFrame s) k.
Proof.
  induction ws as [|w ws IH]; intros s Ha Hn.
  - exists s. split; [reflexivity|]. intros k. now destruct (decide _).
  - cbn [forallb] in Ha. apply andb_prop in Ha as [Hw Ha].
    destruct w as [| a span pre sprites | | | | | |]; try discriminate Hw.
    cbn [map oid] in Hn. apply NoDup_cons in Hn as [Hnotin Hn].
    destruct (tick_ascii_frame a span pre sprites
                (ObjAsciiAnimation a span pre sprites) s) as (s1 & E1 & F1).
    destruct (IH s1 Ha Hn) as (s' & E' & F').
    exists s'. split.
    + cbn [each]. erewrite bind_Ok by exact E1. exact E'.
    + intros k. rewrite F'. cbn [map oid]. rewrite F1.
      destruct (decide (k = a)) as [->|Hne].
      * rewrite readN_insert_eq.
        destruct (decide (a ∈ map oid ws)) as [Hin|_]; [contradiction|].
        destruct (decide (a ∈ a :: map oid ws)) as [_|Hout]; [reflexivity|].
        exfalso. apply Hout. now left.
      * unfold readN at 1 3. rewrite lookup_insert_ne by congruence.
        fold (readN (animationFrame s) k).
        destruct (decide (k ∈ map oid ws)) as [Hin|Hout];
          destruct (decide (k ∈ a :: map oid ws)) as [Hin'|Hout'];
          try reflexivity.
        -- exfalso. apply Hout'. now right.
        -- exfalso. apply elem_of_cons in Hin' as [->|Hin'];
             [now apply Hne | now apply Hout].
Qed.

Lemma isDone_all_animations ws : forall acc s,
  forallb isAsciiAnimation ws = true ->
  exists s',
    reduce (fun widget b => d <- isDoneFn widget widget ;; ret (d && b)) acc ws s
    = (Ok (forallb (fun w => spriteCount w <=? frameIndex w s) ws && acc), s') /\
    animationFrame s' = animationFrame s.
Proof.
  induction ws as [|w ws IH]; intros acc s Ha.
  - exists s. now split.
  - cbn [forallb] in Ha. apply andb_prop in Ha as [Hw Ha].
    destruct w as [| a span pre sprites | | | | | |]; try discriminate Hw.
    cbn [reduce].
    erewrite bind_Ok by (erewrite bind_Ok by apply isDone_ascii; reflexivity).
    destruct (IH (((length sprites <=? readN (animationFrame s) a)) && acc)
                (set_calls (calls s ++ [Call IsDone a a;
                   Ret a (length sprites <=? readN (animationFrame s) a)]) s) Ha)
      as (s' & E' & F').
    exists s'. split; [|exact F'].
    cbn [oid] in E' |- *. rewrite E'. do 2 f_equal.
    cbn [forallb spriteCount]. unfold frameIndex. cbn [oid animationFrame set_calls].
    destruct (length sprites <=? readN (animationFrame s) a), acc;
      now rewrite ?andb_true_r, ?andb_false_r.
Qed.

Lemma forallb_spriteCount ws j :
  forallb (fun w => spriteCount w <=? j) ws
  = (list_max (map spriteCount ws) <=? j).
Proof.
  induction ws as [|w ws IH]; [reflexivity|].
  cbn [forallb map list_max fold_right]. rewrite IH.
  fold (list_max (map spriteCount ws)).
  destruct (Nat.leb_spec (spriteCount w) j), (Nat.leb_spec (list_max (map spriteCount ws)) j),
    (Nat.leb_spec (Init.Nat.max (spriteCount w) (list_max (map spriteCount ws))) j);
    try reflexivity; lia.
Qed.

Section HorizontalAnimations.
Variables (that span : nat) (ws : list obj).
Hypothesis all_animations : forallb isAsciiAnimation ws = true.
Hypothesis apart : NoDup (map oid ws).

Let h := ObjHorizontal that span ws.

(** One timeout, all animations being at frame index [k]. *)
Lemma callback_horizontal_animations k s :
  Forall (fun w => frameIndex w s = k) ws ->
  exists s',
    callback h s = (Ok (negb (list_max (map spriteCount ws) <=? k + 1)), s') /\
    Forall (fun w => frameIndex w s' = k + 1) ws.
Proof.
  intros Hk.
  destruct (tick_all_animations ws (set_calls (calls s ++ [Call Tick that that]) s)
              all_animations apart) as (s1 & E1 & F1).
  assert (Hk1 : Forall (fun w => frameIndex w s1 = k + 1) ws).
  { rewrite Forall_forall in *. intros w Hw. unfold frameIndex. rewrite F1.
    destruct (decide _) as [_|Hout].
    - cbn [animationFrame set_calls]. specialize (Hk w Hw).
      unfold frameIndex in Hk. now rewrite Hk.
    - exfalso. apply Hout. apply list_elem_of_In, in_map. now apply list_elem_of_In. }
  destruct (isDone_all_animations ws true
              (set_calls (calls s1 ++ [Call IsDone that that]) s1) all_animations)
    as (s2 & E2 & F2).
  assert (Hb : forallb (fun w => spriteCount w <=?
                 frameIndex w (set_calls (calls s1 ++ [Call IsDone that that]) s1)) ws
               = (list_max (map spriteCount ws) <=? k + 1)).
  { rewrite <- forallb_spriteCount. clear - Hk1.
    induction Hk1 as [|w l Hw Hl IH]; [reflexivity|].
    cbn [forallb]. rewrite IH. f_equal. unfold frameIndex in *.
    cbn [animationFrame set_calls]. now rewrite Hw. }
  rewrite Hb, andb_true_r in E2.
  eexists. split.
  - unfold callback, tick, isDone, h. cbn [tickFn isDoneFn oid].
    erewrite bind_Ok by (erewrite bind_Ok by reflexivity; exact E1).
    erewrite bind_Ok.
    2:{ erewrite bind_Ok by reflexivity. erewrite bind_Ok by exact E2. reflexivity. }
    reflexivity.
  - rewrite Forall_forall in *. intros w Hw. specialize (Hk1 w Hw).
    unfold frameIndex in *. cbn [animationFrame set_calls]. now rewrite F2.
Qed.

Lemma horizontal_animations_run d : forall k s,
  Forall (fun w => frameIndex w s = k) ws ->
  k + S d = Nat.max 1 (list_max (map spriteCount ws)) ->
  (forall m, m <= d -> fst (ticker m h s) = Ok Scheduled) /\
  fst (ticker (S d) h s) = Ok Finished.
Proof.
  induction d as [|d IH]; intros k s Hk Hd;
    destruct (callback_horizontal_animations k s Hk) as (s' & Ec & Hk').
  - replace (list_max (map spriteCount ws) <=? k + 1) with true in Ec
      by (symmetry; apply Nat.leb_le; lia).
    cbn [negb] in Ec. split.
    + intros m Hm. replace m with 0 by lia. reflexivity.
    + now rewrite (ticker_done 0 h s s' Ec).
  - replace (list_max (map spriteCount ws) <=? k + 1) with false in Ec
      by (symmetry; apply Nat.leb_gt; lia).
    cbn [negb] in Ec. destruct (IH (k + 1) s' Hk') as [Hs Hf]; [lia|].
    split.
    + intros [|m] Hm; [reflexivity|].
      rewrite (ticker_again m h s s' Ec). apply Hs. lia.
    + now rewrite (ticker_again (S d) h s s' Ec).
Qed.
End HorizontalAnimations.

(** X12: animations side by side run as long as the longest.  A
    [Horizontal] of [AsciiAnimation]s, all distinct objects at frame index
    0, handed to [animation], is ticked at exactly as many timeouts as the
    greatest number of sprites among them, and at one timeout when the
    list is empty. *)
Theorem horizontal_animations_schedule that span ws s :
  forallb isAsciiAnimation ws = true ->
  NoDup (map oid ws) ->
  Forall (fun w => frameIndex w s = 0) ws ->
  let h := ObjHorizontal that span ws in
  let longest := Nat.max 1 (list_max (map spriteCount ws)) in
  (forall m, m < longest -> fst (ticker m h s) = Ok Scheduled) /\
  fst (ticker longest h s) = Ok Finished.
Proof.
  intros Ha Hn H0 h longest.
  destruct (horizontal_animations_run that span ws Ha Hn (longest - 1) 0 s H0)
    as [Hs Hf]; [unfold longest; lia|].
  replace (S (longest - 1)) with longest in Hf by (unfold longest; lia).
  split; [|exact Hf]. intros m Hm. apply Hs. lia.
Qed.

Lemma horizontal_animations_schedule_witness :
  let a := ObjAsciiAnimation 1 2 3 ab in
  let b := ObjAsciiAnimation 4 5 6 three in
  let h := ObjHorizontal 7 8 [a; b] in
  let s := snd ((AsciiAnimation ab ;; AsciiAnimation three ;; Horizontal [a; b])
                  empty_store) in
  (forall m, m < 3 -> fst (ticker m h s) = Ok Scheduled) /\
  fst (ticker 3 h s) = Ok Finished.
Proof.
  intros a b h s.
  assert (Ha : forallb isAsciiAnimation [a; b] = true) by reflexivity.
  assert (Hn : NoDup (map oid [a; b])).
  { cbn. apply NoDup_cons. split; [|apply NoDup_singleton].
    intros Hin. apply list_elem_of_In in Hin. destruct Hin as [Hin|[]]. discriminate Hin. }
  assert (H0 : Forall (fun w => frameIndex w s = 0) [a; b]).
  { repeat constructor. }
  exact (horizontal_animations_schedule 7 8 [a; b] s Ha Hn H0).
Defined.

(** ** The array functionals *)

(** The functionals in the spec's words: visit the elements first to
    last, collecting the results. *)
Fixpoint visit {A B} (f : A -> M B) (a : list A) : M (list B) :=
  match a with
  | [] => ret []
  | x :: a' => y <- f x ;; ys <- visit f a' ;; ret (y :: ys)
  end.

(** The elements of [a] whose flag in [keeps] is true. *)
Fixpoint kept {A} (keeps : list bool) (a : list A) : list A :=
  match keeps, a with
  | keep :: keeps', x :: a' => if keep then x :: kept keeps' a' else kept keeps' a'
  | _, _ => []
  end.

Lemma map_loop_visit {A B} (f : A -> M B) rest : forall output s,
  ArrayPrototype.map_loop f rest output s
  = (ys <- visit f rest ;; ret (output ++ ys)) s.
Proof.
  induction rest as [|x rest IH]; intros output s.
  - cbn. unfold bind, ret. now rewrite app_nil_r.
  - cbn [ArrayPrototype.map_loop visit]. cbv [bind ret].
    destruct (f x s) as [[y|e] s1]; [|reflexivity].
    rewrite IH. cbv [bind ret].
    destruct (visit f rest s1) as [[ys|e] s2]; [|reflexivity].
    now rewrite <- app_assoc.
Qed.

Lemma visit_pure {A B} (g : A -> B) a s :
  visit (fun x => ret (g x)) a s = (Ok (List.map g a), s).
Proof.
  induction a as [|x a IH]; [reflexivity|].
  cbn [visit List.map]. erewrite bind_Ok by reflexivity.
  erewrite bind_Ok by exact IH. reflexivity.
Qed.

Lemma visit_length {A B} (f : A -> M B) a : forall s ys s',
  visit f a s = (Ok ys, s') -> length ys = length a.
Proof.
  induction a as [|x a IH]; intros s ys s' H.
  - injection H as <- _. reflexivity.
  - cbn [visit] in H. cbv [bind ret] in H.
    destruct (f x s) as [[y|e] s1]; [|discriminate H].
    destruct (visit f a s1) as [[ys'|e] s2] eqn:E; [|discriminate H].
    injection H as <- _. cbn. f_equal. eapply IH. exact E.
Qed.

Lemma visit_app {A B} (f : A -> M B) a b s :
  visit f (a ++ b) s
  = (ys <- visit f a ;; zs <- visit f b ;; ret (ys ++ zs)) s.
Proof.
  revert s. induction a as [|x a IH]; intros s.
  - cbn [app visit]. cbv [bind ret].
    destruct (visit f b s) as [[zs|e] s1]; reflexivity.
  - cbn [app visit]. cbv [bind ret].
    destruct (f x s) as [[y|e] s1]; [|reflexivity].
    rewrite IH. cbv [bind ret].
    destruct (visit f a s1) as [[ys|e] s2]; [|reflexivity].
    destruct (visit f b s2) as [[zs|e] s3]; reflexivity.
Qed.

(** X13: [map] calls [f] on the elements first to last and returns the
    results in that order: it is the element-by-element visit, whatever
    [f] does to the store, and it throws when a call of [f] throws, without
    calling [f] again.  So a result has the length of the array; on [a]
    followed by [b] it is [map] on [a], then on [b]; and for an [f] that
    only computes [g], the result is [g] applied to every element, the
    store unchanged. *)
Theorem array_map {A B} (f : A -> M B) (g : A -> B) (a b : list A) (s : store) :
  ArrayPrototype.map f a s = visit f a s /\
  (forall ys s', ArrayPrototype.map f a s = (Ok ys, s') -> length ys = length a) /\
  ArrayPrototype.map f (a ++ b) s
    = (ys <- ArrayPrototype.map f a ;; zs <- ArrayPrototype.map f b ;;
       ret (ys ++ zs)) s /\
  ArrayPrototype.map (fun x => ret (g x)) a s = (Ok (List.map g a), s).
Proof.
  assert (E : forall (h : A -> M B) l t, ArrayPrototype.map h l t = visit h l t).
  { intros h l t. unfold ArrayPrototype.map. rewrite map_loop_visit.
    unfold bind. destruct (visit h l t) as [[ys|e] s1]; reflexivity. }
  split; [apply E|]. split; [|split].
  - intros ys s' H. rewrite E in H. eapply visit_length. exact H.
  - rewrite E, visit_app. unfold bind. rewrite E.
    destruct (visit f a s) as [[ys|e] s1]; [|reflexivity]. now rewrite E.
  - rewrite E. apply visit_pure.
Qed.

Lemma filter_loop_visit {A} (f : A -> M bool) rest : forall output s,
  ArrayPrototype.filter_loop f rest output s
  = (keeps <- visit f rest ;; ret (output ++ kept keeps rest)) s.
Proof.
  induction rest as [|x rest IH]; intros output s.
  - cbn. unfold bind, ret. now rewrite app_nil_r.
  - cbn [ArrayPrototype.filter_loop visit]. cbv [bind ret].
    destruct (f x s) as [[keep|e] s1]; [|reflexivity].
    rewrite IH. cbv [bind ret].
    destruct (visit f rest s1) as [[keeps|e] s2]; [|reflexivity].
    cbn [kept]. destruct keep; [now rewrite <- app_assoc | reflexivity].
Qed.

Lemma kept_sublist {A} (a : list A) : forall keeps, sublist (kept keeps a) a.
Proof.
  induction a as [|x a IH]; intros [|keep keeps]; cbn [kept];
    try apply sublist_nil_l.
  destruct keep; [apply sublist_skip | apply sublist_cons]; apply IH.
Qed.

Lemma kept_filter {A} (p : A -> bool) a : kept (List.map p a) a = List.filter p a.
Proof.
  induction a as [|x a IH]; [reflexivity|]. cbn. rewrite IH. reflexivity.
Qed.

(** X14: [filter] asks [f] about the elements first to last, every one of
    them, and returns those for which the answer was true, in the order of
    the array.  So a result is a sublist of the array, and for an [f] that
    only computes [p], it is the elements that satisfy [p], the store
    unchanged. *)
Theorem array_filter {A} (f : A -> M bool) (p : A -> bool) (a : list A) (s : store) :
  ArrayPrototype.filter f a s = (keeps <- visit f a ;; ret (kept keeps a)) s /\
  (forall out s', ArrayPrototype.filter f a s = (Ok out, s') -> sublist out a) /\
  ArrayPrototype.filter (fun x => ret (p x)) a s = (Ok (List.filter p a), s).
Proof.
  assert (E : forall (h : A -> M bool) t,
            ArrayPrototype.filter h a t = (keeps <- visit h a ;; ret (kept keeps a)) t).
  { intros h t. unfold ArrayPrototype.filter. now rewrite filter_loop_visit. }
  split; [apply E|]. split.
  - intros out s' H. rewrite E in H. cbv [bind ret] in H.
    destruct (visit f a s) as [[keeps|e] s1]; [|discriminate H].
    injection H as <- _. apply kept_sublist.
  - rewrite E. erewrite bind_Ok by apply visit_pure.
    unfold ret. now rewrite kept_filter.
Qed.

Lemma reduce_app {A B} (f : A -> B -> M B) a b : forall acc s,
  reduce f acc (a ++ b) s = (acc' <- reduce f acc a ;; reduce f acc' b) s.
Proof.
  induction a as [|x a IH]; intros acc s; [reflexivity|].
  cbn [app reduce]. cbv [bind].
  destruct (f x acc s) as [[acc1|e] s1]; [|reflexivity].
  rewrite IH. reflexivity.
Qed.

(** X15: [reduce] as this file defines it folds from the first element to
    the last, and calls [f] with the element first and the accumulator
    second.  On [a] followed by [b] it is [reduce] on [a], then [reduce]
    on [b] from what that gave; on the empty array it gives [acc] and
    calls nothing; and for an [f] that only computes [g] it is the left
    fold of [fun acc x => g x acc]. *)
Theorem array_reduce {A B} (f : A -> B -> M B) (g : A -> B -> B)
    (a b : list A) (acc : B) (s : store) :
  reduce f acc (a ++ b) s = (acc' <- reduce f acc a ;; reduce f acc' b) s /\
  reduce f acc [] s = (Ok acc, s) /\
  reduce (fun x acc => ret (g x acc)) acc a s
    = (Ok (fold_left (fun acc x => g x acc) a acc), s).
Proof.
  split; [apply reduce_app|]. split; [reflexivity|].
  revert acc. induction a as [|x a IH]; intros acc; [reflexivity|].
  cbn [reduce fold_left]. erewrite bind_Ok by reflexivity. apply IH.
Qed.

Lemma foreach_app {A} (f : A -> M unit) a b : forall s,
  ArrayPrototype.foreach f (a ++ b) s
  = (ArrayPrototype.foreach f a ;; ArrayPrototype.foreach f b) s.
Proof.
  induction a as [|x a IH]; intros s; [reflexivity|].
  cbn [app ArrayPrototype.foreach]. cbv [bind].
  destruct (f x s) as [[[]|e] s1]; [|reflexivity].
  rewrite IH. reflexivity.
Qed.

(** X16: [foreach] calls [f] on the elements first to last and stops at
    the first call that throws: when [f] has returned for the elements of
    [a] and throws for [x], the call on [a], [x] and then [b] throws the
    same error and leaves the store as that call of [f] left it, whatever
    [b] is; and when [f] returns for the elements of [b] as well, the call
    on [a] and then [b] returns, having visited them all. *)
Theorem array_foreach {A} (f : A -> M unit) (a b : list A) (x : A) (s s1 s2 : store) e :
  ArrayPrototype.foreach f a s = (Ok tt, s1) ->
  f x s1 = (Throw e, s2) ->
  ArrayPrototype.foreach f (a ++ x :: b) s = (Throw e, s2) /\
  (forall s3, ArrayPrototype.foreach f b s1 = (Ok tt, s3) ->
     ArrayPrototype.foreach f (a ++ b) s = (Ok tt, s3)).
Proof.
  intros Ha Hx. split.
  - rewrite foreach_app. erewrite bind_Ok by exact Ha.
    cbn [ArrayPrototype.foreach]. now apply bind_Throw.
  - intros s3 Hb. rewrite foreach_app. erewrite bind_Ok by exact Ha. exact Hb.
Qed.

Lemma array_foreach_witness :
  let t := ObjStatic 1 2 in
  let q := ObjSequence 3 4 [t] in
  let s := snd (isDone q (snd (Sequence [t] (snd (Textbox "x" empty_store))))) in
  ArrayPrototype.foreach tick [t; q; t] s
  = (Throw TypeError, snd (tick q (snd (tick t s)))).
Proof.
  intros t q s.
  assert (Ha : ArrayPrototype.foreach tick [t] s = (Ok tt, snd (tick t s)))
    by (vm_compute; reflexivity).
  assert (Hx : tick q (snd (tick t s)) = (Throw TypeError, snd (tick q (snd (tick t s)))))
    by (vm_compute; reflexivity).
  destruct (array_foreach tick [t] [t] q s _ _ TypeError Ha Hx) as [E _].
  exact E.
Defined.

(** ** mapAsync *)

Lemma assign_length {X} i (v : X) a :
  length (assign i v a) = Nat.max (length a) (S i).
Proof.
  unfold assign. destruct (Nat.ltb_spec i (length a)).
  - rewrite length_insert. lia.
  - rewrite !length_app, length_replicate. cbn. lia.
Qed.

Lemma assign_lookup_eq {X} i (v : X) a : assign i v a !! i = Some (Some v).
Proof.
  unfold assign. destruct (Nat.ltb_spec i (length a)).
  - now apply list_lookup_insert_eq.
  - rewrite lookup_app_r by lia. rewrite lookup_app_r by (rewrite length_replicate; lia).
    rewrite length_replicate. now replace (i - length a - (i - length a)) with 0 by lia.
Qed.

Lemma assign_lookup_ne {X} i j (v : X) a y :
  j <> i -> a !! j = Some y -> assign i v a !! j = Some y.
Proof.
  intros Hne Hj. unfold assign. destruct (Nat.ltb_spec i (length a)).
  - rewrite list_lookup_insert_ne by congruence. exact Hj.
  - now apply lookup_app_l_Some.
Qed.

Section MapAsyncFacts.
Context {V : Type}.
Implicit Types (s : @MapAsync.vars V) (evs : list (nat * V)).

Lemma later_cons n e evs s :
  MapAsync.later n (e :: evs) s
  = MapAsync.later n evs (MapAsync.valueIs n (fst e) (snd e) s).
Proof. reflexivity. Qed.

Lemma later_app n evs1 evs2 s :
  MapAsync.later n (evs1 ++ evs2) s = MapAsync.later n evs2 (MapAsync.later n evs1 s).
Proof. unfold MapAsync.later. apply fold_left_app. Qed.

Lemma valueIs_finished n i (v : V) s :
  MapAsync.finished (MapAsync.valueIs n i v s) = S (MapAsync.finished s).
Proof. reflexivity. Qed.

Lemma valueIs_output n i (v : V) s :
  MapAsync.output (MapAsync.valueIs n i v s) = assign i v (MapAsync.output s).
Proof. reflexivity. Qed.

Lemma valueIs_called n i (v : V) s :
  MapAsync.called (MapAsync.valueIs n i v s)
  = if S (MapAsync.finished s) =? n
    then MapAsync.called s ++ [assign i v (MapAsync.output s)]
    else MapAsync.called s.
Proof. reflexivity. Qed.

Lemma later_finished n evs : forall s,
  MapAsync.finished (MapAsync.later n evs s) = MapAsync.finished s + length evs.
Proof.
  induction evs as [|e evs IH]; intros s; [cbn; lia|].
  rewrite later_cons, IH, valueIs_finished. cbn [length]. lia.
Qed.

(** No call of [callback] before the count reaches [n]. *)
Lemma later_called_before n evs : forall s,
  MapAsync.finished s + length evs < n ->
  MapAsync.called (MapAsync.later n evs s) = MapAsync.called s.
Proof.
  induction evs as [|e evs IH]; intros s Hlt; [reflexivity|].
  cbn [length] in Hlt. rewrite later_cons, IH by (rewrite valueIs_finished; lia).
  rewrite valueIs_called.
  destruct (Nat.eqb_spec (S (MapAsync.finished s)) n); [lia | reflexivity].
Qed.

(** No call of [callback] once the count is [n] or more. *)
Lemma later_called_after n evs : forall s,
  n <= MapAsync.finished s ->
  MapAsync.called (MapAsync.later n evs s) = MapAsync.called s.
Proof.
  induction evs as [|e evs IH]; intros s Hle; [reflexivity|].
  rewrite later_cons, IH by (rewrite valueIs_finished; lia).
  rewrite valueIs_called.
  destruct (Nat.eqb_spec (S (MapAsync.finished s)) n); [lia | reflexivity].
Qed.

Lemma later_called n evs :
  let s0 := MapAsync.Vars [] 0 [] in
  MapAsync.called (MapAsync.later n evs s0)
  = if (0 <? n) && (n <=? length evs)
    then [MapAsync.output (MapAsync.later n (take n evs) s0)]
    else [].
Proof.
  intros s0.
  destruct (Nat.ltb_spec 0 n) as [Hn|Hn]; cbn [andb].
  2:{ apply later_called_after. cbn. lia. }
  destruct (Nat.leb_spec n (length evs)) as [Hle|Hlt].
  2:{ apply later_called_before. cbn. lia. }
  rewrite <- (take_drop n evs) at 1. rewrite later_app.
  rewrite later_called_after by (rewrite later_finished, length_take; cbn; lia).
  destruct n as [|m]; [lia|].
  assert (Hm : m < length evs) by lia.
  destruct (lookup_lt_is_Some_2 evs m Hm) as [e He].
  rewrite (take_S_r evs m e He), later_app.
  rewrite later_cons. change (MapAsync.later (S m) [] ?x) with x.
  rewrite valueIs_called, valueIs_output, later_finished, length_take.
  replace (S (MapAsync.finished s0 + m `min` length evs) =? S m) with true
    by (symmetry; apply Nat.eqb_eq; cbn; lia).
  rewrite later_called_before by (rewrite length_take; cbn; lia).
  reflexivity.
Qed.

(** A value written stays, when no later call is for its index. *)
Lemma later_output_keep n evs i y : forall s,
  ~ In i (map fst evs) ->
  MapAsync.output s !! i = Some y ->
  MapAsync.output (MapAsync.later n evs s) !! i = Some y.
Proof.
  induction evs as [|e evs IH]; intros s Hn Hy; [exact Hy|].
  rewrite later_cons. apply IH.
  - intros Hin. apply Hn. now right.
  - rewrite valueIs_output. apply assign_lookup_ne; [|exact Hy].
    intros ->. apply Hn. now left.
Qed.

Lemma later_output_lookup n evs i v : forall s,
  NoDup (map fst evs) -> In (i, v) evs ->
  MapAsync.output (MapAsync.later n evs s) !! i = Some (Some v).
Proof.
  induction evs as [|e evs IH]; intros s Hn Hin; [destruct Hin|].
  cbn [map] in Hn. apply NoDup_cons in Hn as [Hout Hn].
  rewrite later_cons. destruct Hin as [->|Hin].
  - apply later_output_keep.
    + cbn [fst] in Hout. intros Hi. apply Hout. now apply list_elem_of_In.
    + rewrite valueIs_output. apply assign_lookup_eq.
  - now apply IH.
Qed.

Lemma later_output_length n m evs : forall s,
  Forall (fun e => fst e < m) evs ->
  length (MapAsync.output s) <= m ->
  length (MapAsync.output (MapAsync.later n evs s)) <= m.
Proof.
  induction evs as [|e evs IH]; intros s Hall Hs; [exact Hs|].
  apply Forall_cons in Hall as [He Hall].
  rewrite later_cons. apply IH; [exact Hall|].
  rewrite valueIs_output, assign_length. lia.
Qed.

End MapAsyncFacts.

Lemma mapAsync_deferred {A V} (that : list A) :
  MapAsync.mapAsync (V := V) (fun _ _ s => s) that = MapAsync.Vars [] 0 [].
Proof.
  unfold MapAsync.mapAsync. generalize (MapAsync.Vars (V := V) [] 0 []).
  generalize 0. generalize (length that).
  induction that as [|x that IH]; intros m i s; [reflexivity|]. cbn. apply IH.
Qed.

(** X17: [mapAsync] counts calls, not positions.  Whatever functions [f]
    keeps and whenever they are called, [callback] is called at the call
    that brings their number to [that.length], with [output] as it is
    then, holes included when some index was written twice and another not
    at all; it is called at no other call, so at most once; and for the
    empty array it is never called. *)
Theorem mapAsync_callback_once {A V} (that : list A) (evs : list (nat * V)) :
  let n := length that in
  let s0 := MapAsync.mapAsync (fun _ _ s => s) that in
  s0 = MapAsync.Vars [] 0 [] /\
  MapAsync.finished (MapAsync.later n evs s0) = length evs /\
  MapAsync.called (MapAsync.later n evs s0)
  = if (0 <? n) && (n <=? length evs)
    then [MapAsync.output (MapAsync.later n (take n evs) s0)]
    else [].
Proof.
  intros n s0.
  assert (E : s0 = MapAsync.Vars [] 0 []) by apply mapAsync_deferred.
  split; [exact E|]. rewrite E. split.
  - now rewrite later_finished.
  - apply later_called.
Qed.

Lemma sync_events_ok {A V} (g : A -> V) rest : forall pre,
  Forall (fun e => g <$> (pre ++ rest) !! fst e = Some (snd e))
         (zip (seq (length pre) (length rest)) (map g rest)).
Proof.
  induction rest as [|x rest IH]; intros pre; [constructor|].
  cbn [length seq map zip zip_with]. constructor.
  - cbn [fst snd]. now rewrite list_lookup_middle.
  - specialize (IH (pre ++ [x])). rewrite length_app in IH. cbn [length] in IH.
    rewrite Nat.add_1_r, <- app_assoc in IH. exact IH.
Qed.

Lemma sync_events_fst {A V} (g : A -> V) rest i :
  map fst (zip (seq i (length rest)) (map g rest)) = seq i (length rest).
Proof.
  revert i. induction rest as [|x rest IH]; intros i; [reflexivity|].
  cbn. f_equal. apply IH.
Qed.

Lemma loop_sync {A V} (g : A -> V) n rest : forall i s,
  MapAsync.loop (fun x valueIs => valueIs (g x)) n i rest s
  = MapAsync.later n (zip (seq i (length rest)) (map g rest)) s.
Proof.
  induction rest as [|x rest IH]; intros i s; [reflexivity|].
  cbn [MapAsync.loop length seq map zip zip_with]. rewrite later_cons. apply IH.
Qed.

Lemma later_output_all {A V} (g : A -> V) (that : list A) (evs : list (nat * V)) :
  Permutation (map fst evs) (seq 0 (length that)) ->
  Forall (fun e => g <$> that !! fst e = Some (snd e)) evs ->
  MapAsync.output (MapAsync.later (length that) evs (MapAsync.Vars [] 0 []))
  = map (fun x => Some (g x)) that.
Proof.
  intros Hperm Hval.
  assert (Hnd : NoDup (map fst evs)).
  { rewrite Hperm. apply NoDup_ListNoDup, seq_NoDup. }
  apply list_eq. intros i. rewrite list_lookup_fmap.
  destruct (that !! i) as [x|] eqn:Ex; cbn.
  - assert (Hi : In i (map fst evs)).
    { apply (Permutation_in _ (Permutation_sym Hperm)), in_seq.
      apply lookup_lt_Some in Ex. lia. }
    apply in_map_iff in Hi as ([j v] & Hj & Hin). cbn in Hj. subst j.
    rewrite Forall_forall in Hval.
    pose proof (Hval (i, v) (proj2 (list_elem_of_In _ _) Hin)) as Hv.
    cbn in Hv. rewrite Ex in Hv. injection Hv as ->.
    now apply later_output_lookup.
  - apply lookup_ge_None_2. apply lookup_ge_None_1 in Ex.
    etransitivity; [|exact Ex].
    apply later_output_length; [|cbn; lia].
    rewrite Forall_forall. intros e He.
    assert (Hin : In (fst e) (map fst evs)).
    { apply in_map. now apply list_elem_of_In. }
    apply (Permutation_in _ Hperm), in_seq in Hin. lia.
Qed.

Lemma mapAsync_all {A V} (g : A -> V) (that : list A) (evs : list (nat * V)) :
  that <> [] ->
  Permutation (map fst evs) (seq 0 (length that)) ->
  Forall (fun e => g <$> that !! fst e = Some (snd e)) evs ->
  MapAsync.called (MapAsync.later (length that) evs (MapAsync.Vars [] 0 []))
  = [map (fun x => Some (g x)) that].
Proof.
  intros Hne Hperm Hval.
  assert (Hlen : length evs = length that).
  { rewrite <- (length_map fst evs), (Permutation_length Hperm). apply length_seq. }
  assert (Hn : 0 < length that) by (destruct that; [congruence | cbn; lia]).
  rewrite later_called.
  replace (0 <? length that) with true by (symmetry; now apply Nat.ltb_lt).
  replace (length that <=? length evs) with true
    by (symmetry; apply Nat.leb_le; lia).
  cbn [andb]. rewrite take_ge by lia. f_equal.
  now apply later_output_all.
Qed.

(** X18: when every function that [mapAsync] hands out is called exactly
    once, the one for index [i] with [g(that[i])], then in whatever order
    the calls come, [callback] is called once, with [g] of every element
    in the order of the array (on a non-empty array).  An [f] that calls
    its function at once, with [g] of the element, is one such order. *)
Theorem mapAsync_any_order {A V} (g : A -> V) (that : list A) (evs : list (nat * V)) :
  that <> [] ->
  Permutation (map fst evs) (seq 0 (length that)) ->
  Forall (fun e => g <$> that !! fst e = Some (snd e)) evs ->
  MapAsync.called
    (MapAsync.later (length that) evs (MapAsync.mapAsync (fun _ _ s => s) that))
  = [map (fun x => Some (g x)) that] /\
  MapAsync.called (MapAsync.mapAsync (fun x valueIs => valueIs (g x)) that)
  = [map (fun x => Some (g x)) that].
Proof.
  intros Hne Hperm Hval. split.
  - rewrite mapAsync_deferred.
    now apply mapAsync_all.
  - unfold MapAsync.mapAsync. rewrite loop_sync.
    apply mapAsync_all; [exact Hne | |].
    + now rewrite sync_events_fst.
    + apply (sync_events_ok g that []).
Qed.

Lemma mapAsync_any_order_witness :
  MapAsync.called
    (MapAsync.later 3 [(2, 31); (0, 11); (1, 21)]
       (MapAsync.mapAsync (fun _ _ s => s) [10; 20; 30]))
  = [[Some 11; Some 21; Some 31]].
Proof.
  assert (Hne : [10; 20; 30] <> []) by discriminate.
  assert (Hperm : Permutation (map fst [(2, 31); (0, 11); (1, 21)])
                              (seq 0 (length [10; 20; 30]))).
  { cbn. eapply perm_trans; [apply perm_swap|]. apply perm_skip, perm_swap. }
  assert (Hval : Forall (fun e => S <$> [10; 20; 30] !! fst e = Some (snd e))
                        [(2, 31); (0, 11); (1, 21)]).
  { repeat constructor. }
  exact (proj1 (mapAsync_any_order S [10; 20; 30] [(2, 31); (0, 11); (1, 21)]
                  Hne Hperm Hval)).
Defined.

(** ** filterAsync *)

Section FilterAsyncFacts.
Context {A : Type} (that : list A).

(** The variables of a [filterAsync] call, beside those of a [mapAsync]
    call on the same array: [keepIt] for [output], and [callback] called
    with the elements picked by the array that [mapAsync] passes. *)
Definition matches (s : @FilterAsync.vars A) (m : @MapAsync.vars bool) : Prop :=
  FilterAsync.keepIt s = MapAsync.output m /\
  FilterAsync.finished s = MapAsync.finished m /\
  FilterAsync.called s
  = map (fun keepIt => FilterAsync.collect keepIt 0 that []) (MapAsync.called m).

Lemma filterAsync_later_cons e evs s :
  FilterAsync.later that (e :: evs) s
  = FilterAsync.later that evs (FilterAsync.valueIs that (fst e) (snd e) s).
Proof. reflexivity. Qed.

Lemma filterAsync_later_app evs1 evs2 s :
  FilterAsync.later that (evs1 ++ evs2) s
  = FilterAsync.later that evs2 (FilterAsync.later that evs1 s).
Proof. unfold FilterAsync.later. apply fold_left_app. Qed.

Lemma filterAsync_valueIs_finished j v s :
  FilterAsync.finished (FilterAsync.valueIs that j v s) = S (FilterAsync.finished s).
Proof.
  unfold FilterAsync.valueIs.
  now destruct (S (FilterAsync.finished s) =? length that).
Qed.

Lemma filterAsync_valueIs_i j v s :
  S (FilterAsync.finished s) <> length that ->
  FilterAsync.i (FilterAsync.valueIs that j v s) = FilterAsync.i s.
Proof.
  intros Hne. unfold FilterAsync.valueIs.
  destruct (Nat.eqb_spec (S (FilterAsync.finished s)) (length that)); [lia|reflexivity].
Qed.

Lemma valueIs_matches s m j v :
  matches s m -> readN (FilterAsync.i s) j = j ->
  matches (FilterAsync.valueIs that j v s) (MapAsync.valueIs (length that) j v m).
Proof.
  intros (Hk & Hf & Hc) Hj. unfold FilterAsync.valueIs, MapAsync.valueIs.
  rewrite Hj, Hk, Hf, Hc.
  destruct (S (MapAsync.finished m) =? length that); repeat split.
  cbn. now rewrite map_app.
Qed.

Lemma later_matches evs : forall s m,
  matches s m ->
  FilterAsync.finished s + length evs <= length that ->
  Forall (fun e => readN (FilterAsync.i s) (fst e) = fst e) evs ->
  matches (FilterAsync.later that evs s) (MapAsync.later (length that) evs m).
Proof.
  induction evs as [|e evs IH]; intros s m Hm Hle Hi; [exact Hm|].
  apply Forall_cons in Hi as [He Hi]. cbn [length] in Hle.
  rewrite filterAsync_later_cons, later_cons.
  destruct evs as [|e' evs].
  - now apply valueIs_matches.
  - apply IH.
    + now apply valueIs_matches.
    + rewrite filterAsync_valueIs_finished. cbn [length] in *. lia.
    + rewrite filterAsync_valueIs_i by (cbn [length] in Hle; lia). exact Hi.
Qed.

Lemma filterAsync_later_finished evs : forall s,
  FilterAsync.finished (FilterAsync.later that evs s)
  = FilterAsync.finished s + length evs.
Proof.
  induction evs as [|e evs IH]; intros s; [cbn; lia|].
  rewrite filterAsync_later_cons, IH, filterAsync_valueIs_finished. cbn [length]. lia.
Qed.

(** No call of [callback] once the count is [that.length] or more. *)
Lemma filterAsync_called_after evs : forall s,
  length that <= FilterAsync.finished s ->
  FilterAsync.called (FilterAsync.later that evs s) = FilterAsync.called s.
Proof.
  induction evs as [|e evs IH]; intros s Hle; [reflexivity|].
  rewrite filterAsync_later_cons, IH by (rewrite filterAsync_valueIs_finished; lia).
  unfold FilterAsync.valueIs.
  destruct (Nat.eqb_spec (S (FilterAsync.finished s)) (length that)); [lia|reflexivity].
Qed.

(** The loop, when [f] keeps the functions for later: every call of
    [function(i)] has its [i]. *)
Lemma filterAsync_loop_deferred rest : forall j s,
  let s' := FilterAsync.loop (fun _ _ s => s) that j rest s in
  FilterAsync.keepIt s' = FilterAsync.keepIt s /\
  FilterAsync.finished s' = FilterAsync.finished s /\
  FilterAsync.called s' = FilterAsync.called s /\
  forall k, j <= k < j + length rest -> FilterAsync.i s' !! k = Some k.
Proof.
  induction rest as [|x rest IH]; intros j s s'.
  - repeat split. cbn. lia.
  - unfold s'. cbn [FilterAsync.loop].
    set (s1 := FilterAsync.Vars _ _ _ _).
    destruct (IH (S j) s1) as (Hk & Hf & Hc & Hi).
    repeat split; try assumption.
    intros k Hk'. cbn [length] in Hk'.
    destruct (decide (k = j)) as [->|Hne]; [|apply Hi; lia].
    clear - s1. revert s1. generalize (FilterAsync.keepIt s) (FilterAsync.finished s)
      (FilterAsync.called s) (FilterAsync.i s).
    assert (G : forall rest' j' (t : @FilterAsync.vars A),
              j < j' -> FilterAsync.i t !! j = Some j ->
              FilterAsync.i (FilterAsync.loop (fun _ _ s => s) that j' rest' t) !! j
              = Some j).
    { induction rest' as [|y rest' IH']; intros j' t Hlt Ht; [exact Ht|].
      cbn [FilterAsync.loop]. apply IH'; [lia|]. cbn.
      rewrite lookup_insert_ne by lia. exact Ht. }
    intros ks f c i0 s1. apply G; [lia|]. unfold s1. cbn. apply lookup_insert_eq.
Qed.

Lemma loop_matches (p : A -> bool) rest : forall j s m,
  matches s m ->
  matches (FilterAsync.loop (fun x keep => keep (p x)) that j rest s)
          (MapAsync.loop (fun x valueIs => valueIs (p x)) (length that) j rest m).
Proof.
  induction rest as [|x rest IH]; intros j s m Hm; [exact Hm|].
  cbn [FilterAsync.loop MapAsync.loop]. apply IH.
  apply valueIs_matches.
  - destruct Hm as (Hk & Hf & Hc). repeat split; assumption.
  - cbn. apply readN_insert_eq.
Qed.

Lemma collect_all (p : A -> bool) rest : forall pre output,
  that = pre ++ rest ->
  FilterAsync.collect (map (fun x => Some (p x)) that) (length pre) rest output
  = output ++ List.filter p rest.
Proof.
  induction rest as [|x rest IH]; intros pre output E.
  - cbn. now rewrite app_nil_r.
  - cbn [FilterAsync.collect List.filter].
    assert (Hx : map (fun x => Some (p x)) that !! length pre = Some (Some (p x))).
    { rewrite list_lookup_fmap, E, list_lookup_middle by reflexivity. reflexivity. }
    rewrite Hx. specialize (IH (pre ++ [x])).
    rewrite length_app, Nat.add_1_r in IH. cbn [FilterAsync.truthy].
    rewrite IH by (now rewrite <- app_assoc).
    destruct (p x); [now rewrite <- app_assoc | reflexivity].
Qed.

End FilterAsyncFacts.

Lemma matches_start {A} (that : list A) i0 :
  matches that (FilterAsync.Vars [] 0 i0 []) (MapAsync.Vars [] 0 []).
Proof. repeat split. Qed.

(** X19: when every function that [filterAsync] hands out is called
    exactly once, the one for index [i] with [p(that[i])], then in
    whatever order the calls come, [callback] is called once, with the
    elements that satisfy [p], in the order of the array (on a non-empty
    array).  Calls that come after that, of whichever of these functions,
    the one whose [i] the inner loop has left at [that.length] included,
    do not call [callback] again.  An [f] that calls its function at once
    gives the same. *)
Theorem filterAsync_any_order {A} (p : A -> bool) (that : list A)
    (evs more : list (nat * bool)) :
  that <> [] ->
  Permutation (map fst evs) (seq 0 (length that)) ->
  Forall (fun e => p <$> that !! fst e = Some (snd e)) evs ->
  FilterAsync.called
    (FilterAsync.later that (evs ++ more)
       (FilterAsync.filterAsync (fun _ _ s => s) that))
  = [List.filter p that] /\
  FilterAsync.called (FilterAsync.filterAsync (fun x keep => keep (p x)) that)
  = [List.filter p that].
Proof.
  intros Hne Hperm Hval.
  assert (Hlen : length evs = length that).
  { rewrite <- (length_map fst evs), (Permutation_length Hperm). apply length_seq. }
  assert (Hcollect : forall m : @MapAsync.vars bool,
            MapAsync.called m = [map (fun x => Some (p x)) that] ->
            map (fun keepIt => FilterAsync.collect keepIt 0 that []) (MapAsync.called m)
            = [List.filter p that]).
  { intros m ->. cbn [map]. f_equal. apply (collect_all that p that [] []). reflexivity. }
  split.
  - rewrite filterAsync_later_app.
    set (s0 := FilterAsync.filterAsync _ that).
    destruct (filterAsync_loop_deferred that that 0 (FilterAsync.Vars [] 0 ∅ []))
      as (Hk & Hf & Hc & Hi).
    fold (FilterAsync.filterAsync (fun _ _ s => s) that) in Hk, Hf, Hc, Hi.
    fold s0 in Hk, Hf, Hc, Hi. cbn in Hk, Hf, Hc.
    assert (Hm0 : matches that s0 (MapAsync.Vars [] 0 [])).
    { repeat split; assumption. }
    assert (Hm : matches that (FilterAsync.later that evs s0)
                   (MapAsync.later (length that) evs (MapAsync.Vars [] 0 []))).
    { apply later_matches; [exact Hm0 | rewrite Hf; lia |].
      rewrite Forall_forall. intros e He.
      assert (Hin : In (fst e) (map fst evs)).
      { apply in_map. now apply list_elem_of_In. }
      apply (Permutation_in _ Hperm), in_seq in Hin.
      unfold readN. rewrite Hi by lia. reflexivity. }
    rewrite filterAsync_called_after
      by (rewrite filterAsync_later_finished, Hf; lia).
    destruct Hm as (_ & _ & ->). apply Hcollect. now apply mapAsync_all.
  - unfold FilterAsync.filterAsync.
    destruct (loop_matches that p that 0 _ _ (matches_start that ∅)) as (_ & _ & ->).
    apply Hcollect. rewrite loop_sync. apply mapAsync_all; [exact Hne | |].
    + now rewrite sync_events_fst.
    + apply (sync_events_ok p that []).
Qed.

Lemma filterAsync_any_order_witness :
  FilterAsync.called
    (FilterAsync.later [1; 2; 3; 4]
       ([(3, true); (0, false); (2, false); (1, true)] ++ [(1, false); (1, true)])
       (FilterAsync.filterAsync (fun _ _ s => s) [1; 2; 3; 4]))
  = [[2; 4]].
Proof.
  assert (Hne : [1; 2; 3; 4] <> []) by discriminate.
  assert (Hperm : Permutation (map fst [(3, true); (0, false); (2, false); (1, true)])
                              (seq 0 (length [1; 2; 3; 4]))).
  { cbn. apply Permutation_sym. apply NoDup_Permutation.
    - apply NoDup_ListNoDup, (seq_NoDup 4 0).
    - apply NoDup_ListNoDup. repeat constructor; cbn; intuition discriminate.
    - intros x. rewrite !list_elem_of_In. cbn. intuition. }
  assert (Hval : Forall (fun e => Nat.even <$> [1; 2; 3; 4] !! fst e = Some (snd e))
                        [(3, true); (0, false); (2, false); (1, true)]).
  { repeat constructor. }
  exact (proj1 (filterAsync_any_order Nat.even [1; 2; 3; 4]
                  [(3, true); (0, false); (2, false); (1, true)]
                  [(1, false); (1, true)] Hne Hperm Hval)).
Defined.

(** ** search *)

Lemma best_all places : forall acc s,
  reduce (fun place best =>
            match place with
            | Some place => ret (Search.Math_max (Search.Num (Search.utc_offset place)) best)
            | None => throw TypeError
            end) acc (map Some places) s
  = (Ok (fold_left (fun best place =>
                      Search.Math_max (Search.Num (Search.utc_offset place)) best)
                   places acc), s).
Proof.
  induction places as [|pl places IH]; intros acc s; [reflexivity|].
  cbn [map reduce fold_left]. erewrite bind_Ok by reflexivity. apply IH.
Qed.

Lemma fold_Math_max places : forall z,
  exists m,
    fold_left (fun best place =>
                 Search.Math_max (Search.Num (Search.utc_offset place)) best)
              places (Search.Num z) = Search.Num m /\
    (m = z \/ In m (map Search.utc_offset places)) /\
    (z <= m)%Z /\
    Forall (fun place => (Search.utc_offset place <= m)%Z) places.
Proof.
  induction places as [|pl places IH]; intros z.
  - exists z. repeat split; [now left | lia | constructor].
  - cbn [fold_left Search.Math_max].
    destruct (IH (Z.max (Search.utc_offset pl) z)) as (m & E & Hin & Hle & Hall).
    exists m. split; [exact E|]. split; [|split].
    + destruct Hin as [->|Hin]; [|right; now right].
      destruct (Z.max_spec (Search.utc_offset pl) z) as [[_ ->]|[_ ->]];
        [now left | right; now left].
    + lia.
    + constructor; [lia | exact Hall].
Qed.

(** X20: [search] tells [output] the greatest [utc_offset] among the
    places of the results.  When [getDetails] calls back once for every
    result, in any order, with the place of that result, [output] is
    called once, with a number that is the [utc_offset] of one of the
    places and is not below that of any; and when [nearbySearch] finds no
    result, [output] is never called, whatever calls come. *)
Theorem search_greatest_offset (details : Search.result -> Search.place)
    (results : list Search.result) (evs : list (nat * Search.place)) :
  Permutation (map fst evs) (seq 0 (length results)) ->
  Forall (fun e => details <$> results !! fst e = Some (snd e)) evs ->
  (forall calls, Search.search [] calls = []) /\
  (results <> [] ->
   exists m,
     Search.search results evs = [Search.Num m] /\
     In m (map (fun r => Search.utc_offset (details r)) results) /\
     Forall (fun r => (Search.utc_offset (details r) <= m)%Z) results).
Proof.
  intros Hperm Hval. split.
  - intros calls. unfold Search.search. rewrite mapAsync_deferred.
    now rewrite later_called.
  - intros Hne. unfold Search.search. rewrite mapAsync_deferred.
    rewrite (mapAsync_all details results evs Hne Hperm Hval).
    cbn [flat_map]. rewrite app_nil_r. unfold Search.best.
    rewrite <- (map_map details Some), best_all. cbn [fst].
    destruct results as [|r results]; [congruence|].
    cbn [map fold_left Search.Math_max].
    destruct (fold_Math_max (map details results) (Search.utc_offset (details r)))
      as (m & E & Hin & Hle & Hall).
    exists m. split; [f_equal; exact E|]. split.
    + destruct Hin as [->|Hin]; [now left|]. right.
      now rewrite map_map in Hin.
    + constructor; [exact Hle|]. now rewrite Forall_map in Hall.
Qed.

Lemma search_greatest_offset_witness :
  let details := fun r => Search.Place (Z.of_nat (Search.place_id r) * 60 - 300) in
  let results := [Search.Result 7; Search.Result 9; Search.Result 2] in
  let evs := [(1, details (Search.Result 9)); (2, details (Search.Result 2));
              (0, details (Search.Result 7))] in
  exists m,
    Search.search results evs = [Search.Num m] /\
    In m (map (fun r => Search.utc_offset (details r)) results) /\
    Forall (fun r => (Search.utc_offset (details r) <= m)%Z) results.
Proof.
  intros details results evs.
  assert (Hperm : Permutation (map fst evs) (seq 0 (length results))).
  { cbn. eapply perm_trans; [apply perm_skip, perm_swap|]. apply perm_swap. }
  assert (Hval : Forall (fun e => details <$> results !! fst e = Some (snd e)) evs).
  { repeat constructor. }
  apply (search_greatest_offset details results evs Hperm Hval). discriminate.
Defined.
